(** * Leona screenshot generators: a shallow embedding

    The two Python scripts of the repository
    ([generate_marketing_screenshots.py] and [generate_screenshots.py])
    are embedded function by function.  Python integers are [Z], Python
    floats are Rocq's primitive binary64 floats (the same IEEE 754 format
    and round-to-nearest-even arithmetic as CPython's [float]), and a
    Python exception is a [Raise] in a small error monad.  *)

From Stdlib Require Import ZArith QArith Qround Qabs Qpower Lia Lra Psatz List String Bool.
From Stdlib Require Import Floats.
Import ListNotations.

Set Warnings "-inexact-float".

Local Open Scope Z_scope.

(** ** Python values, exceptions and arithmetic *)

Module Py.

Inductive exn : Set :=
| ValueError
| OverflowError
| ZeroDivisionError
| IndexError
| TypeError.

Inductive result (A : Type) : Type :=
| Ok (a : A)
| Raise (e : exn).

Arguments Ok {A} a.
Arguments Raise {A} e.

Definition bind {A B : Type} (r : result A) (k : A -> result B) : result B :=
  match r with
  | Ok a => k a
  | Raise e => Raise e
  end.

Definition is_ok {A : Type} (r : result A) : bool :=
  match r with Ok _ => true | Raise _ => false end.

(** [float(z)]: the integer rounded to the nearest binary64 value, ties to
    even; CPython raises [OverflowError] when the integer is too large. *)
Definition Z2SF (z : Z) : spec_float := binary_normalize prec emax z 0 false.

Definition float_of_int (z : Z) : result float :=
  match Z2SF z with
  | S754_infinity _ => Raise OverflowError
  | x => Ok (SF2Prim x)
  end.

(** The truncation toward zero of a finite binary64 value. *)
Definition SFtrunc (s : bool) (m : positive) (e : Z) : Z :=
  cond_Zopp s
    (match e with
     | Z0 => Zpos m
     | Zpos p => Zpos m * 2 ^ Zpos p
     | Zneg p => Zpos m / 2 ^ Zpos p
     end).

(** [int(x)] for a float [x]. *)
Definition int_of_float (x : float) : result Z :=
  match Prim2SF x with
  | S754_zero _ => Ok 0
  | S754_finite s m e => Ok (SFtrunc s m e)
  | S754_infinity _ => Raise OverflowError
  | S754_nan => Raise ValueError
  end.

(** An integer as a (not normalised) binary float with exponent 0: the
    operand format of the integer true division below. *)
Definition raw_int (z : Z) : spec_float :=
  match z with
  | Z0 => S754_zero false
  | Zpos p => S754_finite false p 0
  | Zneg p => S754_finite true p 0
  end.

(** [a / b] on two integers: the exact quotient rounded once to the nearest
    binary64 value ([SFdiv] scales the numerator before dividing, so the
    operands need not fit in 53 bits). *)
Definition truediv (a b : Z) : result float :=
  if b =? 0 then Raise ZeroDivisionError
  else
    match SFdiv prec emax (raw_int a) (raw_int b) with
    | S754_infinity _ => Raise OverflowError
    | q => Ok (SF2Prim q)
    end.

(** [x / y] on two floats. *)
Definition fdiv (x y : float) : result float :=
  match Prim2SF y with
  | S754_zero _ => Raise ZeroDivisionError
  | _ => Ok (x / y)%float
  end.

End Py.

Import Py.

Declare Scope py_scope.
Delimit Scope py_scope with py.
Notation "x <- e ;; k" := (bind e (fun x => k))
  (at level 61, e at next level, right associativity) : py_scope.
Notation "' p <- e ;; k" := (bind e (fun p => k))
  (at level 61, p pattern, e at next level, right associativity) : py_scope.
Notation "e ;;; k" := (bind e (fun _ => k))
  (at level 61, right associativity) : py_scope.
Local Open Scope py_scope.

(** Mixed int/float operators: the integer operand is converted first. *)
Definition imulf (z : Z) (x : float) : result float :=
  f <- float_of_int z ;; Ok (f * x)%float.

Definition fmuli (x : float) (z : Z) : result float :=
  f <- float_of_int z ;; Ok (x * f)%float.

Definition isubf (z : Z) (x : float) : result float :=
  f <- float_of_int z ;; Ok (f - x)%float.

Definition fsubi (x : float) (z : Z) : result float :=
  f <- float_of_int z ;; Ok (x - f)%float.

Definition iaddf (z : Z) (x : float) : result float :=
  f <- float_of_int z ;; Ok (f + x)%float.

(** [int(z * c)] for an integer [z] and a float constant [c]. *)
Definition int_imulf (z : Z) (c : float) : result Z :=
  p <- imulf z c ;; int_of_float p.

(** ** The imaging library, as far as the scripts rely on it *)

Module PIL.

(** [Image.new(mode, (w, h))] refuses a negative dimension. *)
Definition check_new (w h : Z) : result unit :=
  if (w <? 0) || (h <? 0) then Raise ValueError else Ok tt.

(** [Image.resize((w, h))] refuses a dimension below 1. *)
Definition check_resize (w h : Z) : result unit :=
  if (w <? 1) || (h <? 1) then Raise ValueError else Ok tt.

(** A bounding box [[(x0, y0), (x1, y1)]], both corners included. *)
Record box : Set := Box { bx0 : Z; by0 : Z; bx1 : Z; by1 : Z }.

(** [ImageDraw.rounded_rectangle(box, radius)] wants an ordered box and a
    radius that is not negative. *)
Definition check_rounded_rectangle (b : box) (radius : Z) : result unit :=
  if (bx1 b <? bx0 b) || (by1 b <? by0 b) || (radius <? 0)
  then Raise ValueError else Ok tt.

(** [inner] lies inside [outer] with at least [margin] pixels on each side. *)
Definition inset_by (margin : Z) (outer inner : box) : Prop :=
  bx0 outer + margin <= bx0 inner /\ bx1 inner + margin <= bx1 outer /\
  by0 outer + margin <= by0 inner /\ by1 inner + margin <= by1 outer.

Definition nonempty (b : box) : Prop := bx0 b <= bx1 b /\ by0 b <= by1 b.

End PIL.

(** ** The [random] module

    The generator itself (a Mersenne Twister) is the library's; the scripts
    only reseed it and draw from it, so it is an interface here. *)

Class Random (G : Type) : Type := {
  seed : Z -> G;
  next_randint : Z -> Z -> G -> Z * G;
  next_uniform : float -> float -> G -> float * G
}.

(** [random.randint(a, b)] refuses an empty range. *)
Definition randint {G : Type} `{Random G} (a b : Z) (g : G) : result (Z * G) :=
  if b <? a then Raise ValueError else Ok (next_randint a b g).

(** [random.uniform(a, b)] *)
Definition uniform {G : Type} `{Random G} (a b : float) (g : G) : float * G :=
  next_uniform a b g.

(** A linear congruential generator, to run the models on. *)
Definition lcg_step (g : Z) : Z := (g * 1103515245 + 12345) mod 2147483648.

#[global] Instance lcg_random : Random Z := {
  seed := fun z => z mod 2147483648;
  next_randint := fun a b g => (a + lcg_step g mod (b - a + 1), lcg_step g);
  next_uniform := fun a b g =>
    match truediv (lcg_step g) 2147483648 with
    | Ok u => ((a + (b - a) * u)%float, lcg_step g)
    | Raise _ => (a, lcg_step g)
    end
}.

(** ** generate_marketing_screenshots.py *)

Module Marketing.

Import PIL.

(** *** Device mockups *)

Record geometry : Set := Geometry {
  bezel : Z;
  inner_w : Z;
  inner_h : Z;
  frame_h : Z;
  corner_outer : Z;
  corner_inner : Z
}.

(** The frame returned by a builder: the size of the RGBA canvas, the
    bounding box of the outer body, and the box the scaled screenshot is
    pasted into. *)
Record frame : Set := Frame {
  frame_geometry : geometry;
  canvas_w : Z;
  canvas_h : Z;
  body_box : box;
  screen_box : box
}.

(** The "Frame geometry" block of [build_iphone_frame]. *)
Definition iphone_geometry (sw sh frame_w : Z) : result geometry :=
  b <- int_imulf frame_w 0.022 ;;
  let bezel := Z.max b 5 in
  let inner_w := frame_w - bezel * 2 in
  scale <- truediv inner_w sw ;;
  p <- imulf sh scale ;;
  inner_h <- int_of_float p ;;
  let frame_h := inner_h + bezel * 2 in
  corner_outer <- int_imulf frame_w 0.082 ;;
  let corner_inner := corner_outer - bezel in
  Ok (Geometry bezel inner_w inner_h frame_h corner_outer corner_inner).

Definition build_iphone_frame (sw sh frame_w : Z) : result frame :=
  g <- iphone_geometry sw sh frame_w ;;
  check_new (frame_w + 8) (frame_h g + 8) ;;;
  let ox := 4 in
  let oy := 4 in
  let body := Box ox oy (ox + frame_w - 1) (oy + frame_h g - 1) in
  check_rounded_rectangle body (corner_outer g) ;;;
  check_rounded_rectangle
    (Box (ox + 1) (oy + 1) (ox + frame_w - 2) (oy + frame_h g - 2))
    (corner_outer g - 1) ;;;
  check_rounded_rectangle
    (Box (ox + 2) (oy + 2) (ox + frame_w - 3) (oy + frame_h g - 3))
    (corner_outer g - 2) ;;;
  check_resize (inner_w g) (inner_h g) ;;;
  check_new (inner_w g) (inner_h g) ;;;
  check_rounded_rectangle (Box 0 0 (inner_w g - 1) (inner_h g - 1))
    (corner_inner g) ;;;
  let screen :=
    Box (ox + bezel g) (oy + bezel g)
        (ox + bezel g + inner_w g - 1) (oy + bezel g + inner_h g - 1) in
  Ok (Frame g (frame_w + 8) (frame_h g + 8) body screen).

(** The geometry block of [build_ipad_frame]. *)
Definition ipad_geometry (sw sh frame_w : Z) : result geometry :=
  b <- int_imulf frame_w 0.018 ;;
  let bezel := Z.max b 5 in
  let inner_w := frame_w - bezel * 2 in
  scale <- truediv inner_w sw ;;
  p <- imulf sh scale ;;
  inner_h <- int_of_float p ;;
  let frame_h := inner_h + bezel * 2 in
  corner_outer <- int_imulf frame_w 0.028 ;;
  let corner_inner := Z.max (corner_outer - bezel) 2 in
  Ok (Geometry bezel inner_w inner_h frame_h corner_outer corner_inner).


Inductive device : Set := Phone | Tablet.





(** *** Gradient backdrop *)

Definition color : Set := (Z * Z * Z)%type.
Definition rgba : Set := (Z * Z * Z * Z)%type.

Definition alpha (p : rgba) : Z := snd p.

(** [c + (255,)] *)
Definition opaque (c : color) : rgba := (c, 255).

Definition channel_ok (v : Z) : Prop := 0 <= v <= 255.

Definition color_ok (c : color) : Prop :=
  let '(r, g, b) := c in channel_ok r /\ channel_ok g /\ channel_ok b.

(** One component of [lerp]: [int(a + (b - a) * t)]. *)
Definition lerp_channel (a b : Z) (t : float) : result Z :=
  p <- imulf (b - a) t ;;
  s <- iaddf a p ;;
  int_of_float s.

Definition lerp (c1 c2 : color) (t : float) : result color :=
  let '(r1, g1, b1) := c1 in
  let '(r2, g2, b2) := c2 in
  r <- lerp_channel r1 r2 t ;;
  g <- lerp_channel g1 g2 t ;;
  b <- lerp_channel b1 b2 t ;;
  Ok (r, g, b).

(** [t * t * (3 - 2 * t)]; the integer literals 2 and 3 convert exactly. *)
Definition smoothstep (t : float) : float := (t * t * (3 - 2 * t))%float.

(** [xs[i]] with Python's negative indices. *)
Definition py_index {A : Type} (xs : list A) (i : Z) : result A :=
  let n := Z.of_nat (List.length xs) in
  let j := if i <? 0 then i + n else i in
  if (j <? 0) || (n <=? j) then Raise IndexError
  else match nth_error xs (Z.to_nat j) with
       | Some x => Ok x
       | None => Raise IndexError
       end.

(** The body of the [for y in range(h)] loop, up to the colour of row [y]. *)
Definition gradient_row (h : Z) (colors : list color) (y : Z) : result color :=
  let n := Z.of_nat (List.length colors) in
  t <- truediv y h ;;
  let t_eased := smoothstep t in
  pos <- fmuli t_eased (n - 1) ;;
  ip <- int_of_float pos ;;
  let idx := Z.min ip (n - 2) in
  frac <- fsubi pos idx ;;
  c1 <- py_index colors idx ;;
  c2 <- py_index colors (idx + 1) ;;
  lerp c1 c2 frac.

(** An RGBA image: [height] rows of [width] pixels. *)
Record image : Set := Image {
  width : Z;
  height : Z;
  rows : list (list rgba)
}.

(** [Image.new("RGBA", (w, h))]: every pixel is transparent black. *)
Definition image_new (w h : Z) : result image :=
  check_new w h ;;;
  Ok (Image w h (repeat (repeat (0, 0, 0, 0) (Z.to_nat w)) (Z.to_nat h))).

Fixpoint fill_span (x : Z) (x0 x1 : Z) (c : rgba) (row : list rgba) : list rgba :=
  match row with
  | [] => []
  | p :: rest =>
      (if (x0 <=? x) && (x <=? x1) then c else p) :: fill_span (x + 1) x0 x1 c rest
  end.

Fixpoint update_row (y : nat) (f : list rgba -> list rgba) (rs : list (list rgba))
  : list (list rgba) :=
  match rs, y with
  | [], _ => []
  | r :: rest, O => f r :: rest
  | r :: rest, S y' => r :: update_row y' f rest
  end.

(** [draw.line([(x0, y), (x1, y)], fill=c)]: a one-pixel horizontal line,
    both end points included, clipped to the image. *)
Definition draw_hline (img : image) (x0 x1 y : Z) (c : rgba) : image :=
  if y <? 0 then img
  else Image (width img) (height img)
             (update_row (Z.to_nat y) (fill_span 0 x0 x1 c) (rows img)).

(** [for y in range(n)] over a state, stopping at the first exception. *)
Fixpoint for_range {S : Type} (start : Z) (n : nat) (body : Z -> S -> result S) (s : S)
  : result S :=
  match n with
  | O => Ok s
  | Datatypes.S n' => s' <- body start s ;; for_range (start + 1) n' body s'
  end.

Definition create_soft_gradient (size : Z * Z) (colors : list color) : result image :=
  let '(w, h) := size in
  img <- image_new w h ;;
  for_range 0 (Z.to_nat h)
    (fun y img =>
       c <- gradient_row h colors y ;;
       Ok (draw_hline img 0 w y (opaque c)))
    img.

(** Row [y] of an image. *)
Definition image_row (img : image) (y : Z) : option (list rgba) :=
  if y <? 0 then None else nth_error (rows img) (Z.to_nat y).

(** The first [k] rows of a [w] x [h] image are painted: the image has its
    size, every row its length, and each of the first [k] rows is filled
    with the opaque colour [gradient_row] computes for it. *)
Definition painted (w h : Z) (stops : list color) (k : nat) (img : image) : Prop :=
  width img = w /\ height img = h /\
  List.length (rows img) = Z.to_nat h /\
  Forall (fun r => List.length r = Z.to_nat w) (rows img) /\
  forall i r, (i < k)%nat -> nth_error (rows img) i = Some r ->
    exists c, gradient_row h stops (Z.of_nat i) = Ok c /\
              r = repeat (opaque c) (Z.to_nat w).

(** *** Decorative bubbles of [draw_soft_shapes] *)

(** A bubble: centre, radius and opacity of one white ellipse. *)
Record bubble : Set := Bubble { bub_x : Z; bub_y : Z; bub_r : Z; bub_opacity : Z }.

Section Bubbles.

Context {G : Type} `{Random G}.

(** One iteration of [for _ in range(8)]. *)
Definition draw_bubble (cw ch : Z) (st : list bubble * G) : result (list bubble * G) :=
  let '(bubbles, g) := st in
  lo <- int_imulf cw 0.05 ;;
  hi <- int_imulf cw 0.95 ;;
  '(bx, g) <- randint lo hi g ;;
  lo <- int_imulf ch 0.02 ;;
  hi <- int_imulf ch 0.32 ;;
  '(by_, g) <- randint lo hi g ;;
  lo <- int_imulf cw 0.01 ;;
  hi <- int_imulf cw 0.025 ;;
  '(br, g) <- randint lo hi g ;;
  '(opacity, g) <- randint 25 50 g ;;
  Ok (bubbles ++ [Bubble bx by_ br opacity], g).

(** "# Tiny floating circles" of [draw_soft_shapes], run with the global
    generator in state [g]: the bubbles drawn and the generator afterwards. *)
Definition draw_soft_shapes_bubbles (cw ch : Z) (g : G) : result (list bubble * G) :=
  let g := seed 42 in
  for_range 0 8 (fun _ st => draw_bubble cw ch st) ([], g).

End Bubbles.

(** *** [generate] and the batch of [main] *)

Record screen : Set := Screen {
  file : string;
  out : string;
  headline : string;
  subtitle : string;
  colors : list color;
  tilt : float
}.

(** [SCREENS]; the line break of a headline and the bullets of a subtitle
    are written in ASCII. *)
Definition SCREENS : list screen :=
  [ Screen "01_Onboarding.png" "01_Welcome.png"
      "Your baby's first companion" "Every feeding, every nap, every smile"
      [(255, 230, 240); (255, 190, 215); (250, 150, 190)] 3;
    Screen "02_Dashboard.png" "02_Dashboard.png"
      "Everything you need, one tap away" "Feedings, Sleep, Diapers, Notes"
      [(220, 235, 255); (180, 210, 255); (140, 175, 240)] (-2.5);
    Screen "03_Statistics.png" "03_Statistics.png"
      "Understand your baby's rhythm" "Beautiful charts that make sense"
      [(220, 245, 225); (170, 225, 185); (120, 200, 150)] 3;
    Screen "04_Growth.png" "04_Growth.png"
      "Watch them grow, every day" "WHO growth charts included"
      [(255, 240, 220); (255, 215, 175); (250, 190, 130)] (-3);
    Screen "05_Health.png" "05_Health.png"
      "Peace of mind for every parent" "Vaccines, illnesses, medications"
      [(240, 230, 255); (215, 195, 250); (185, 160, 235)] 2.5;
    Screen "06_Settings.png" "06_Settings.png"
      "Made with love, just for you" "Themes, iCloud sync, Your way"
      [(225, 245, 250); (185, 225, 240); (145, 200, 225)] (-2.5) ].

(** [os.path.join(dir, name)] for a relative [name]. *)
Definition path_join (dir name : string) : string := (dir ++ "/" ++ name)%string.

(** What [print] writes. *)
Inductive message : Set :=
| Missing (src : string)
| Done (out_name : string).

Section Generate.

(** The content of an image file. *)
Variable picture : Type.

(** Steps 1 to 8 of [generate]: the picture composed from the opened
    screenshot; any exception of the drawing code comes out of it. *)
Variable compose : screen -> picture -> Z * Z -> device -> result picture.

(** The file system and the standard output. *)
Record world : Type := World {
  files : string -> option picture;
  stdout : list message
}.

Definition print (m : message) (w : world) : world :=
  World (files w) (stdout w ++ [m]).

Definition save (path : string) (p : picture) (w : world) : world :=
  World (fun q => if String.eqb q path then Some p else files w q) (stdout w).

Definition generate (sc : screen) (input_dir output_dir : string)
    (canvas_size : Z * Z) (device_type : device) (w : world) : result world :=
  let src := path_join input_dir (file sc) in
  match files w src with
  | None => Ok (print (Missing src) w)
  | Some screenshot =>
      final <- compose sc screenshot canvas_size device_type ;;
      let w := save (path_join output_dir (out sc)) final w in
      Ok (print (Done (out sc)) w)
  end.

(** One call of [generate] in a batch. *)
Record job : Set := Job {
  job_screen : screen;
  job_input_dir : string;
  job_output_dir : string;
  job_canvas : Z * Z;
  job_device : device
}.

Definition run_job (j : job) (w : world) : result world :=
  generate (job_screen j) (job_input_dir j) (job_output_dir j)
           (job_canvas j) (job_device j) w.

(** The [for s in SCREENS: generate(...)] loops. *)
Definition run_batch (jobs : list job) (w : world) : result world :=
  fold_left (fun r j => w <- r ;; run_job j w) jobs (Ok w).

Definition BASE : string := "/Users/chahine/Projects/Leona/Screenshots".

Definition main_jobs : list job :=
  map (fun s => Job s (path_join BASE "iPhone") (path_join BASE "Marketing_iPhone_6.7")
                    (1284, 2778) Phone) SCREENS ++
  map (fun s => Job s (path_join BASE "iPhone") (path_join BASE "Marketing_iPhone_6.5")
                    (1242, 2688) Phone) SCREENS ++
  map (fun s => Job s (path_join BASE "iPad") (path_join BASE "Marketing_iPad_13")
                    (2048, 2732) Tablet) SCREENS ++
  map (fun s => Job s (path_join BASE "iPad") (path_join BASE "Marketing_iPad_12.9")
                    (2064, 2752) Tablet) SCREENS.

(** The files a run leaves behind, or the exception that ended it. *)
Definition files_after (r : result world) : result (string -> option picture) :=
  w <- r ;; Ok (files w).

End Generate.

End Marketing.


(** ** generate_screenshots.py *)

Module Screenshots.

(** [S(val, scale)]: [int(val * scale)]. *)
Definition S (val : Z) (scale : float) : result Z := int_imulf val scale.

(** What the scripts ask [ImageDraw] to draw, in order. *)
Inductive draw_cmd : Set :=
| DrawLine (x0 y0 x1 y1 : Z) (line_width : Z)
| DrawText (x y : Z) (text : string)
| DrawCircle (cx cy r : Z).

(** The elements of the tuples the percentile loop iterates over. *)
Inductive pyval : Set :=
| PFloat (f : float)
| PStr (s : string).

Definition as_float (v : pyval) : result float :=
  match v with PFloat f => Ok f | PStr _ => Raise TypeError end.

Definition as_str (v : pyval) : result string :=
  match v with PStr s => Ok s | PFloat _ => Raise TypeError end.

(** [for a, b, c in ...]: the tuple must have exactly three elements. *)
Definition unpack3 (t : list pyval) : result (pyval * pyval * pyval) :=
  match t with
  | [a; b; c] => Ok (a, b, c)
  | _ => Raise ValueError
  end.

(** [for x in xs] over a state, stopping at the first exception. *)
Fixpoint for_each {A St : Type} (xs : list A) (body : A -> St -> result St) (st : St)
  : result St :=
  match xs with
  | [] => Ok st
  | x :: rest => st' <- body x st ;; for_each rest body st'
  end.

(** [range(0, stop, step)] for a positive [step]. *)
Definition range_step (stop step : Z) : list Z :=
  map (fun k => Z.of_nat k * step) (seq 0 (Z.to_nat ((stop + step - 1) / step))).

(** [enumerate(xs)] *)
Definition enumerate {A : Type} (xs : list A) : list (Z * A) :=
  combine (map Z.of_nat (seq 0 (List.length xs))) xs.

(** The layout of the chart region of [shot3]. *)
Record chart : Set := Chart {
  margin : Z;
  chart_x : Z;
  chart_y : Z;
  chart_w : Z;
  chart_h : Z
}.

(** [shot3] up to "# Chart area": only the statements that move [y] or set
    a variable the chart uses are kept. *)
Definition shot3_layout (w : Z) : result (float * chart) :=
  s <- truediv w 1290 ;;
  margin <- S 80 s ;;
  y <- S 100 s ;;
  d <- S 95 s ;; let y := y + d in
  d <- S 100 s ;; let y := y + d in
  d <- S 80 s ;; let y := y + d in
  ph <- S 155 s ;;
  d <- S 30 s ;; let y := y + (ph + d) in
  seg_h <- S 52 s ;;
  d <- S 30 s ;; let y := y + (seg_h + d) in
  d <- S 60 s ;; let chart_x := margin + d in
  d <- S 80 s ;; let chart_w := w - margin * 2 - d in
  chart_h <- S 650 s ;;
  Ok (s, Chart margin chart_x y chart_w chart_h).

(** "# Grid lines", "# Y-axis labels" and "# X-axis". *)
Definition grid_and_axes (s : float) (c : chart) (cmds : list draw_cmd)
  : result (list draw_cmd) :=
  cmds <- for_each [0; 1; 2; 3; 4; 5]
    (fun i cmds =>
       let gy := chart_y c + i * (chart_h c / 5) in
       Ok (cmds ++ [DrawLine (chart_x c) gy (chart_x c + chart_w c) gy 1]))
    cmds ;;
  cmds <- for_each (enumerate ["10 kg"; "8 kg"; "6 kg"; "4 kg"; "2 kg"; "0"]%string)
    (fun '(i, yl) cmds =>
       d <- S 10 s ;;
       let ly := chart_y c + i * (chart_h c / 5) - d in
       Ok (cmds ++ [DrawText (margin c) ly yl]))
    cmds ;;
  cmds <- for_each (enumerate ["0"; "3"; "6"; "9"; "12"]%string)
    (fun '(i, xl) cmds =>
       let lx := chart_x c + i * (chart_w c / 4) in
       d5 <- S 5 s ;;
       d10 <- S 10 s ;;
       Ok (cmds ++ [DrawText (lx - d5) (chart_y c + chart_h c + d10) xl]))
    cmds ;;
  d60 <- S 60 s ;;
  d38 <- S 38 s ;;
  Ok (cmds ++ [DrawText (chart_x c + chart_w c / 2 - d60)
                        (chart_y c + chart_h c + d38) "Age (months)"]).

(** The tuples of the "# P97 / P50 / P3 dashed lines" loop, as written. *)
Definition percentile_rows : list (list pyval) :=
  [[PFloat 0.25; PStr "P97"]; [PFloat 0.5; PStr "P50"]; [PFloat 0.78; PStr "P3"]].

(** [for pct, pct_y_frac, label in percentile_rows: ...] *)
Definition percentile_lines (s : float) (c : chart) (cmds : list draw_cmd)
  : result (list draw_cmd) :=
  for_each percentile_rows
    (fun row cmds =>
       '(pct, pct_y_frac, label) <- unpack3 row ;;
       pct <- as_float pct ;;
       p <- fmuli pct (chart_h c) ;;
       d <- int_of_float p ;;
       let line_y := chart_y c + d in
       let cmds :=
         fold_left
           (fun cmds dx =>
              cmds ++ [DrawLine (chart_x c + dx) line_y (chart_x c + dx + 9) line_y 1])
           (range_step (chart_w c) 18) cmds in
       d8 <- S 8 s ;;
       d10 <- S 10 s ;;
       label <- as_str label ;;
       Ok (cmds ++ [DrawText (chart_x c + chart_w c + d8) (line_y - d10) label]))
    cmds.

Section GrowthCurve.

(** [math.exp], the C library's exponential. *)
Variable math_exp : float -> float.

(** One iteration of the "# Growth curve" loop: the point [(px, py)]. *)
Definition growth_point (c : chart) (i : Z) : result (Z * Z) :=
  t <- truediv i 29 ;;
  p <- fmuli t (chart_w c) ;;
  d <- int_of_float p ;;
  let px := chart_x c + d in
  let weight := (3.0 + 5.5 * (1 - math_exp (-2.5 * t)))%float in
  v <- fsubi weight 0 ;;
  q <- fdiv v 10.0 ;;
  r <- fmuli q (chart_h c) ;;
  d <- int_of_float r ;;
  let py := chart_y c + chart_h c - d in
  Ok (px, py).

(** [pts] after the loop [for i in range(30)]. *)
Definition growth_points (c : chart) : result (list (Z * Z)) :=
  for_each (map Z.of_nat (seq 0 30))
    (fun i pts => pt <- growth_point c i ;; Ok (pts ++ [pt]))
    [].

(** [pts[::k]] *)
Fixpoint every_nth {A : Type} (k skip : nat) (xs : list A) : list A :=
  match xs with
  | [] => []
  | x :: rest =>
      match skip with
      | O => x :: every_nth k (k - 1) rest
      | Datatypes.S skip' => every_nth k skip' rest
      end
  end.

Definition growth_curve (s : float) (c : chart) (cmds : list draw_cmd)
  : result (list draw_cmd) :=
  pts <- growth_points c ;;
  w5 <- S 5 s ;;
  let cmds :=
    fold_left
      (fun cmds '((ax, ay), (bx, by_)) => cmds ++ [DrawLine ax ay bx by_ w5])
      (combine pts (tl pts)) cmds in
  for_each (every_nth 6 0 pts)
    (fun '(px, py) cmds =>
       r9 <- S 9 s ;;
       r4 <- S 4 s ;;
       Ok (cmds ++ [DrawCircle px py r9; DrawCircle px py r4]))
    cmds.

(** The chart of [shot3], from "# Grid lines" to the end of
    "# Growth curve", on a canvas of width [w]. *)
Definition shot3_chart (w : Z) : result (list draw_cmd) :=
  '(s, c) <- shot3_layout w ;;
  cmds <- grid_and_axes s c [] ;;
  cmds <- percentile_lines s c cmds ;;
  growth_curve s c cmds.

End GrowthCurve.

(** *** The stacked bars of [shot4] *)

Section Bars.

Context {G : Type} `{Random G}.

(** [heights] of one day and the pixel height [sh = int(seg_h_val * s)] of
    each of its four segments. *)
Definition bar_segments (s : float) (st : list (list Z) * G)
  : result (list (list Z) * G) :=
  let '(bars, g) := st in
  let '(h1, g) := uniform 80 160 g in
  let '(h2, g) := uniform 25 70 g in
  let '(h3, g) := uniform 12 45 g in
  let '(h4, g) := uniform 8 30 g in
  segs <- for_each [h1; h2; h3; h4]
    (fun seg_h_val segs => sh <- int_of_float (seg_h_val * s)%float ;; Ok (segs ++ [sh]))
    [] ;;
  Ok (bars ++ [segs], g).

(** The "# Feeding bar chart" loop of [shot4] on a canvas of width [w], run
    with the global generator in state [g]. *)
Definition shot4_bars (w : Z) (g : G) : result (list (list Z) * G) :=
  s <- truediv w 1290 ;;
  let g := seed 42 in
  for_each [0; 1; 2; 3; 4; 5; 6] (fun _ st => bar_segments s st) ([], g).

End Bars.

End Screenshots.

Import PIL Marketing Screenshots.

(** ** Binary64 values as rationals

    The value of a float, and round-to-nearest-even as a function on the
    rationals, to state what the operations compute. *)

Local Open Scope Q_scope.

Definition bpow (e : Z) : Q := 2 ^ e.

(** [x] lies in [[m, m + 1)], at the place the location says. *)
Definition inbetween (m : Z) (l : location) (x : Q) : Prop :=
  match l with
  | loc_Exact => x == inject_Z m
  | loc_Inexact Lt => inject_Z m < x /\ x < inject_Z m + (1 # 2)
  | loc_Inexact Eq => x == inject_Z m + (1 # 2)
  | loc_Inexact Gt => inject_Z m + (1 # 2) < x /\ x < inject_Z m + 1
  end.

Definition inb (x : Q) (mrs : shr_record) : Prop :=
  (0 <= shr_m mrs)%Z /\ inbetween (shr_m mrs) (loc_of_shr_record mrs) x.

Definition RNE (x : Q) : Z :=
  let f := Qfloor x in
  match Qcompare (x - inject_Z f) (1 # 2) with
  | Lt => f
  | Eq => if Z.even f then f else (f + 1)%Z
  | Gt => (f + 1)%Z
  end.

Definition SF2Q (x : spec_float) : Q :=
  match x with
  | S754_finite s m e => inject_Z (cond_Zopp s (Zpos m)) * bpow e
  | _ => 0
  end.

Definition SFsign (x : spec_float) : bool :=
  match x with
  | S754_zero s | S754_infinity s | S754_finite s _ _ => s
  | S754_nan => false
  end.

Definition SFfinite (x : spec_float) : bool :=
  match x with
  | S754_zero _ | S754_finite _ _ _ => true
  | _ => false
  end.

(** The magnitude of a positive rational: [2^(mag - 1) <= x < 2^mag]. *)
Definition Qmag (x : Q) : Z :=
  let k := (Z.log2 (Qnum x) - Z.log2 (Zpos (Qden x)))%Z in
  if Qle_bool (bpow k) x then (k + 1)%Z else k.

(** The exponent of the binary64 grid around [x]. *)
Definition cexp (x : Q) : Z := fexp prec emax (Qmag x).

Definition RN_pos (x : Q) : Q := inject_Z (RNE (x / bpow (cexp x))) * bpow (cexp x).

(** [x] rounded to the nearest binary64 value, ties to even, as if the
    exponent range had no upper end. *)
Definition RN (x : Q) : Q :=
  match Qcompare x 0 with
  | Gt => RN_pos x
  | Lt => - RN_pos (- x)
  | Eq => 0
  end.

Definition sgn (s : bool) : Q := if s then -1 else 1.

(** [r] is what an operation with exact result [X] returns. *)
Definition rounds_to (r : spec_float) (X : Q) : Prop :=
  SpecFloat.valid_binary prec emax r = true /\ r <> S754_nan /\
  (SFfinite r = true -> SF2Q r == RN X) /\
  (Qabs (RN X) < bpow 1024 -> SFfinite r = true).

(** The value of a float ([0] for an infinity or a NaN). *)
Definition B2Q (x : float) : Q := SF2Q (Prim2SF x).

Definition finite (x : float) : Prop := SFfinite (Prim2SF x) = true.

(** A finite float of absolute value at most [2^k]. *)
Definition fbounded (k : Z) (x : float) : Prop := finite x /\ Qabs (B2Q x) <= bpow k.

(** Truncation toward zero. *)
Definition Qtrunc (q : Q) : Z := if Qle_bool 0 q then Qfloor q else Qceiling q.

(** The value of one channel of [lerp] at a fraction of value [q]: the
    product and the sum are rounded, the result is truncated. *)
Definition lerp_value (a b : Z) (q : Q) : Z :=
  Qtrunc (RN (inject_Z a + RN (inject_Z (b - a) * q))).

Definition lerp_color (c1 c2 : color) (q : Q) : color :=
  let '(r1, g1, b1) := c1 in
  let '(r2, g2, b2) := c2 in
  (lerp_value r1 r2 q, lerp_value g1 g2 q, lerp_value b1 b2 q).

(** The value of [smoothstep] at a float of value [q], and the value it
    takes when the increasing factor [t * t] is evaluated at [lo] and the
    decreasing factor [3 - 2 * t] at [hi]. *)
Definition smoothstep_value (q : Q) : Q := RN (RN (q * q) * RN (3 - RN (2 * q))).

Definition smoothstep_below (lo hi : Q) : Q := RN (RN (lo * lo) * RN (3 - RN (2 * hi))).

(** The value of the eased position of row [y] of [h]. *)
Definition eased (h y : Z) : Q := smoothstep_value (RN (inject_Z y / inject_Z h)).

(** From one row to the next the eased position does not decrease. *)
Definition steps_sorted (h : Z) : Prop :=
  forall y, (0 <= y)%Z -> (y + 1 < h)%Z -> eased h y <= eased h (y + 1).

(** A check of [steps_sorted] on primitive floats: [yf] counts the rows,
    [prev] is the eased position of the row before. *)
Fixpoint eased_sorted_from (hf yf prev : float) (n : nat) : bool :=
  match n with
  | O => true
  | Datatypes.S n' =>
      let te := smoothstep (yf / hf) in
      (prev <=? te)%float && eased_sorted_from hf (yf + 1) te n'
  end.

Definition eased_sorted (hf : float) (h : nat) : bool := eased_sorted_from hf 0 0 h.

(** The same check for the [n] heights from [h] on. *)
Fixpoint heights_sorted (hf : float) (h : nat) (n : nat) : bool :=
  match n with
  | O => true
  | Datatypes.S n' => eased_sorted hf h && heights_sorted (hf + 1) (Datatypes.S h) n'
  end.

(** The pieces [[j / 2^14, (j + 1) / 2^14]], [j = j0 .. j0 + n - 1], on which
    the eased position is enclosed between [L] and [U]. *)
Fixpoint pieces_within (L U : Q) (j : Z) (n : nat) : bool :=
  match n with
  | O => true
  | Datatypes.S n' =>
      let lo := j # 16384 in
      let hi := (j + 1) # 16384 in
      Qle_bool L (smoothstep_below lo hi) && Qle_bool (smoothstep_below hi lo) U
      && pieces_within L U (j + 1) n'
  end.

Definition channel_le (c c' : color) : Prop :=
  let '(r, g, b) := c in
  let '(r', g', b') := c' in
  (r <= r')%Z /\ (g <= g')%Z /\ (b <= b')%Z.

(** Every channel of [c] is within [k] of the same channel of [c']. *)
Definition near (k : Z) (c c' : color) : Prop :=
  let '(r, g, b) := c in
  let '(r', g', b') := c' in
  (Z.abs (r - r') <= k)%Z /\ (Z.abs (g - g') <= k)%Z /\ (Z.abs (b - b') <= k)%Z.

(** What the chart needs of [math.exp]: on [[-2.5, 0]] it returns a finite
    number of [[0, 1]]. *)
Definition exp_in_unit (exp : float -> float) : Prop :=
  forall x, finite x -> - (5 # 2) <= B2Q x <= 0 ->
    finite (exp x) /\ 0 <= B2Q (exp x) <= 1.

(** [int(t * chart_w)] for [t = i / 29], on the values. *)
Definition x_offset (W i : Z) : Z :=
  Qtrunc (RN (RN (inject_Z i / inject_Z 29) * RN (inject_Z W))).

(** A series for [exp] on arguments [x <= 0]: the reciprocal of
    [1 + u + u^2/2 + ... ] at [u = -x], [n] terms in Horner form. *)
Fixpoint exp_horner (u k : float) (n : nat) : float :=
  match n with
  | O => 1%float
  | Datatypes.S n' => (1 + u / k * exp_horner u (k + 1) n')%float
  end.

Definition exp_series (x : float) : float := (1 / exp_horner (- x) 1 16)%float.

(** [int(z * c)] on the values, for a float constant of value [c]. *)
Definition scaled (z : Z) (c : Q) : Z := Qtrunc (RN (inject_Z z * c)).

(** [v] lies between [a] and [b], whichever of the two is the larger. *)
Definition between (a b v : Z) : Prop := (Z.min a b <= v <= Z.max a b)%Z.

Definition color_between (c1 c2 c : color) : Prop :=
  let '(r1, g1, b1) := c1 in
  let '(r2, g2, b2) := c2 in
  let '(r, g, b) := c in
  between r1 r2 r /\ between g1 g2 g /\ between b1 b2 b.

(** What the scripts rely on of [random.randint(a, b)]: an integer of
    [[a, b]]. *)
Definition randint_in_range (G : Type) `{Random G} : Prop :=
  forall a b g, (a <= b)%Z -> (a <= fst (next_randint a b g) <= b)%Z.

(** A bubble whose centre is on a [cw] x [ch] canvas, in its upper half,
    with a radius of at most a quarter of the width and the opacity of the
    script. *)
Definition bubble_on_canvas (cw ch : Z) (b : bubble) : Prop :=
  (0 <= bub_x b <= cw)%Z /\ (0 <= bub_y b)%Z /\ (2 * bub_y b <= ch)%Z /\
  (0 <= bub_r b)%Z /\ (4 * bub_r b <= cw)%Z /\ (25 <= bub_opacity b <= 50)%Z.

(** ** Details of the device mockups ([generate_marketing_screenshots.py]) *)

Module Mockup.

Local Open Scope Z_scope.

(** [ImageDraw.ellipse(box)] wants an ordered box. *)
Definition check_ellipse (b : box) : result unit :=
  if (bx1 b <? bx0 b) || (by1 b <? by0 b) then Raise ValueError else Ok tt.

(** "Dynamic Island" of [build_iphone_frame]: the pill with its corner
    radius, the camera lens and the reflection on the lens. *)
Record island : Set := Island {
  pill : box;
  pill_radius : Z;
  lens : box;
  reflection : box
}.

Definition iphone_island (g : geometry) (frame_w : Z) : result island :=
  let ox := 4 in
  let oy := 4 in
  di_w <- int_imulf frame_w 0.23 ;;
  di_h <- int_imulf frame_w 0.052 ;;
  let di_r := di_h / 2 in
  let di_x := ox + (frame_w - di_w) / 2 in
  d <- int_imulf (inner_h g) 0.005 ;;
  let di_y := oy + bezel g + d + 2 in
  let pill := Box di_x di_y (di_x + di_w) (di_y + di_h) in
  check_rounded_rectangle pill di_r ;;;
  lens_r <- int_imulf di_h 0.22 ;;
  d <- int_imulf di_w 0.28 ;;
  let lens_x := di_x + di_w - d in
  let lens_y := di_y + di_h / 2 in
  let lens := Box (lens_x - lens_r) (lens_y - lens_r) (lens_x + lens_r) (lens_y + lens_r) in
  check_ellipse lens ;;;
  let refl_r := Z.max (lens_r / 3) 1 in
  let reflection :=
    Box (lens_x - refl_r + 1) (lens_y - refl_r - 1)
        (lens_x + refl_r + 1) (lens_y + refl_r - 1) in
  check_ellipse reflection ;;;
  Ok (Island pill di_r lens reflection).

(** "Side buttons" of [build_iphone_frame]. *)
Record buttons : Set := Buttons {
  power : box;
  volume_up : box;
  volume_down : box;
  action : box
}.

Definition iphone_buttons (frame_w frame_h : Z) : result buttons :=
  let ox := 4 in
  let oy := 4 in
  let btn_thickness := 4 in
  btn_h <- int_imulf frame_h 0.048 ;;
  btn_y <- int_imulf frame_h 0.23 ;;
  let power :=
    Box (ox + frame_w - 1) (oy + btn_y) (ox + frame_w + btn_thickness) (oy + btn_y + btn_h) in
  check_rounded_rectangle power 2 ;;;
  vol_h <- int_imulf frame_h 0.033 ;;
  vol_y1 <- int_imulf frame_h 0.19 ;;
  let volume_up := Box (ox - btn_thickness) (oy + vol_y1) (ox + 1) (oy + vol_y1 + vol_h) in
  check_rounded_rectangle volume_up 2 ;;;
  d <- int_imulf frame_h 0.012 ;;
  let vol_y2 := vol_y1 + vol_h + d in
  let volume_down := Box (ox - btn_thickness) (oy + vol_y2) (ox + 1) (oy + vol_y2 + vol_h) in
  check_rounded_rectangle volume_down 2 ;;;
  act_h <- int_imulf frame_h 0.018 ;;
  d <- int_imulf frame_h 0.03 ;;
  let act_y := vol_y1 - d in
  let action := Box (ox - btn_thickness) (oy + act_y) (ox + 1) (oy + act_y + act_h) in
  check_rounded_rectangle action 2 ;;;
  Ok (Buttons power volume_up volume_down action).

(** "Front camera" of [build_ipad_frame]: the box of the dot. *)
Definition ipad_camera (g : geometry) (frame_w : Z) : result box :=
  r <- int_imulf frame_w 0.004 ;;
  let cam_r := Z.max r 2 in
  let cam_x := frame_w / 2 in
  let cam_y := bezel g / 2 + 1 in
  let cam := Box (cam_x - cam_r) (cam_y - cam_r) (cam_x + cam_r) (cam_y + cam_r) in
  check_ellipse cam ;;;
  Ok cam.

End Mockup.

(** The file a job reads and the file it writes. *)
Definition job_src_path (j : job) : string :=
  path_join (job_input_dir j) (file (job_screen j)).

Definition job_out_path (j : job) : string :=
  path_join (job_output_dir j) (out (job_screen j)).

(** ** The banded backdrops ([generate_screenshots.py]) *)

Module Banded.

Local Open Scope Z_scope.

(** [ImageDraw.rectangle(box)] wants an ordered box. *)
Definition check_rectangle (b : box) : result unit :=
  if (bx1 b <? bx0 b) || (by1 b <? by0 b) then Raise ValueError else Ok tt.

(** One call [draw.rectangle([x0, sy, x1, ey], fill=c)]. *)
Record band : Set := Band { band_box : box; band_fill : color }.

(** [range(n)] *)
Definition range (n : Z) : list Z := map Z.of_nat (seq 0 (Z.to_nat n)).

(** [int(h * k / steps)] *)
Definition band_edge (h k steps : Z) : result Z :=
  q <- truediv (h * k) steps ;; int_of_float q.

(** The last three lines of both loops: [sy], [ey] and the rectangle of
    band [i], filled with [c]. *)
Definition draw_band (rect : box) (steps i : Z) (c : color) : result band :=
  let h := by1 rect - by0 rect in
  d <- band_edge h i steps ;;
  let sy := by0 rect + d in
  d <- band_edge h (i + 1) steps ;;
  let ey := by0 rect + d in
  let b := Box (bx0 rect) sy (bx1 rect) ey in
  check_rectangle b ;;;
  Ok (Band b c).

(** One iteration of [gradient]; the colour is the expression of [lerp],
    channel by channel. *)
Definition gradient_step (rect : box) (c1 c2 : color) (steps i : Z) : result band :=
  t <- truediv i steps ;;
  c <- lerp c1 c2 t ;;
  draw_band rect steps i c.

(** [gradient(draw, rect, c1, c2, steps)]: the rectangles it draws, in
    order. *)
Definition gradient (rect : box) (c1 c2 : color) (steps : Z) : result (list band) :=
  for_each (range steps)
    (fun i bands => b <- gradient_step rect c1 c2 steps i ;; Ok (bands ++ [b]))
    [].

(** The colour of a band of [gradient3] at [t]. *)
Definition gradient3_color (c1 c2 c3 : color) (t : float) : result color :=
  if (t <? 0.5)%float then
    t2 <- fmuli t 2 ;;
    lerp c1 c2 t2
  else
    t2 <- fmuli (t - 0.5)%float 2 ;;
    lerp c2 c3 t2.

Definition gradient3_step (rect : box) (c1 c2 c3 : color) (steps i : Z) : result band :=
  t <- truediv i steps ;;
  c <- gradient3_color c1 c2 c3 t ;;
  draw_band rect steps i c.

(** [gradient3(draw, rect, c1, c2, c3, steps)] *)
Definition gradient3 (rect : box) (c1 c2 c3 : color) (steps : Z) : result (list band) :=
  for_each (range steps)
    (fun i bands => b <- gradient3_step rect c1 c2 c3 steps i ;; Ok (bands ++ [b]))
    [].

(** [steps=300] *)
Definition default_steps : Z := 300.

End Banded.

(** [int(h * k / steps)] on the values. *)
Definition edge_value (h k steps : Z) : Z :=
  Qtrunc (RN (inject_Z (h * k) / inject_Z steps)).

(** The colour of a band of [gradient3] at a float of value [q], on the
    values. *)
Definition gradient3_value (c1 c2 c3 : color) (q : Q) : color :=
  if Qlt_le_dec q (1 # 2) then lerp_color c1 c2 (RN (q * 2))
  else lerp_color c2 c3 (RN (RN (q - (1 # 2)) * 2)).

(** ** The activity list of [shot1] and [shot2] ([generate_screenshots.py]) *)

Module Activity.

Local Open Scope Z_scope.

(** [rrect(draw, rect, r, ...)]: the rectangle handed to
    [draw.rounded_rectangle]. *)
Definition rrect (rect : box) (r : Z) : result box :=
  check_rounded_rectangle rect r ;;; Ok rect.

(** [circ(draw, cx, cy, r, fill)]: the box handed to [draw.ellipse]. *)
Definition circ (cx cy r : Z) : result box :=
  let b := Box (cx - r) (cy - r) (cx + r) (cy + r) in
  Mockup.check_ellipse b ;;; Ok b.

(** What [draw_activity_row] draws: the card, the two dots, the anchors of
    the two texts and, for the right-aligned time, its right end. *)
Record activity_row : Set := ActivityRow {
  row_card : box;
  row_dot : box;
  row_dot_inner : box;
  row_name_at : Z * Z;
  row_detail_at : Z * Z;
  row_time_right : Z * Z
}.

(** [row_h or S(100, s)]: [None] and [0] both give the default. *)
Definition row_height (row_h : option Z) (s : float) : result Z :=
  match row_h with
  | Some v => if v =? 0 then S 100 s else Ok v
  | None => S 100 s
  end.

(** [draw_activity_row(draw, margin, w, s, y, ..., row_h)]: the row and the
    height [rh] it returns. *)
Definition draw_activity_row (margin w : Z) (s : float) (y : Z) (row_h : option Z)
  : result (activity_row * Z) :=
  rh <- row_height row_h s ;;
  d8 <- S 8 s ;;
  d16 <- S 16 s ;;
  card <- rrect (Box margin y (w - margin) (y + rh - d8)) d16 ;;
  d45 <- S 45 s ;;
  d4 <- S 4 s ;;
  d20 <- S 20 s ;;
  dot <- circ (margin + d45) (y + rh / 2 - d4) d20 ;;
  d45 <- S 45 s ;;
  d4 <- S 4 s ;;
  d11 <- S 11 s ;;
  inner <- circ (margin + d45) (y + rh / 2 - d4) d11 ;;
  d82 <- S 82 s ;;
  d18 <- S 18 s ;;
  S 28 s ;;;
  let name_at := (margin + d82, y + d18) in
  d82 <- S 82 s ;;
  d52 <- S 52 s ;;
  S 22 s ;;;
  let detail_at := (margin + d82, y + d52) in
  d20 <- S 20 s ;;
  d32 <- S 32 s ;;
  S 22 s ;;;
  let time_right := (w - margin - d20, y + d32) in
  Ok (ActivityRow card dot inner name_at detail_at time_right, rh).

(** The loop [for name, detail, time, col in acts] of [shot1] and [shot2]:
    the rows drawn and the final [y]. *)
Fixpoint activity_list {A : Type} (margin w h : Z) (s : float) (acts : list A) (y : Z)
    (rows : list activity_row) : result (list activity_row * Z) :=
  match acts with
  | [] => Ok (rows, y)
  | _ :: rest =>
      d95 <- S 95 s ;;
      d20 <- S 20 s ;;
      if y + d95 >? h - d20 then Ok (rows, y)
      else
        row_h <- S 95 s ;;
        '(row, rh) <- draw_activity_row margin w s y (Some row_h) ;;
        activity_list margin w h s rest (y + rh) (rows ++ [row])
  end.

End Activity.

(** ** The summary cards of [shot1] and [shot2] ([generate_screenshots.py]) *)

Module Summary.

Import Activity.

Local Open Scope Z_scope.

(** What [draw_summary_cards] draws for one item: the card, the two dots
    and the rows of the two centred texts (their columns depend on the
    font). *)
Record summary_card : Set := SummaryCard {
  card_box : box;
  card_dot : box;
  card_dot_inner : box;
  card_value_y : Z;
  card_label_y : Z
}.

(** The body of the loop [for j, (val, label, col) in enumerate(items)]. *)
Definition draw_summary_card (margin : Z) (s : float) (y ch cw j : Z) : result summary_card :=
  d20 <- S 20 s ;;
  let cx := margin + j * (cw + d20) in
  d24 <- S 24 s ;;
  card <- rrect (Box cx y (cx + cw) (y + ch)) d24 ;;
  d55 <- S 55 s ;;
  d30 <- S 30 s ;;
  dot <- circ (cx + cw / 2) (y + d55) d30 ;;
  d55 <- S 55 s ;;
  d18 <- S 18 s ;;
  inner <- circ (cx + cw / 2) (y + d55) d18 ;;
  S 46 s ;;;
  d105 <- S 105 s ;;
  S 22 s ;;;
  d160 <- S 160 s ;;
  Ok (SummaryCard card dot inner (y + d105) (y + d160)).

(** [draw_summary_cards(draw, margin, w, s, y, items, card_h)]: the cards
    and the height [ch] it returns. *)
Definition draw_summary_cards {A : Type} (margin w : Z) (s : float) (y : Z) (items : list A)
    (card_h : option Z) : result (list summary_card * Z) :=
  ch <- match card_h with
        | Some v => if v =? 0 then S 210 s else Ok v
        | None => S 210 s
        end ;;
  d40 <- S 40 s ;;
  let cw := (w - margin * 2 - d40) / 3 in
  cards <- for_each (enumerate items)
    (fun '(j, _) cards => c <- draw_summary_card margin s y ch cw j ;; Ok (cards ++ [c]))
    [] ;;
  Ok (cards, ch).

End Summary.

Local Close Scope Q_scope.

(** * Properties *)

(** ** Binary64 rounding *)

Local Open Scope Q_scope.

(** *** Powers of two *)

Lemma bpow_pos e : 0 < bpow e.
Proof. apply Qpower_0_lt. reflexivity. Qed.

Lemma bpow_add a b : bpow (a + b) == bpow a * bpow b.
Proof. apply Qpower_plus. discriminate. Qed.

Lemma bpow_0 : bpow 0 == 1.
Proof. reflexivity. Qed.

Lemma bpow_1 : bpow 1 == 2.
Proof. reflexivity. Qed.

Lemma bpow_opp e : bpow (- e) == / bpow e.
Proof. apply Qpower_opp. Qed.

Lemma bpow_sub a b : bpow (a - b) == bpow a / bpow b.
Proof.
  unfold Z.sub. rewrite bpow_add, bpow_opp. reflexivity.
Qed.

Lemma bpow_Z e : (0 <= e)%Z -> bpow e == inject_Z (2 ^ e).
Proof. intros He. unfold bpow. rewrite Zpower_Qpower by exact He. reflexivity. Qed.

Lemma bpow_le a b : (a <= b)%Z -> bpow a <= bpow b.
Proof.
  intros Hab. replace b with (a + (b - a))%Z by lia.
  rewrite bpow_add. rewrite (bpow_Z (b - a)) by lia.
  assert (1 <= inject_Z (2 ^ (b - a))).
  { change 1 with (inject_Z 1). rewrite <- Zle_Qle.
    pose proof (Z.pow_pos_nonneg 2 (b - a)). lia. }
  pose proof (bpow_pos a).
  generalize dependent (inject_Z (2 ^ (b - a))). generalize dependent (bpow a).
  intros; nra.
Qed.

Lemma bpow_lt a b : (a < b)%Z -> bpow a < bpow b.
Proof.
  intros Hab. replace b with (a + (b - a))%Z by lia.
  rewrite bpow_add. rewrite (bpow_Z (b - a)) by lia.
  assert (2 <= inject_Z (2 ^ (b - a))).
  { change 2 with (inject_Z 2). rewrite <- Zle_Qle.
    replace (b - a)%Z with (1 + (b - a - 1))%Z by lia.
    rewrite Z.pow_add_r by lia.
    pose proof (Z.pow_pos_nonneg 2 (b - a - 1)). lia. }
  pose proof (bpow_pos a).
  generalize dependent (inject_Z (2 ^ (b - a))). generalize dependent (bpow a).
  intros; nra.
Qed.

Lemma bpow_lt_inv a b : bpow a < bpow b -> (a < b)%Z.
Proof.
  intros H. destruct (Z_lt_le_dec a b) as [Hlt|Hle]; [exact Hlt|].
  apply bpow_le in Hle. lra.
Qed.

Lemma bpow_le_inv a b : bpow a <= bpow b -> (a <= b)%Z.
Proof.
  intros H. destruct (Z_le_gt_dec a b) as [Hle|Hgt]; [exact Hle|].
  assert (b < a)%Z as Hlt by lia. apply bpow_lt in Hlt. lra.
Qed.

Lemma Qdiv_lt_inv a b c : 0 < b -> a / b < c -> a < c * b.
Proof.
  intros Hb H. assert (a == a / b * b) as E by (field; lra).
  rewrite E. apply Qmult_lt_compat_r; assumption.
Qed.

Lemma Qdiv_le_inv a b c : 0 < b -> c <= a / b -> c * b <= a.
Proof.
  intros Hb H. assert (a == a / b * b) as E by (field; lra).
  rewrite E. apply Qmult_le_compat_r; [assumption|lra].
Qed.

(** *** Binary digits *)

Lemma digits2_size p : digits2_pos p = Pos.size p.
Proof. induction p; simpl; congruence. Qed.

Lemma digits2_bounds p :
  (2 ^ (Zpos (digits2_pos p) - 1) <= Zpos p < 2 ^ Zpos (digits2_pos p))%Z.
Proof.
  rewrite digits2_size. split.
  - pose proof (Pos.size_le p) as H.
    assert (2 ^ Zpos (Pos.size p) <= 2 * Zpos p)%Z as H2.
    { rewrite <- Pos2Z.inj_pow. change (2 * Zpos p)%Z with (Zpos p~0). 
      apply Pos2Z.pos_le_pos. exact H. }
    replace (Zpos (Pos.size p)) with (1 + (Zpos (Pos.size p) - 1))%Z in H2 by lia.
    rewrite Z.pow_add_r in H2 by lia. change (2 ^ 1)%Z with 2%Z in H2. lia.
  - pose proof (Pos.size_gt p) as H.
    rewrite <- Pos2Z.inj_pow. apply Pos2Z.pos_lt_pos. exact H.
Qed.

Lemma digits2_unique p d :
  (2 ^ (d - 1) <= Zpos p < 2 ^ d)%Z -> Zpos (digits2_pos p) = d.
Proof.
  intros [Hlo Hhi]. pose proof (digits2_bounds p) as [Hlo' Hhi'].
  assert (0 < d)%Z as Hd.
  { destruct (Z_lt_le_dec 0 d); [assumption|].
    assert (2 ^ d <= 1)%Z.
    { destruct (Z.eq_dec d 0) as [->|]; [simpl; lia|].
      rewrite Z.pow_neg_r by lia. lia. }
    lia. }
  destruct (Z.lt_trichotomy (Zpos (digits2_pos p)) d) as [Hlt|[Heq|Hgt]].
  - assert (2 ^ Zpos (digits2_pos p) <= 2 ^ (d - 1))%Z
      by (apply Z.pow_le_mono_r; lia). lia.
  - exact Heq.
  - assert (2 ^ d <= 2 ^ (Zpos (digits2_pos p) - 1))%Z
      by (apply Z.pow_le_mono_r; lia). lia.
Qed.

(** *** Locations and right shifts *)

Lemma inbetween_compat m l x y : x == y -> inbetween m l x -> inbetween m l y.
Proof.
  intros Hxy. destruct l as [|[| |]]; simpl; rewrite Hxy; trivial.
Qed.

Lemma inbetween_bounds m l x : inbetween m l x -> inject_Z m <= x /\ x < inject_Z m + 1.
Proof. destruct l as [|[| |]]; simpl; intros H; lra. Qed.

Lemma inject_Z_xO p : inject_Z (Zpos p~0) == 2 * inject_Z (Zpos p).
Proof. rewrite Pos2Z.inj_xO, inject_Z_mult. reflexivity. Qed.

Lemma inject_Z_xI p : inject_Z (Zpos p~1) == 2 * inject_Z (Zpos p) + 1.
Proof. rewrite Pos2Z.inj_xI, inject_Z_plus, inject_Z_mult. reflexivity. Qed.

Lemma shr_1_inb x mrs : inb x mrs -> inb (x * (1 # 2)) (shr_1 mrs).
Proof.
  destruct mrs as [m r s]. unfold inb. simpl. intros [Hm Hx].
  destruct m as [|p|p]; [| |lia].
  - destruct r, s; simpl in *; split; try lia;
      change (inject_Z 0) with 0 in *; lra.
  - destruct p as [p|p|]; [pose proof (inject_Z_xI p)|pose proof (inject_Z_xO p)|];
      destruct r, s; simpl in *; split; try lia;
      change (inject_Z 0) with 0 in *; change (inject_Z 1) with 1 in *; lra.
Qed.

Lemma iter_pos_shr_1 n : forall x mrs,
  inb x mrs -> inb (x / bpow (Zpos n)) (iter_pos shr_1 n mrs).
Proof.
  assert (Hc : forall x y mrs, x == y -> inb x mrs -> inb y mrs).
  { intros x y mrs Hxy [H1 H2]. split; [exact H1|].
    eapply inbetween_compat; eassumption. }
  induction n as [n IH|n IH|]; intros x mrs H; cbn [iter_pos].
  - apply shr_1_inb in H. apply IH in H. apply IH in H.
    eapply Hc; [|exact H].
    rewrite Pos2Z.inj_xI. rewrite bpow_add.
    replace (2 * Zpos n)%Z with (Zpos n + Zpos n)%Z by lia.
    rewrite bpow_add, bpow_1.
    pose proof (bpow_pos (Zpos n)). field. lra.
  - apply IH in H. apply IH in H.
    eapply Hc; [|exact H].
    rewrite Pos2Z.inj_xO.
    replace (2 * Zpos n)%Z with (Zpos n + Zpos n)%Z by lia.
    rewrite bpow_add.
    pose proof (bpow_pos (Zpos n)). field. lra.
  - apply shr_1_inb in H. eapply Hc; [|exact H].
    change (bpow 1) with 2. field.
Qed.

Lemma shr_inb x mrs e n :
  (0 <= n)%Z -> inb x mrs ->
  snd (shr mrs e n) = (e + n)%Z /\ inb (x / bpow n) (fst (shr mrs e n)).
Proof.
  intros Hn H. destruct n as [|p|p]; [| |lia]; simpl.
  - split; [lia|]. destruct H as [H1 H2]. split; [exact H1|].
    eapply inbetween_compat; [|exact H2]. change (bpow 0) with 1. field.
  - split; [reflexivity|]. apply iter_pos_shr_1. exact H.
Qed.

Lemma shr_record_of_loc_inb m l x :
  (0 <= m)%Z -> inbetween m l x -> inb x (shr_record_of_loc m l).
Proof.
  intros Hm H. destruct l as [|[| |]]; split; simpl; assumption.
Qed.

(** *** Rounding a rational to the nearest integer, ties to even *)

Lemma Qfloor_unique x z : inject_Z z <= x -> x < inject_Z z + 1 -> Qfloor x = z.
Proof.
  intros Hlo Hhi.
  pose proof (Qfloor_le x) as H1. pose proof (Qlt_floor x) as H2.
  rewrite inject_Z_plus in H2. change (inject_Z 1) with 1 in H2.
  assert (inject_Z (Qfloor x) < inject_Z (z + 1)) as H3
    by (rewrite inject_Z_plus; change (inject_Z 1) with 1; lra).
  assert (inject_Z z < inject_Z (Qfloor x + 1)) as H4
    by (rewrite inject_Z_plus; change (inject_Z 1) with 1; lra).
  rewrite <- Zlt_Qlt in H3, H4. lia.
Qed.

Lemma RNE_compat x y : x == y -> RNE x = RNE y.
Proof.
  intros Hxy. unfold RNE. rewrite (Qfloor_comp _ _ Hxy).
  assert (x - inject_Z (Qfloor y) == y - inject_Z (Qfloor y)) as H by (rewrite Hxy; reflexivity).
  rewrite (Qcompare_comp _ _ H _ _ (Qeq_refl _)). reflexivity.
Qed.

#[global] Instance RNE_proper : Proper (Qeq ==> eq) RNE.
Proof. intros x y H. apply RNE_compat. exact H. Qed.

Lemma RNE_Z z : RNE (inject_Z z) = z.
Proof.
  unfold RNE. rewrite Qfloor_Z.
  assert (inject_Z z - inject_Z z < 1 # 2) as H by lra.
  rewrite Qlt_alt in H. rewrite H. reflexivity.
Qed.

Lemma RNE_inbetween m l x : inbetween m l x -> round_nearest_even m l = RNE x.
Proof.
  intros H. pose proof (inbetween_bounds _ _ _ H) as [Hlo Hhi].
  unfold RNE. rewrite (Qfloor_unique x m Hlo Hhi).
  destruct l as [|[| |]]; simpl in *.
  - assert (x - inject_Z m < 1 # 2) as Hc by lra. rewrite Qlt_alt in Hc. rewrite Hc. reflexivity.
  - assert (x - inject_Z m == 1 # 2) as Hc by lra. rewrite Qeq_alt in Hc. rewrite Hc. reflexivity.
  - assert (x - inject_Z m < 1 # 2) as Hc by lra. rewrite Qlt_alt in Hc. rewrite Hc. reflexivity.
  - assert (1 # 2 < x - inject_Z m) as Hc by lra. rewrite Qgt_alt in Hc. rewrite Hc. reflexivity.
Qed.

Lemma RNE_bounds x : inject_Z (Qfloor x) <= inject_Z (RNE x) <= inject_Z (Qfloor x) + 1.
Proof.
  unfold RNE.
  destruct (Qcompare (x - inject_Z (Qfloor x)) (1 # 2)); [destruct (Z.even (Qfloor x))| |];
    rewrite ?inject_Z_plus; change (inject_Z 1) with 1; lra.
Qed.

Lemma RNE_error x : Qabs (inject_Z (RNE x) - x) <= 1 # 2.
Proof.
  pose proof (Qfloor_le x) as H1. pose proof (Qlt_floor x) as H2.
  rewrite inject_Z_plus in H2. change (inject_Z 1) with 1 in H2.
  apply Qabs_case; intros _; unfold RNE;
    destruct (Qcompare_spec (x - inject_Z (Qfloor x)) (1 # 2)) as [Hc|Hc|Hc];
    try destruct (Z.even (Qfloor x));
    rewrite ?inject_Z_plus; change (inject_Z 1) with 1; lra.
Qed.

Lemma RNE_mono x y : x <= y -> (RNE x <= RNE y)%Z.
Proof.
  intros Hxy. pose proof (Qfloor_resp_le _ _ Hxy) as Hf.
  pose proof (RNE_bounds x) as [_ Hx]. pose proof (RNE_bounds y) as [Hy _].
  destruct (Z.eq_dec (Qfloor x) (Qfloor y)) as [Heq|Hne].
  - unfold RNE. rewrite Heq.
    destruct (Qcompare_spec (x - inject_Z (Qfloor y)) (1 # 2)) as [Hcx|Hcx|Hcx];
      destruct (Qcompare_spec (y - inject_Z (Qfloor y)) (1 # 2)) as [Hcy|Hcy|Hcy];
      try destruct (Z.even (Qfloor y)); try lia; exfalso; lra.
  - assert (Qfloor x + 1 <= Qfloor y)%Z as Hlt by lia.
    rewrite Zle_Qle in Hlt |- *. rewrite inject_Z_plus in Hlt.
    change (inject_Z 1) with 1 in Hlt. lra.
Qed.

Lemma RNE_nonneg x : 0 <= x -> (0 <= RNE x)%Z.
Proof. intros H. rewrite <- (RNE_Z 0). apply RNE_mono. exact H. Qed.

(** *** The rounding step of every operation *)

Lemma fexp_spec e : fexp prec emax e = Z.max (e - 53) (-1074).
Proof. reflexivity. Qed.

Lemma Zdigits2_pos p : Zdigits2 (Zpos p) = Zpos (digits2_pos p).
Proof. reflexivity. Qed.

Lemma Zdigits2_unique k d : (2 ^ (d - 1) <= k < 2 ^ d)%Z -> (0 < k)%Z -> Zdigits2 k = d.
Proof.
  intros H Hk. destruct k as [|p|p]; try lia. apply digits2_unique. exact H.
Qed.

(** The second normalisation: the rounded mantissa [k] at exponent [c] is
    already in place, unless it is [2^53]. *)
Lemma shr_fexp_rounded k c :
  (-1074 <= c)%Z ->
  (0 <= k <= 2 ^ 53)%Z ->
  (c = -1074 \/ 2 ^ 52 <= k)%Z ->
  let r := shr_fexp prec emax k c loc_Exact in
  (0 <= shr_m (fst r))%Z /\
  inject_Z (shr_m (fst r)) * bpow (snd r) == inject_Z k * bpow c /\
  (shr_m (fst r) = 0 <-> k = 0)%Z /\
  ((0 < k)%Z -> fexp prec emax (Zdigits2 (shr_m (fst r)) + snd r) = snd r) /\
  ((0 < k)%Z -> (-1074 < snd r)%Z -> (2 ^ 52 <= shr_m (fst r))%Z).
Proof.
  intros Hc Hk Hn r. subst r. unfold shr_fexp. rewrite fexp_spec.
  destruct (Z.eq_dec k 0) as [->|Hk0].
  { cbn [Zdigits2]. replace (Z.max (0 + c - 53) (-1074) - c)%Z with (-1074 - c)%Z by lia.
    assert (shr (shr_record_of_loc 0 loc_Exact) c (-1074 - c) = (shr_record_of_loc 0 loc_Exact, c)) as ->.
    { destruct (-1074 - c)%Z eqn:E; try reflexivity. lia. }
    cbn [fst snd shr_record_of_loc shr_m]. repeat split; try lia; try reflexivity. }
  destruct (Z.eq_dec k (2 ^ 53)) as [->|Hk53].
  { change (Zdigits2 (2 ^ 53)) with 54%Z.
    replace (Z.max (54 + c - 53) (-1074) - c)%Z with 1%Z by lia.
    cbn [shr shr_record_of_loc fst snd iter_pos shr_1 shr_m].
    change (2 ^ 53)%Z with 9007199254740992%Z.
    cbn [shr shr_record_of_loc fst snd iter_pos shr_1 shr_m].
    split; [lia|]. split.
    { rewrite bpow_add. change (bpow 1) with 2.
      change (inject_Z 9007199254740992) with (2 * inject_Z 4503599627370496). ring. }
    split; [lia|]. split.
    { intros _. change (Zdigits2 4503599627370496) with 53%Z. rewrite fexp_spec. lia. }
    { intros _ _. lia. } }
  assert (Zdigits2 k <= 53)%Z as Hd.
  { destruct k as [|p|p]; try lia. rewrite Zdigits2_pos.
    pose proof (digits2_bounds p) as [Hlo _].
    destruct (Z_le_gt_dec (Zpos (digits2_pos p)) 53) as [|Hgt]; [assumption|].
    assert (2 ^ 53 <= 2 ^ (Zpos (digits2_pos p) - 1))%Z by (apply Z.pow_le_mono_r; lia).
    lia. }
  assert (Z.max (Zdigits2 k + c - 53) (-1074) = c) as Hfe.
  { destruct Hn as [->|Hk52].
    - lia.
    - assert (Zdigits2 k = 53)%Z as -> by (apply Zdigits2_unique; simpl; lia). lia. }
  rewrite Hfe. rewrite Z.sub_diag.
  cbn [shr fst snd]. destruct k as [|p|p]; try lia.
  cbn [shr_record_of_loc shr_m]. split; [lia|]. split; [reflexivity|].
  split; [lia|]. split.
  - intros _. rewrite fexp_spec. exact Hfe.
  - intros _ Hc'. destruct Hn as [->|Hk52]; [lia|exact Hk52].
Qed.

(** What [binary_round_aux] returns for a positive value [X] given by a
    truncated mantissa, an exponent and a location. *)
Lemma binary_round_aux_spec s m e l X :
  (0 <= m)%Z -> inbetween m l (X / bpow e) ->
  let c := fexp prec emax (Zdigits2 m + e) in
  (e <= c)%Z ->
  (0 < m \/ c = -1074)%Z ->
  let k := RNE (X / bpow c) in
  let r := binary_round_aux prec emax s m e l in
  SFsign r = s /\ SpecFloat.valid_binary prec emax r = true /\
  match r with
  | S754_zero _ => k = 0%Z
  | S754_finite _ m' e' =>
      (0 < k)%Z /\ inject_Z (Zpos m') * bpow e' == inject_Z k * bpow c
  | S754_infinity _ => bpow 1024 <= inject_Z k * bpow c
  | S754_nan => False
  end.
Proof.
  intros Hm Hin c Hec Hmc k r.
  assert (-1074 <= c)%Z as Hcmin by (subst c; rewrite fexp_spec; lia).
  (* first shift *)
  assert (Hs1 : snd (shr_fexp prec emax m e l) = c /\
                inb (X / bpow c) (fst (shr_fexp prec emax m e l))).
  { unfold shr_fexp. fold c.
    destruct (shr_inb (X / bpow e) (shr_record_of_loc m l) e (c - e)) as [H1 H2].
    - lia.
    - apply shr_record_of_loc_inb; assumption.
    - split; [rewrite H1; lia|].
      destruct H2 as [H2 H3]. split; [exact H2|].
      eapply inbetween_compat; [|exact H3].
      rewrite bpow_sub. pose proof (bpow_pos e). pose proof (bpow_pos c). field. lra. }
  destruct Hs1 as [He1 [Hm1 Hin1]].
  assert (Hk : round_nearest_even (shr_m (fst (shr_fexp prec emax m e l)))
                 (loc_of_shr_record (fst (shr_fexp prec emax m e l))) = k).
  { apply RNE_inbetween. exact Hin1. }
  (* bounds on the rounded mantissa *)
  assert (Hkb : (0 <= k <= 2 ^ 53)%Z /\ (c = -1074 \/ 2 ^ 52 <= k)%Z).
  { pose proof (inbetween_bounds _ _ _ Hin) as [Hlo Hhi].
    assert (HXc : X / bpow c == (X / bpow e) * bpow (e - c)).
    { rewrite bpow_sub. pose proof (bpow_pos e). pose proof (bpow_pos c). field. lra. }
    pose proof (bpow_pos (e - c)) as Hp.
    destruct m as [|p|p]; [| |lia].
    - (* tiny value *)
      destruct Hmc as [Hmc|Hmc]; [lia|].
      change (inject_Z 0) with 0 in *.
      assert (X / bpow c < 1) as Hlt1.
      { rewrite HXc. assert (bpow (e - c) <= bpow 0) by (apply bpow_le; lia).
        change (bpow 0) with 1 in *. nra. }
      assert (0 <= X / bpow c) as Hge0 by (rewrite HXc; nra).
      subst k. split; [|left; exact Hmc]. split.
      + apply RNE_nonneg. exact Hge0.
      + assert (RNE (X / bpow c) <= RNE 1)%Z by (apply RNE_mono; lra).
        change 1 with (inject_Z 1) in H. rewrite RNE_Z in H. lia.
    - pose proof (digits2_bounds p) as [Hdlo Hdhi].
      set (d := Zpos (digits2_pos p)) in *.
      assert (c = Z.max (d + e - 53) (-1074)) as Hcdef by (subst c; rewrite fexp_spec; reflexivity).
      assert (X / bpow e < bpow d) as Hup.
      { rewrite (bpow_Z d) by lia.
        assert (inject_Z (Zpos p) + 1 <= inject_Z (2 ^ d)).
        { change 1 with (inject_Z 1). rewrite <- inject_Z_plus. rewrite <- Zle_Qle. lia. }
        lra. }
      assert (bpow (d - 1) <= X / bpow e) as Hdn.
      { rewrite (bpow_Z (d - 1)) by lia. rewrite Zle_Qle in Hdlo. lra. }
      assert (X / bpow c <= bpow 53) as Hup'.
      { rewrite HXc. assert (bpow d * bpow (e - c) <= bpow 53).
        { rewrite <- bpow_add. apply bpow_le. lia. }
        pose proof (bpow_pos d). nra. }
      assert (0 <= X / bpow c) as Hge0.
      { rewrite HXc. pose proof (bpow_pos (d - 1)). nra. }
      subst k. split; [split|].
      + apply RNE_nonneg. exact Hge0.
      + rewrite (bpow_Z 53) in Hup' by lia.
        apply RNE_mono in Hup'. rewrite RNE_Z in Hup'. exact Hup'.
      + destruct (Z_le_gt_dec (-1074) (d + e - 53)) as [Hn|Hn]; [right|left; lia].
        assert (bpow 52 <= X / bpow c) as Hlow.
        { rewrite HXc. assert (bpow 52 <= bpow (d - 1) * bpow (e - c)).
          { rewrite <- bpow_add. apply bpow_le. lia. }
          pose proof (bpow_pos (d - 1)). nra. }
        rewrite (bpow_Z 52) in Hlow by lia.
        apply RNE_mono in Hlow. rewrite RNE_Z in Hlow. exact Hlow. }
  destruct Hkb as [Hk01 Hk52].
  pose proof (shr_fexp_rounded k c Hcmin Hk01 Hk52) as (Hr0 & Hrv & Hrz & Hrc & Hrn).
  subst r. unfold binary_round_aux.
  destruct (shr_fexp prec emax m e l) as [mrs' e'] eqn:E1.
  cbn [fst snd] in He1, Hk. subst e'. rewrite Hk.
  destruct (shr_fexp prec emax k c loc_Exact) as [mrs'' e''] eqn:E2.
  cbn [fst snd] in *.
  destruct (shr_m mrs'') as [|m''|m''] eqn:E3; [| |lia].
  - cbn. split; [reflexivity|]. split; [reflexivity|]. apply Hrz. reflexivity.
  - assert (0 < k)%Z as Hkpos.
    { destruct (Z.eq_dec k 0) as [Hz|Hz]; [|lia]. apply Hrz in Hz. discriminate Hz. }
    specialize (Hrc Hkpos). specialize (Hrn Hkpos).
    destruct (Z.leb_spec e'' (emax - prec)) as [Hle|Hgt].
    + cbn [SFsign SpecFloat.valid_binary bounded canonical_mantissa].
      split; [reflexivity|]. split.
      * unfold bounded, canonical_mantissa.
        rewrite Zdigits2_pos in Hrc. rewrite Hrc. rewrite Z.eqb_refl.
        apply Z.leb_le in Hle. rewrite Hle. reflexivity.
      * split; [exact Hkpos|exact Hrv].
    + cbn [SFsign SpecFloat.valid_binary]. split; [reflexivity|]. split; [reflexivity|].
      rewrite <- Hrv. change (emax - prec)%Z with 971%Z in Hgt.
      assert (2 ^ 52 <= Zpos m'')%Z as Hm52 by (apply Hrn; lia).
      rewrite Zle_Qle in Hm52. rewrite <- (bpow_Z 52) in Hm52 by lia.
      assert (bpow 972 <= bpow e'') by (apply bpow_le; lia).
      assert (bpow 1024 == bpow 52 * bpow 972) as -> by (rewrite <- bpow_add; reflexivity).
      pose proof (bpow_pos 52). pose proof (bpow_pos 972).
      apply Qmult_le_compat_nonneg; split; lra.
Qed.

(** *** Round to nearest even on the rationals *)

Lemma Qmag_spec x : 0 < x -> bpow (Qmag x - 1) <= x /\ x < bpow (Qmag x).
Proof.
  intros Hx. destruct x as [n d]. unfold Qmag. cbn [Qnum Qden].
  assert (0 < n)%Z as Hn by (unfold Qlt in Hx; simpl in Hx; lia).
  pose proof (Z.log2_spec n Hn) as [Hn1 Hn2].
  pose proof (Z.log2_spec (Zpos d) (Pos2Z.is_pos d)) as [Hd1 Hd2].
  pose proof (Z.log2_nonneg n) as Hln. pose proof (Z.log2_nonneg (Zpos d)) as Hld.
  set (a := Z.log2 n) in *. set (b := Z.log2 (Zpos d)) in *.
  assert (Hq : n # d == inject_Z n / inject_Z (Zpos d)) by apply Qmake_Qdiv.
  assert (0 < inject_Z (Zpos d)) as Hdpos by (change 0 with (inject_Z 0); rewrite <- Zlt_Qlt; lia).
  rewrite Zle_Qle, <- (bpow_Z a) in Hn1 by lia.
  rewrite Zlt_Qlt, <- (bpow_Z (Z.succ a)) in Hn2 by lia.
  rewrite Zle_Qle, <- (bpow_Z b) in Hd1 by lia.
  rewrite Zlt_Qlt, <- (bpow_Z (Z.succ b)) in Hd2 by lia.
  assert (Hlo : bpow (a - b - 1) < n # d).
  { rewrite Hq. apply Qlt_shift_div_l; [exact Hdpos|].
    assert (bpow (a - b - 1) * bpow (Z.succ b) == bpow a) as E
      by (rewrite <- bpow_add; replace (a - b - 1 + Z.succ b)%Z with a by lia; reflexivity).
    pose proof (bpow_pos (a - b - 1)). nra. }
  assert (Hhi : n # d < bpow (a - b + 1)).
  { rewrite Hq. apply Qlt_shift_div_r; [exact Hdpos|].
    assert (bpow (a - b + 1) * bpow b == bpow (Z.succ a)) as E
      by (rewrite <- bpow_add; replace (a - b + 1 + b)%Z with (Z.succ a) by lia; reflexivity).
    pose proof (bpow_pos (a - b + 1)). nra. }
  destruct (Qle_bool (bpow (a - b)) (n # d)) eqn:E.
  - apply Qle_bool_iff in E. replace (a - b + 1 - 1)%Z with (a - b)%Z by lia.
    split; [exact E|exact Hhi].
  - assert (~ bpow (a - b) <= n # d) as E' by (rewrite <- Qle_bool_iff, E; discriminate).
    split; [apply Qlt_le_weak; exact Hlo|lra].
Qed.

Lemma Qmag_unique x a : bpow (a - 1) <= x -> x < bpow a -> Qmag x = a.
Proof.
  intros Hlo Hhi.
  assert (0 < x) as Hx by (pose proof (bpow_pos (a - 1)); lra).
  destruct (Qmag_spec x Hx) as [Hlo' Hhi'].
  assert (bpow (a - 1) < bpow (Qmag x)) as H1 by lra.
  assert (bpow (Qmag x - 1) < bpow a) as H2 by lra.
  apply bpow_lt_inv in H1, H2. lia.
Qed.

Lemma Qmag_compat x y : 0 < x -> x == y -> Qmag x = Qmag y.
Proof.
  intros Hx Hxy. destruct (Qmag_spec x Hx) as [Hlo Hhi].
  symmetry. apply Qmag_unique; rewrite <- Hxy; assumption.
Qed.

Lemma Qmag_mono x y : 0 < x -> x <= y -> (Qmag x <= Qmag y)%Z.
Proof.
  intros Hx Hxy.
  destruct (Qmag_spec x Hx) as [Hlo _].
  destruct (Qmag_spec y) as [_ Hhi]; [lra|].
  assert (bpow (Qmag x - 1) < bpow (Qmag y)) as H by lra.
  apply bpow_lt_inv in H. lia.
Qed.

Lemma cexp_min x : (-1074 <= cexp x)%Z.
Proof. unfold cexp. rewrite fexp_spec. lia. Qed.

Lemma cexp_compat x y : 0 < x -> x == y -> cexp x = cexp y.
Proof. intros Hx Hxy. unfold cexp. rewrite (Qmag_compat x y Hx Hxy). reflexivity. Qed.

Lemma cexp_mono x y : 0 < x -> x <= y -> (cexp x <= cexp y)%Z.
Proof.
  intros Hx Hxy. unfold cexp. rewrite !fexp_spec.
  pose proof (Qmag_mono x y Hx Hxy). lia.
Qed.

Lemma RN_pos_compat x y : 0 < x -> x == y -> RN_pos x == RN_pos y.
Proof.
  intros Hx Hxy. unfold RN_pos. rewrite (cexp_compat x y Hx Hxy).
  assert (x / bpow (cexp y) == y / bpow (cexp y)) as -> by (rewrite Hxy; reflexivity).
  reflexivity.
Qed.

Lemma RN_pos_nonneg x : 0 < x -> 0 <= RN_pos x.
Proof.
  intros Hx. unfold RN_pos. pose proof (bpow_pos (cexp x)) as Hp.
  assert (0 <= RNE (x / bpow (cexp x)))%Z as H.
  { apply RNE_nonneg. apply Qlt_le_weak. apply Qlt_shift_div_l; [exact Hp|]. lra. }
  rewrite Zle_Qle in H. change (inject_Z 0) with 0 in H. nra.
Qed.

(** A value of the grid is left alone. *)
Lemma RN_pos_grid x k e :
  0 < x -> x == inject_Z k * bpow e -> (cexp x <= e)%Z -> RN_pos x == x.
Proof.
  intros Hx Hk He. unfold RN_pos.
  generalize dependent (cexp x). intros c He.
  pose proof (bpow_pos c) as Hp.
  assert (x / bpow c == inject_Z (k * 2 ^ (e - c))) as Hq.
  { rewrite inject_Z_mult, <- (bpow_Z (e - c)) by lia.
    rewrite Hk, bpow_sub. field. lra. }
  rewrite Hq, RNE_Z. rewrite <- Hq. field. lra.
Qed.

Lemma RN_pos_bpow e : (-1074 <= e)%Z -> RN_pos (bpow e) == bpow e.
Proof.
  intros He. apply (RN_pos_grid _ 1 e).
  - apply bpow_pos.
  - change (inject_Z 1) with 1. ring.
  - unfold cexp. rewrite (Qmag_unique (bpow e) (e + 1)).
    + rewrite fexp_spec. lia.
    + replace (e + 1 - 1)%Z with e by lia. apply Qle_refl.
    + apply bpow_lt. lia.
Qed.

Lemma RN_pos_mono x y : 0 < x -> x <= y -> RN_pos x <= RN_pos y.
Proof.
  intros Hx Hxy. assert (0 < y) as Hy by lra.
  pose proof (cexp_mono x y Hx Hxy) as Hc.
  destruct (Qmag_spec x Hx) as [Hxlo Hxhi]. destruct (Qmag_spec y Hy) as [Hylo Hyhi].
  pose proof (bpow_pos (cexp x)) as Hpx. pose proof (bpow_pos (cexp y)) as Hpy.
  destruct (Z.eq_dec (cexp x) (cexp y)) as [Heq|Hne].
  - unfold RN_pos. rewrite Heq.
    assert (RNE (x / bpow (cexp y)) <= RNE (y / bpow (cexp y)))%Z as H.
    { apply RNE_mono. apply Qmult_le_compat_r; [exact Hxy|].
      apply Qlt_le_weak. apply Qinv_lt_0_compat. exact Hpy. }
    rewrite Zle_Qle in H. nra.
  - (* the binade boundary [2^(mag x)] separates the two results *)
    assert (cexp x < cexp y)%Z as Hlt by lia.
    unfold cexp in Hlt, Hc. rewrite !fexp_spec in Hlt, Hc.
    assert (Qmag x < Qmag y)%Z as Hmag by lia.
    assert (cexp y = Qmag y - 53)%Z as Hcy by (unfold cexp; rewrite fexp_spec; lia).
    apply Qle_trans with (bpow (Qmag x)).
    + unfold RN_pos.
      destruct (Z_le_gt_dec (cexp x) (Qmag x)) as [Hle|Hgt].
      * assert (RNE (x / bpow (cexp x)) <= RNE (inject_Z (2 ^ (Qmag x - cexp x))))%Z as H.
        { apply RNE_mono. rewrite <- (bpow_Z (Qmag x - cexp x)) by lia.
          rewrite bpow_sub. apply Qmult_le_compat_r; [lra|].
          apply Qlt_le_weak. apply Qinv_lt_0_compat. exact Hpx. }
        rewrite RNE_Z in H. rewrite Zle_Qle in H.
        rewrite <- (bpow_Z (Qmag x - cexp x)) in H by lia.
        assert (bpow (Qmag x) == bpow (Qmag x - cexp x) * bpow (cexp x)) as ->
          by (rewrite <- bpow_add; replace (Qmag x - cexp x + cexp x)%Z with (Qmag x) by lia;
              reflexivity).
        nra.
      * assert (x / bpow (cexp x) < 1 # 2) as Hsmall.
        { apply Qlt_shift_div_r; [exact Hpx|].
          assert (bpow (Qmag x) <= bpow (cexp x - 1)) by (apply bpow_le; lia).
          assert (bpow (cexp x) == 2 * bpow (cexp x - 1)) as E.
          { rewrite <- bpow_1, <- bpow_add.
            replace (1 + (cexp x - 1))%Z with (cexp x) by lia. reflexivity. }
          lra. }
        assert (RNE (x / bpow (cexp x)) = 0%Z) as ->.
        { assert (0 <= x / bpow (cexp x)) as H0.
          { apply Qlt_le_weak. apply Qlt_shift_div_l; [exact Hpx|]. lra. }
          unfold RNE. rewrite (Qfloor_unique _ 0); change (inject_Z 0) with 0; try lra.
          destruct (Qcompare_spec (x / bpow (cexp x) - 0) (1 # 2)); try reflexivity; lra. }
        change (inject_Z 0) with 0. pose proof (bpow_pos (Qmag x)). lra.
    + apply Qle_trans with (bpow (Qmag y - 1)); [apply bpow_le; lia|].
      unfold RN_pos. rewrite Hcy.
      assert (RNE (inject_Z (2 ^ 52)) <= RNE (y / bpow (Qmag y - 53)))%Z as H.
      { apply RNE_mono. rewrite <- (bpow_Z 52) by lia.
        apply Qle_shift_div_l; [apply bpow_pos|].
        rewrite <- bpow_add. replace (52 + (Qmag y - 53))%Z with (Qmag y - 1)%Z by lia.
        exact Hylo. }
      rewrite RNE_Z in H. rewrite Zle_Qle in H. rewrite <- (bpow_Z 52) in H by lia.
      assert (bpow (Qmag y - 1) == bpow 52 * bpow (Qmag y - 53)) as ->
        by (rewrite <- bpow_add; replace (52 + (Qmag y - 53))%Z with (Qmag y - 1)%Z by lia;
            reflexivity).
      pose proof (bpow_pos (Qmag y - 53)). nra.
Qed.

Lemma RN_0 : RN 0 == 0.
Proof. reflexivity. Qed.

Lemma RN_pos_eq x : 0 < x -> RN x == RN_pos x.
Proof. intros Hx. unfold RN. rewrite Qgt_alt in Hx. rewrite Hx. reflexivity. Qed.

Lemma RN_neg_eq x : x < 0 -> RN x == - RN_pos (- x).
Proof. intros Hx. unfold RN. rewrite Qlt_alt in Hx. rewrite Hx. reflexivity. Qed.

Lemma RN_zero_eq x : x == 0 -> RN x == 0.
Proof. intros Hx. unfold RN. rewrite Qeq_alt in Hx. rewrite Hx. reflexivity. Qed.

#[global] Instance RN_proper : Proper (Qeq ==> Qeq) RN.
Proof.
  intros x y Hxy.
  destruct (Q_dec x 0) as [[Hlt|Hgt]|Heq].
  - rewrite (RN_neg_eq x Hlt), (RN_neg_eq y) by lra.
    rewrite (RN_pos_compat (- x) (- y)); [reflexivity|lra|rewrite Hxy; reflexivity].
  - rewrite (RN_pos_eq x Hgt), (RN_pos_eq y) by lra.
    apply RN_pos_compat; [exact Hgt|exact Hxy].
  - rewrite (RN_zero_eq x Heq), (RN_zero_eq y) by lra. reflexivity.
Qed.

Lemma RN_opp x : RN (- x) == - RN x.
Proof.
  destruct (Q_dec x 0) as [[Hlt|Hgt]|Heq].
  - rewrite (RN_neg_eq x Hlt), (RN_pos_eq (- x)) by lra. ring.
  - rewrite (RN_pos_eq x Hgt), (RN_neg_eq (- x)) by lra.
    rewrite (RN_pos_compat (- - x) x); [reflexivity|lra|ring].
  - rewrite (RN_zero_eq x Heq), (RN_zero_eq (- x)) by lra. reflexivity.
Qed.

Theorem RN_mono x y : x <= y -> RN x <= RN y.
Proof.
  intros Hxy.
  destruct (Q_dec x 0) as [[Hx|Hx]|Hx]; destruct (Q_dec y 0) as [[Hy|Hy]|Hy]; try lra.
  - rewrite (RN_neg_eq x Hx), (RN_neg_eq y Hy).
    assert (RN_pos (- y) <= RN_pos (- x)) by (apply RN_pos_mono; lra). lra.
  - rewrite (RN_neg_eq x Hx), (RN_pos_eq y Hy).
    pose proof (RN_pos_nonneg (- x)). pose proof (RN_pos_nonneg y). lra.
  - rewrite (RN_neg_eq x Hx), (RN_zero_eq y Hy).
    pose proof (RN_pos_nonneg (- x)). lra.
  - rewrite (RN_pos_eq x Hx), (RN_pos_eq y Hy). apply RN_pos_mono; assumption.
  - rewrite (RN_zero_eq x Hx), (RN_pos_eq y Hy). apply RN_pos_nonneg. exact Hy.
  - rewrite (RN_zero_eq x Hx), (RN_zero_eq y Hy). apply Qle_refl.
Qed.

(** *** From the rounding step to the operations *)

Lemma SF2Q_finite s m e : SF2Q (S754_finite s m e) == sgn s * (inject_Z (Zpos m) * bpow e).
Proof.
  unfold SF2Q, sgn. destruct s; cbn [cond_Zopp].
  - change (- Zpos m)%Z with (- (Zpos m))%Z. rewrite inject_Z_opp. ring.
  - ring.
Qed.

Lemma binary_round_aux_RN s m e l X :
  0 < X -> (0 <= m)%Z -> inbetween m l (X / bpow e) ->
  (e <= fexp prec emax (Zdigits2 m + e))%Z ->
  (0 < m \/ fexp prec emax (Zdigits2 m + e) = -1074)%Z ->
  let r := binary_round_aux prec emax s m e l in
  SFsign r = s /\ SpecFloat.valid_binary prec emax r = true /\ r <> S754_nan /\
  (SFfinite r = true -> SF2Q r == sgn s * RN_pos X) /\
  (RN_pos X < bpow 1024 -> SFfinite r = true).
Proof.
  intros HX Hm Hin Hec Hmc r.
  pose proof (inbetween_bounds _ _ _ Hin) as [Hlo Hhi].
  pose proof (bpow_pos e) as Hpe.
  assert (Hc : fexp prec emax (Zdigits2 m + e) = cexp X).
  { unfold cexp. destruct m as [|p|p]; [| |lia].
    - destruct Hmc as [Hmc|Hmc]; [lia|]. rewrite Hmc.
      rewrite fexp_spec in Hmc |- *. cbn [Zdigits2] in Hmc.
      change (inject_Z 0) with 0 in Hhi.
      assert (X < bpow e) as HXe.
      { apply Qdiv_lt_inv in Hhi; [lra|exact Hpe]. }
      destruct (Qmag_spec X HX) as [Hmlo _].
      assert (bpow (Qmag X - 1) < bpow e) as H by lra. apply bpow_lt_inv in H. lia.
    - f_equal. symmetry. rewrite Zdigits2_pos.
      pose proof (digits2_bounds p) as [Hdlo Hdhi].
      set (d := Zpos (digits2_pos p)) in *.
      apply Qmag_unique.
      + replace (d + e - 1)%Z with ((d - 1) + e)%Z by lia. rewrite bpow_add.
        rewrite (bpow_Z (d - 1)) by lia. rewrite Zle_Qle in Hdlo.
        apply Qdiv_le_inv in Hlo; [|exact Hpe].
        assert (inject_Z (2 ^ (d - 1)) * bpow e <= inject_Z (Zpos p) * bpow e) by nra.
        lra.
      + rewrite bpow_add. rewrite (bpow_Z d) by lia.
        assert (inject_Z (Zpos p) + 1 <= inject_Z (2 ^ d)).
        { change 1 with (inject_Z 1). rewrite <- inject_Z_plus, <- Zle_Qle. lia. }
        assert (X < (inject_Z (Zpos p) + 1) * bpow e).
        { apply Qdiv_lt_inv in Hhi; [lra|exact Hpe]. }
        nra. }
  pose proof (binary_round_aux_spec s m e l X Hm Hin Hec Hmc) as (Hs & Hv & Hr).
  fold r in Hs, Hv, Hr. rewrite Hc in Hr. fold (RN_pos X) in Hr.
  split; [exact Hs|]. split; [exact Hv|].
  clearbody r.
  destruct r as [s'|s'| |s' m' e']; cbn [SFsign] in Hs; try subst s'.
  - split; [discriminate|]. split; [|reflexivity].
    intros _. unfold RN_pos. rewrite Hr. cbn [SF2Q]. change (inject_Z 0) with 0. ring.
  - split; [discriminate|]. split; [discriminate|].
    intros Hlt. exfalso. unfold RN_pos in Hlt, Hr. exact (Qlt_not_le _ _ Hlt Hr).
  - contradiction.
  - split; [discriminate|]. split; [|reflexivity].
    intros _. rewrite SF2Q_finite. destruct Hr as [_ Hr]. unfold RN_pos. rewrite Hr. reflexivity.
Qed.

Lemma pos_iter_xO m d : Zpos (Pos.iter xO m d) = (Zpos m * 2 ^ Zpos d)%Z.
Proof.
  change (Pos.iter xO m d) with (shift_pos d m).
  rewrite shift_pos_correct. rewrite Zpower_pos_nat, Zpower_nat_Z, positive_nat_Z. ring.
Qed.

Lemma digits2_shift m d :
  Zpos (digits2_pos (Pos.iter xO m d)) = (Zpos (digits2_pos m) + Zpos d)%Z.
Proof.
  apply digits2_unique. rewrite pos_iter_xO.
  pose proof (digits2_bounds m) as [Hlo Hhi].
  replace (Zpos (digits2_pos m) + Zpos d - 1)%Z with ((Zpos (digits2_pos m) - 1) + Zpos d)%Z by lia.
  rewrite !Z.pow_add_r by lia.
  pose proof (Z.pow_pos_nonneg 2 (Zpos d)). nia.
Qed.

(** [binary_round] rounds the value [m * 2^e]. *)
Lemma binary_round_RN s m e :
  let r := binary_round prec emax s m e in
  SFsign r = s /\ SpecFloat.valid_binary prec emax r = true /\ r <> S754_nan /\
  (SFfinite r = true -> SF2Q r == sgn s * RN_pos (inject_Z (Zpos m) * bpow e)) /\
  (RN_pos (inject_Z (Zpos m) * bpow e) < bpow 1024 -> SFfinite r = true).
Proof.
  unfold binary_round.
  set (c := fexp prec emax (Zpos (digits2_pos m) + e)).
  assert (HX : 0 < inject_Z (Zpos m) * bpow e).
  { pose proof (bpow_pos e). assert (0 < inject_Z (Zpos m)).
    { change 0 with (inject_Z 0). rewrite <- Zlt_Qlt. lia. } nra. }
  unfold shl_align. destruct (c - e)%Z as [|d|d] eqn:E.
  - apply binary_round_aux_RN; [exact HX|lia| | |left; lia].
    + cbn [inbetween]. pose proof (bpow_pos e). field. lra.
    + rewrite Zdigits2_pos. fold c. lia.
  - apply binary_round_aux_RN; [exact HX|lia| | |left; lia].
    + cbn [inbetween]. pose proof (bpow_pos e). field. lra.
    + rewrite Zdigits2_pos. fold c. lia.
  - apply binary_round_aux_RN; [exact HX|lia| | |left; lia].
    + cbn [inbetween]. rewrite pos_iter_xO, inject_Z_mult.
      rewrite <- (bpow_Z (Zpos d)) by lia.
      assert (bpow e == bpow (Zpos d) * bpow c) as ->.
      { rewrite <- bpow_add. replace (Zpos d + c)%Z with e by lia. reflexivity. }
      pose proof (bpow_pos c). pose proof (bpow_pos (Zpos d)). field. lra.
    + rewrite Zdigits2_pos, digits2_shift.
      replace (Zpos (digits2_pos m) + Zpos d + c)%Z with (Zpos (digits2_pos m) + e)%Z by lia.
      fold c. lia.
Qed.

(** [binary_normalize] rounds the value [m * 2^e]. *)
Lemma binary_normalize_RN m e sz :
  let r := binary_normalize prec emax m e sz in
  SpecFloat.valid_binary prec emax r = true /\ r <> S754_nan /\
  (SFfinite r = true -> SF2Q r == RN (inject_Z m * bpow e)) /\
  (Qabs (RN (inject_Z m * bpow e)) < bpow 1024 -> SFfinite r = true).
Proof.
  pose proof (bpow_pos e) as Hpe.
  destruct m as [|p|p]; cbn [binary_normalize].
  - split; [reflexivity|]. split; [discriminate|]. split; [|reflexivity].
    intros _. cbn [SF2Q]. rewrite RN_zero_eq; [reflexivity|]. change (inject_Z 0) with 0. ring.
  - pose proof (binary_round_RN false p e) as (Hs & Hv & Hn & Hf & Hb).
    assert (0 < inject_Z (Zpos p)) by (change 0 with (inject_Z 0); rewrite <- Zlt_Qlt; lia).
    assert (HX : 0 < inject_Z (Zpos p) * bpow e) by nra.
    split; [exact Hv|]. split; [exact Hn|]. split.
    + intros H'. rewrite (Hf H'), (RN_pos_eq _ HX). unfold sgn. ring.
    + intros H'. apply Hb. rewrite (RN_pos_eq _ HX) in H'.
      rewrite Qabs_pos in H' by (apply RN_pos_nonneg; exact HX). exact H'.
  - pose proof (binary_round_RN true p e) as (Hs & Hv & Hn & Hf & Hb).
    assert (0 < inject_Z (Zpos p)) by (change 0 with (inject_Z 0); rewrite <- Zlt_Qlt; lia).
    assert (HX : 0 < inject_Z (Zpos p) * bpow e) by nra.
    assert (HE : inject_Z (Zneg p) * bpow e == - (inject_Z (Zpos p) * bpow e)).
    { change (Zneg p) with (- Zpos p)%Z. rewrite inject_Z_opp. ring. }
    split; [exact Hv|]. split; [exact Hn|]. split.
    + intros H'. rewrite (Hf H'), HE, RN_opp, (RN_pos_eq _ HX). unfold sgn. ring.
    + intros H'. apply Hb. rewrite HE, RN_opp, (RN_pos_eq _ HX) in H'.
      rewrite Qabs_opp, Qabs_pos in H' by (apply RN_pos_nonneg; exact HX). exact H'.
Qed.

Lemma rounds_to_compat r X Y : X == Y -> rounds_to r X -> rounds_to r Y.
Proof.
  intros HXY (Hv & Hn & Hf & Hb). repeat split; try assumption.
  - intros H. rewrite <- HXY. apply Hf. exact H.
  - intros H. apply Hb. rewrite HXY. exact H.
Qed.

Lemma rounds_to_aux s r X :
  0 < X ->
  (SFsign r = s /\ SpecFloat.valid_binary prec emax r = true /\ r <> S754_nan /\
   (SFfinite r = true -> SF2Q r == sgn s * RN_pos X) /\
   (RN_pos X < bpow 1024 -> SFfinite r = true)) ->
  rounds_to r (sgn s * X).
Proof.
  intros HX (Hs & Hv & Hn & Hf & Hb). split; [exact Hv|]. split; [exact Hn|].
  assert (RN (sgn s * X) == sgn s * RN_pos X) as E.
  { destruct s; unfold sgn.
    - assert (-1 * X == - X) as -> by ring. rewrite RN_opp, (RN_pos_eq _ HX). ring.
    - assert (1 * X == X) as -> by ring. rewrite (RN_pos_eq _ HX). ring. }
  split.
  - intros H. rewrite E. apply Hf. exact H.
  - intros H. apply Hb. rewrite E in H.
    pose proof (RN_pos_nonneg X HX).
    destruct s; unfold sgn in H.
    + assert (-1 * RN_pos X == - RN_pos X) as E' by ring.
      rewrite E', Qabs_opp, Qabs_pos in H by assumption. exact H.
    + assert (1 * RN_pos X == RN_pos X) as E' by ring.
      rewrite E', Qabs_pos in H by assumption. exact H.
Qed.

Lemma rounds_to_zero s X : X == 0 -> rounds_to (S754_zero s) X.
Proof.
  intros HX. split; [reflexivity|]. split; [discriminate|]. split; [|reflexivity].
  intros _. rewrite (RN_zero_eq X HX). reflexivity.
Qed.

Lemma inject_Z_pos_lt p : 0 < inject_Z (Zpos p).
Proof. change 0 with (inject_Z 0). rewrite <- Zlt_Qlt. lia. Qed.

Lemma Qmag_float m e : Qmag (inject_Z (Zpos m) * bpow e) = (Zpos (digits2_pos m) + e)%Z.
Proof.
  pose proof (digits2_bounds m) as [Hlo Hhi]. pose proof (bpow_pos e) as Hpe.
  set (d := Zpos (digits2_pos m)) in *.
  rewrite Zle_Qle in Hlo. rewrite Zlt_Qlt in Hhi.
  apply Qmag_unique.
  - replace (d + e - 1)%Z with ((d - 1) + e)%Z by lia. rewrite bpow_add.
    rewrite (bpow_Z (d - 1)) by lia. nra.
  - rewrite bpow_add. rewrite (bpow_Z d) by lia. nra.
Qed.

Lemma valid_finite_canonical s m e :
  SpecFloat.valid_binary prec emax (S754_finite s m e) = true ->
  e = Z.max (Zpos (digits2_pos m) + e - 53) (-1074) /\ (e <= 971)%Z.
Proof.
  cbn [SpecFloat.valid_binary]. unfold bounded, canonical_mantissa.
  rewrite andb_true_iff, Z.eqb_eq, Z.leb_le, fexp_spec.
  change (emax - prec)%Z with 971%Z. intros [H1 H2]. split; [symmetry; exact H1|exact H2].
Qed.

(** A binary64 value is its own rounding. *)
Lemma RN_SF2Q x : SpecFloat.valid_binary prec emax x = true -> RN (SF2Q x) == SF2Q x.
Proof.
  intros Hv. destruct x as [s|s| |s m e]; try reflexivity.
  apply valid_finite_canonical in Hv. destruct Hv as [Hc _].
  assert (HX : 0 < inject_Z (Zpos m) * bpow e).
  { pose proof (bpow_pos e). pose proof (inject_Z_pos_lt m). nra. }
  assert (HR : RN_pos (inject_Z (Zpos m) * bpow e) == inject_Z (Zpos m) * bpow e).
  { apply (RN_pos_grid _ (Zpos m) e); [exact HX|reflexivity|].
    unfold cexp. rewrite Qmag_float, fexp_spec. lia. }
  rewrite SF2Q_finite. destruct s; unfold sgn.
  - assert (-1 * (inject_Z (Zpos m) * bpow e) == - (inject_Z (Zpos m) * bpow e)) as -> by ring.
    rewrite RN_opp, (RN_pos_eq _ HX), HR. reflexivity.
  - assert (1 * (inject_Z (Zpos m) * bpow e) == inject_Z (Zpos m) * bpow e) as -> by ring.
    rewrite (RN_pos_eq _ HX), HR. reflexivity.
Qed.

Lemma SF2Q_bound x :
  SpecFloat.valid_binary prec emax x = true -> Qabs (SF2Q x) < bpow 1024.
Proof.
  intros Hv. destruct x as [s|s| |s m e]; try (cbn [SF2Q]; apply bpow_pos).
  apply valid_finite_canonical in Hv. destruct Hv as [Hc He].
  pose proof (digits2_bounds m) as [_ Hhi]. pose proof (bpow_pos e) as Hpe.
  pose proof (inject_Z_pos_lt m) as Hm.
  assert (Zpos (digits2_pos m) <= 53)%Z as Hd by lia.
  assert (Zpos m < 2 ^ 53)%Z as Hm53.
  { eapply Z.lt_le_trans; [exact Hhi|]. apply Z.pow_le_mono_r; lia. }
  rewrite Zlt_Qlt, <- (bpow_Z 53) in Hm53 by lia.
  assert (bpow e <= bpow 971) by (apply bpow_le; exact He).
  assert (bpow 1024 == bpow 53 * bpow 971) as -> by (rewrite <- bpow_add; reflexivity).
  rewrite SF2Q_finite.
  assert (Qabs (sgn s * (inject_Z (Zpos m) * bpow e)) == inject_Z (Zpos m) * bpow e) as ->.
  { destruct s; unfold sgn.
    - assert (-1 * (inject_Z (Zpos m) * bpow e) == - (inject_Z (Zpos m) * bpow e)) as -> by ring.
      rewrite Qabs_opp. apply Qabs_pos. nra.
    - assert (1 * (inject_Z (Zpos m) * bpow e) == inject_Z (Zpos m) * bpow e) as -> by ring.
      apply Qabs_pos. nra. }
  pose proof (bpow_pos 53). pose proof (bpow_pos 971).
  apply Qle_lt_trans with (inject_Z (Zpos m) * bpow 971).
  - apply Qmult_le_l; assumption.
  - apply Qmult_lt_compat_r; assumption.
Qed.

Lemma sgn_xorb a b : sgn (xorb a b) == sgn a * sgn b.
Proof. destruct a, b; reflexivity. Qed.

Theorem SFmul_rounds x y :
  SpecFloat.valid_binary prec emax x = true -> SpecFloat.valid_binary prec emax y = true ->
  SFfinite x = true -> SFfinite y = true ->
  rounds_to (SFmul prec emax x y) (SF2Q x * SF2Q y).
Proof.
  intros Hvx Hvy Hfx Hfy.
  destruct x as [sx|sx| |sx mx ex]; try discriminate Hfx;
    destruct y as [sy|sy| |sy my ey]; try discriminate Hfy; cbn [SFmul].
  - apply rounds_to_zero. cbn [SF2Q]. ring.
  - apply rounds_to_zero. cbn [SF2Q]. ring.
  - apply rounds_to_zero. cbn [SF2Q]. ring.
  - apply valid_finite_canonical in Hvx, Hvy. destruct Hvx as [Hcx _], Hvy as [Hcy _].
    pose proof (digits2_bounds mx) as [Hxlo Hxhi]. pose proof (digits2_bounds my) as [Hylo Hyhi].
    pose proof (digits2_bounds (mx * my)) as [Hplo Hphi].
    pose proof (inject_Z_pos_lt mx). pose proof (inject_Z_pos_lt my).
    pose proof (bpow_pos ex). pose proof (bpow_pos ey).
    set (dx := Zpos (digits2_pos mx)) in *. set (dy := Zpos (digits2_pos my)) in *.
    set (dp := Zpos (digits2_pos (mx * my))) in *.
    assert (dx + dy - 1 <= dp)%Z as Hdp.
    { destruct (Z_le_gt_dec (dx + dy - 1) dp) as [|Hgt]; [assumption|].
      assert (2 ^ dp <= 2 ^ (dx + dy - 2))%Z by (apply Z.pow_le_mono_r; lia).
      assert (2 ^ (dx + dy - 2) = 2 ^ (dx - 1) * 2 ^ (dy - 1))%Z.
      { rewrite <- Z.pow_add_r by lia. f_equal. lia. }
      rewrite Pos2Z.inj_mul in Hphi. nia. }
    eapply rounds_to_compat; [|apply (rounds_to_aux (xorb sx sy) _
         ((inject_Z (Zpos mx) * bpow ex) * (inject_Z (Zpos my) * bpow ey)))].
    + rewrite !SF2Q_finite, sgn_xorb. ring.
    + repeat apply Qmult_lt_0_compat; assumption.
    + apply binary_round_aux_RN.
      * repeat apply Qmult_lt_0_compat; assumption.
      * lia.
      * cbn [inbetween]. rewrite Pos2Z.inj_mul, inject_Z_mult, bpow_add. field. lra.
      * rewrite Zdigits2_pos, fexp_spec. fold dp. lia.
      * left. lia.
Qed.

Lemma rounds_to_self x X :
  SpecFloat.valid_binary prec emax x = true -> SFfinite x = true -> X == SF2Q x ->
  rounds_to x X.
Proof.
  intros Hv Hf HX. split; [exact Hv|]. split; [destruct x; discriminate|]. split.
  - intros _. rewrite HX, RN_SF2Q by exact Hv. reflexivity.
  - intros _. exact Hf.
Qed.

Lemma shl_align_value m e e' :
  (e' <= e)%Z ->
  inject_Z (Zpos (fst (shl_align m e e'))) * bpow e' == inject_Z (Zpos m) * bpow e.
Proof.
  intros He. unfold shl_align. destruct (e' - e)%Z as [|d|d] eqn:E; cbn [fst].
  - replace e' with e by lia. reflexivity.
  - lia.
  - rewrite pos_iter_xO, inject_Z_mult. rewrite <- (bpow_Z (Zpos d)) by lia.
    assert (bpow e == bpow (Zpos d) * bpow e') as ->.
    { rewrite <- bpow_add. replace (Zpos d + e')%Z with e by lia. reflexivity. }
    ring.
Qed.

Lemma inject_Z_cond_Zopp s z : inject_Z (cond_Zopp s z) == sgn s * inject_Z z.
Proof.
  destruct s; unfold sgn; cbn [cond_Zopp].
  - rewrite inject_Z_opp. ring.
  - ring.
Qed.

Theorem SFadd_rounds x y :
  SpecFloat.valid_binary prec emax x = true -> SpecFloat.valid_binary prec emax y = true ->
  SFfinite x = true -> SFfinite y = true ->
  rounds_to (SFadd prec emax x y) (SF2Q x + SF2Q y).
Proof.
  intros Hvx Hvy Hfx Hfy.
  destruct x as [sx|sx| |sx mx ex]; try discriminate Hfx;
    destruct y as [sy|sy| |sy my ey]; try discriminate Hfy; cbn [SFadd].
  - destruct sx, sy; apply rounds_to_zero; cbn [SF2Q]; ring.
  - apply rounds_to_self; [exact Hvy|reflexivity|]. cbn [SF2Q]. ring.
  - apply rounds_to_self; [exact Hvx|reflexivity|]. cbn [SF2Q]. ring.
  - eapply rounds_to_compat; [|apply binary_normalize_RN].
    rewrite inject_Z_plus, !inject_Z_cond_Zopp, !SF2Q_finite.
    pose proof (shl_align_value mx ex (Z.min ex ey) (Z.le_min_l _ _)) as Ex.
    pose proof (shl_align_value my ey (Z.min ex ey) (Z.le_min_r _ _)) as Ey.
    rewrite <- Ex, <- Ey. ring.
Qed.

Theorem SFsub_rounds x y :
  SpecFloat.valid_binary prec emax x = true -> SpecFloat.valid_binary prec emax y = true ->
  SFfinite x = true -> SFfinite y = true ->
  rounds_to (SFsub prec emax x y) (SF2Q x - SF2Q y).
Proof.
  intros Hvx Hvy Hfx Hfy.
  destruct x as [sx|sx| |sx mx ex]; try discriminate Hfx;
    destruct y as [sy|sy| |sy my ey]; try discriminate Hfy; cbn [SFsub].
  - destruct sx, sy; apply rounds_to_zero; cbn [SF2Q]; ring.
  - apply rounds_to_self; [exact Hvy|reflexivity|].
    rewrite !SF2Q_finite. cbn [SF2Q]. destruct sy; unfold sgn; cbn [negb]; ring.
  - apply rounds_to_self; [exact Hvx|reflexivity|]. cbn [SF2Q]. ring.
  - eapply rounds_to_compat; [|apply binary_normalize_RN].
    unfold Z.sub. rewrite inject_Z_plus, inject_Z_opp, !inject_Z_cond_Zopp, !SF2Q_finite.
    pose proof (shl_align_value mx ex (Z.min ex ey) (Z.le_min_l _ _)) as Ex.
    pose proof (shl_align_value my ey (Z.min ex ey) (Z.le_min_r _ _)) as Ey.
    rewrite <- Ex, <- Ey. ring.
Qed.

(** *** Division *)

Lemma new_location_spec n k q :
  (0 < n)%Z -> (0 <= k < n)%Z ->
  inbetween q (new_location n k) (inject_Z q + inject_Z k / inject_Z n).
Proof.
  intros Hn Hk.
  assert (0 < inject_Z n) as Hnq by (change 0 with (inject_Z 0); rewrite <- Zlt_Qlt; lia).
  assert (Hlt : forall a b : Z, (a < b)%Z -> inject_Z a < inject_Z b)
    by (intros a b Hab; rewrite Zlt_Qlt in Hab; exact Hab).
  assert (Hhalf_lt : (2 * k < n)%Z ->
            inject_Z q < inject_Z q + inject_Z k / inject_Z n /\
            inject_Z q + inject_Z k / inject_Z n < inject_Z q + (1 # 2) \/ k = 0%Z).
  { intros H. destruct (Z.eq_dec k 0) as [->|Hk0]; [right; reflexivity|left].
    assert (0 < inject_Z k) by (change 0 with (inject_Z 0); apply Hlt; lia).
    assert (inject_Z (2 * k) < inject_Z n) as H' by (apply Hlt; exact H).
    rewrite inject_Z_mult in H'. change (inject_Z 2) with 2 in H'.
    assert (0 < inject_Z k / inject_Z n) by (apply Qlt_shift_div_l; lra).
    assert (inject_Z k / inject_Z n < 1 # 2) by (apply Qlt_shift_div_r; lra).
    split; lra. }
  assert (Hhalf_gt : (n < 2 * k)%Z ->
            inject_Z q + (1 # 2) < inject_Z q + inject_Z k / inject_Z n /\
            inject_Z q + inject_Z k / inject_Z n < inject_Z q + 1).
  { intros H.
    assert (inject_Z n < inject_Z (2 * k)) as H' by (apply Hlt; exact H).
    rewrite inject_Z_mult in H'. change (inject_Z 2) with 2 in H'.
    assert (inject_Z k < inject_Z n) by (apply Hlt; lia).
    assert (1 # 2 < inject_Z k / inject_Z n) by (apply Qlt_shift_div_l; lra).
    assert (inject_Z k / inject_Z n < 1) by (apply Qlt_shift_div_r; lra).
    split; lra. }
  assert (Hhalf_eq : (2 * k = n)%Z ->
            inject_Z q + inject_Z k / inject_Z n == inject_Z q + (1 # 2)).
  { intros H. rewrite <- H, inject_Z_mult. change (inject_Z 2) with 2.
    rewrite <- H in Hnq. rewrite inject_Z_mult in Hnq. change (inject_Z 2) with 2 in Hnq.
    field. lra. }
  assert (Hzero : k = 0%Z -> inject_Z q + inject_Z k / inject_Z n == inject_Z q).
  { intros ->. change (inject_Z 0) with 0. field. lra. }
  unfold new_location. destruct (Z.even n) eqn:En.
  - unfold new_location_even. destruct (Z.eqb_spec k 0) as [Hk0|Hk0]; cbn [inbetween].
    + apply Hzero. exact Hk0.
    + destruct (Z.compare_spec (2 * k) n) as [H|H|H].
      * apply Hhalf_eq. exact H.
      * destruct (Hhalf_lt H) as [H'|H']; [exact H'|contradiction].
      * apply Hhalf_gt. exact H.
  - unfold new_location_odd. destruct (Z.eqb_spec k 0) as [Hk0|Hk0]; cbn [inbetween].
    + apply Hzero. exact Hk0.
    + assert (2 * k <> n)%Z as Hodd.
      { intros <-. rewrite Z.even_mul in En. discriminate En. }
      destruct (Z.compare_spec (2 * k + 1) n) as [H|H|H].
      * destruct (Hhalf_lt ltac:(lia)) as [H'|H']; [exact H'|contradiction].
      * destruct (Hhalf_lt ltac:(lia)) as [H'|H']; [exact H'|contradiction].
      * apply Hhalf_gt. lia.
Qed.

Lemma SFdiv_core_spec mx ex my ey :
  let X := inject_Z (Zpos mx) * bpow ex / (inject_Z (Zpos my) * bpow ey) in
  let '(q, e', l) := SFdiv_core_binary prec emax (Zpos mx) ex (Zpos my) ey in
  (0 <= q)%Z /\ inbetween q l (X / bpow e') /\
  (e' <= fexp prec emax (Zdigits2 q + e'))%Z /\
  (0 < q \/ fexp prec emax (Zdigits2 q + e') = -1074)%Z.
Proof.
  intros X. unfold SFdiv_core_binary. rewrite !Zdigits2_pos.
  pose proof (digits2_bounds mx) as [H1lo H1hi]. pose proof (digits2_bounds my) as [H2lo H2hi].
  set (d1 := Zpos (digits2_pos mx)) in *. set (d2 := Zpos (digits2_pos my)) in *.
  set (e' := Z.min (fexp prec emax (d1 + ex - (d2 + ey))) (ex - ey)).
  assert (e' <= fexp prec emax (d1 + ex - (d2 + ey)))%Z as He'1 by apply Z.le_min_l.
  assert (e' <= ex - ey)%Z as He'2 by apply Z.le_min_r.
  set (s := (ex - ey - e')%Z) in *.
  assert (0 <= s)%Z as Hs by (subst s; lia).
  set (m' := match s with Z0 => Zpos mx | Zpos _ => Z.shiftl (Zpos mx) s | Zneg _ => 0%Z end).
  assert (m' = Zpos mx * 2 ^ s)%Z as Hm'.
  { subst m'. destruct s as [|p|p] eqn:Es; [simpl; lia| |lia].
    apply Z.shiftl_mul_pow2. lia. }
  clearbody m'.
  pose proof (Z_div_mod m' (Zpos my) ltac:(lia)) as Hdm.
  destruct (Z.div_eucl m' (Zpos my)) as [q r]. destruct Hdm as [Hq Hr].
  pose proof (Z.pow_pos_nonneg 2 s ltac:(lia) Hs) as Hps.
  assert (0 <= q)%Z as Hq0 by nia.
  split; [exact Hq0|]. split.
  - eapply inbetween_compat; [|apply (new_location_spec (Zpos my) r q); lia].
    subst X. pose proof (inject_Z_pos_lt my). pose proof (bpow_pos ey). pose proof (bpow_pos e').
    assert (bpow ex == bpow s * bpow ey * bpow e') as ->.
    { rewrite <- !bpow_add. replace (s + ey + e')%Z with ex by (subst s; lia). reflexivity. }
    rewrite (bpow_Z s) by lia.
    assert (inject_Z (Zpos mx) * inject_Z (2 ^ s) == inject_Z (Zpos my) * inject_Z q + inject_Z r) as E.
    { rewrite <- !inject_Z_mult, <- inject_Z_plus. rewrite <- Hq, Hm'. reflexivity. }
    field_simplify_eq; [|lra..].
    generalize dependent (inject_Z (2 ^ s)). intros.
    nra.
  - assert (2 ^ (d1 - 1) * 2 ^ s <= m')%Z as Hm'lo by nia.
    rewrite !fexp_spec in *.
    destruct (Z.eq_dec q 0) as [->|Hqn].
    + cbn [Zdigits2].
      assert (d1 + s <= d2)%Z as Hds.
      { destruct (Z_le_gt_dec (d1 + s) d2) as [|Hgt]; [assumption|].
        assert (2 ^ d2 <= 2 ^ (d1 - 1 + s))%Z by (apply Z.pow_le_mono_r; lia).
        rewrite Z.pow_add_r in H by lia. lia. }
      subst s. split; [lia|]. right. lia.
    + assert (d1 + s - d2 <= Zdigits2 q)%Z as Hdq.
      { destruct q as [|pq|pq]; try lia. rewrite Zdigits2_pos.
        pose proof (digits2_bounds pq) as [_ Hqhi].
        set (dq := Zpos (digits2_pos pq)) in *.
        destruct (Z_le_gt_dec (d1 + s - d2) dq) as [|Hgt]; [assumption|].
        assert (2 ^ dq * 2 ^ d2 <= 2 ^ (d1 - 1) * 2 ^ s)%Z.
        { rewrite <- !Z.pow_add_r by lia. apply Z.pow_le_mono_r; lia. }
        nia. }
      subst s. split; [lia|]. left. lia.
Qed.

Theorem SFdiv_rounds sx mx ex sy my ey :
  rounds_to (SFdiv prec emax (S754_finite sx mx ex) (S754_finite sy my ey))
            (SF2Q (S754_finite sx mx ex) / SF2Q (S754_finite sy my ey)).
Proof.
  cbn [SFdiv]. pose proof (SFdiv_core_spec mx ex my ey) as H.
  destruct (SFdiv_core_binary prec emax (Zpos mx) ex (Zpos my) ey) as [[q e'] l].
  cbv zeta in H. destruct H as (Hq & Hin & He & Hqc).
  pose proof (inject_Z_pos_lt mx). pose proof (inject_Z_pos_lt my).
  pose proof (bpow_pos ex). pose proof (bpow_pos ey).
  assert (0 < inject_Z (Zpos mx) * bpow ex) as Hnx by (apply Qmult_lt_0_compat; assumption).
  assert (0 < inject_Z (Zpos my) * bpow ey) as Hny by (apply Qmult_lt_0_compat; assumption).
  eapply rounds_to_compat; [|apply (rounds_to_aux (xorb sx sy) _
       (inject_Z (Zpos mx) * bpow ex / (inject_Z (Zpos my) * bpow ey)))].
  - rewrite !SF2Q_finite, sgn_xorb. destruct sx, sy; unfold sgn; field; lra.
  - apply Qlt_shift_div_l; [exact Hny|lra].
  - apply binary_round_aux_RN; try assumption.
    apply Qlt_shift_div_l; [exact Hny|lra].
Qed.

(** *** Bounds *)

Lemma RN_between lo hi X :
  RN lo == lo -> RN hi == hi -> lo <= X <= hi -> lo <= RN X <= hi.
Proof.
  intros Hlo Hhi [H1 H2]. split.
  - rewrite <- Hlo. apply RN_mono. exact H1.
  - rewrite <- Hhi. apply RN_mono. exact H2.
Qed.

Lemma RN_abs_le X B : Qabs X <= B -> RN B == B -> Qabs (RN X) <= B.
Proof.
  intros H HB. apply Qabs_Qle_condition in H. apply Qabs_Qle_condition.
  apply RN_between; [rewrite RN_opp, HB; reflexivity|exact HB|exact H].
Qed.

Lemma RN_bpow e : (-1074 <= e)%Z -> RN (bpow e) == bpow e.
Proof.
  intros He. rewrite (RN_pos_eq _ (bpow_pos e)). apply RN_pos_bpow. exact He.
Qed.

Lemma no_overflow X : Qabs X <= bpow 1023 -> Qabs (RN X) < bpow 1024.
Proof.
  intros H. apply Qle_lt_trans with (bpow 1023).
  - apply RN_abs_le; [exact H|apply RN_bpow; lia].
  - apply bpow_lt. lia.
Qed.

Lemma RN_Z z : (Z.abs z <= 2 ^ 53)%Z -> RN (inject_Z z) == inject_Z z.
Proof.
  assert (Hpos : forall p, (Zpos p <= 2 ^ 53)%Z -> RN (inject_Z (Zpos p)) == inject_Z (Zpos p)).
  { intros p Hp. pose proof (inject_Z_pos_lt p) as H0.
    rewrite (RN_pos_eq _ H0).
    destruct (Z.eq_dec (Zpos p) (2 ^ 53)) as [E|E].
    - rewrite E in H0 |- *.
      assert (inject_Z (2 ^ 53) == bpow 53) as E2 by (symmetry; apply bpow_Z; lia).
      rewrite (RN_pos_compat _ (bpow 53) H0 E2), E2. apply RN_pos_bpow. lia.
    - apply (RN_pos_grid _ (Zpos p) 0); [exact H0|change (bpow 0) with 1; ring|].
      assert (inject_Z (Zpos p) == inject_Z (Zpos p) * bpow 0) as E'
        by (change (bpow 0) with 1; ring).
      unfold cexp. rewrite (Qmag_compat _ _ H0 E'), Qmag_float, fexp_spec.
      pose proof (digits2_bounds p) as [Hlo _].
      destruct (Z_le_gt_dec (Zpos (digits2_pos p)) 53) as [Hd|Hd]; [lia|].
      assert (2 ^ 53 <= 2 ^ (Zpos (digits2_pos p) - 1))%Z by (apply Z.pow_le_mono_r; lia).
      lia. }
  intros Hz. destruct z as [|p|p].
  - reflexivity.
  - apply Hpos. lia.
  - change (Zneg p) with (- Zpos p)%Z. rewrite inject_Z_opp, RN_opp, Hpos by lia. reflexivity.
Qed.

(** *** Primitive floats *)

Lemma valid_Prim2SF x : SpecFloat.valid_binary prec emax (Prim2SF x) = true.
Proof. exact (Prim2SF_valid x). Qed.

Lemma rounds_to_finite r X :
  rounds_to r X -> Qabs (RN X) < bpow 1024 -> SFfinite r = true /\ SF2Q r == RN X.
Proof.
  intros (_ & _ & Hf & Hb) H. split; [apply Hb; exact H|apply Hf, Hb; exact H].
Qed.

Lemma rounds_to_prim f X :
  rounds_to (Prim2SF f) X -> Qabs (RN X) < bpow 1024 -> finite f /\ B2Q f == RN X.
Proof. apply rounds_to_finite. Qed.

Lemma rounds_to_SF2Prim r X :
  rounds_to r X -> Qabs (RN X) < bpow 1024 ->
  finite (SF2Prim r) /\ B2Q (SF2Prim r) == RN X.
Proof.
  intros Hr HX. unfold finite, B2Q.
  rewrite Prim2SF_SF2Prim by (destruct Hr as [Hv _]; exact Hv).
  apply rounds_to_finite; assumption.
Qed.

Theorem mul_RN x y :
  finite x -> finite y -> Qabs (RN (B2Q x * B2Q y)) < bpow 1024 ->
  finite (x * y) /\ B2Q (x * y) == RN (B2Q x * B2Q y).
Proof.
  intros Hx Hy. apply rounds_to_prim. rewrite mul_spec.
  apply SFmul_rounds; auto using valid_Prim2SF.
Qed.

Theorem add_RN x y :
  finite x -> finite y -> Qabs (RN (B2Q x + B2Q y)) < bpow 1024 ->
  finite (x + y) /\ B2Q (x + y) == RN (B2Q x + B2Q y).
Proof.
  intros Hx Hy. apply rounds_to_prim. rewrite add_spec.
  apply SFadd_rounds; auto using valid_Prim2SF.
Qed.

Theorem sub_RN x y :
  finite x -> finite y -> Qabs (RN (B2Q x - B2Q y)) < bpow 1024 ->
  finite (x - y) /\ B2Q (x - y) == RN (B2Q x - B2Q y).
Proof.
  intros Hx Hy. apply rounds_to_prim. rewrite sub_spec.
  apply SFsub_rounds; auto using valid_Prim2SF.
Qed.

Lemma SFdiv_rounds_gen x y :
  SFfinite x = true -> SFfinite y = true -> ~ SF2Q y == 0 ->
  rounds_to (SFdiv prec emax x y) (SF2Q x / SF2Q y).
Proof.
  intros Hx Hy Hy0.
  destruct x as [sx|sx| |sx mx ex]; try discriminate Hx;
    destruct y as [sy|sy| |sy my ey]; try discriminate Hy;
    try (exfalso; apply Hy0; reflexivity).
  - cbn [SFdiv]. apply rounds_to_zero. cbn [SF2Q]. unfold Qdiv. ring.
  - apply SFdiv_rounds.
Qed.

Theorem div_RN x y :
  finite x -> finite y -> ~ B2Q y == 0 -> Qabs (RN (B2Q x / B2Q y)) < bpow 1024 ->
  finite (x / y) /\ B2Q (x / y) == RN (B2Q x / B2Q y).
Proof.
  intros Hx Hy Hy0. apply rounds_to_prim. rewrite div_spec.
  apply SFdiv_rounds_gen; assumption.
Qed.

(** *** Python arithmetic *)

Lemma float_of_int_RN z :
  Qabs (RN (inject_Z z)) < bpow 1024 ->
  exists f, float_of_int z = Ok f /\ finite f /\ B2Q f == RN (inject_Z z).
Proof.
  intros H. unfold float_of_int, Z2SF.
  pose proof (binary_normalize_RN z 0 false) as Hr. cbv zeta in Hr.
  fold (rounds_to (binary_normalize prec emax z 0 false) (inject_Z z * bpow 0)) in Hr.
  apply (rounds_to_compat _ _ (inject_Z z)) in Hr; [|change (bpow 0) with 1; ring].
  destruct (rounds_to_SF2Prim _ _ Hr H) as [Hf Hv].
  destruct (rounds_to_finite _ _ Hr H) as [Hfin _].
  destruct (binary_normalize prec emax z 0 false) as [s|s| |s m e] eqn:E;
    try discriminate Hfin; eexists; (split; [reflexivity|split; assumption]).
Qed.

Lemma float_of_int_exact z :
  (Z.abs z <= 2 ^ 53)%Z ->
  exists f, float_of_int z = Ok f /\ finite f /\ B2Q f == inject_Z z.
Proof.
  intros Hz. pose proof (RN_Z z Hz) as E.
  destruct (float_of_int_RN z) as (f & Hf & Hfin & Hv).
  - rewrite E. apply Qle_lt_trans with (bpow 53); [|apply bpow_lt; lia].
    rewrite (bpow_Z 53) by lia. apply Qabs_Qle_condition.
    rewrite <- inject_Z_opp, <- !Zle_Qle. lia.
  - exists f. rewrite <- E. auto.
Qed.

Lemma SF2Q_raw_int z : SF2Q (raw_int z) == inject_Z z.
Proof.
  destruct z as [|p|p]; cbn [raw_int].
  - reflexivity.
  - rewrite SF2Q_finite. unfold sgn. change (bpow 0) with 1. ring.
  - rewrite SF2Q_finite. unfold sgn. change (bpow 0) with 1.
    change (Zneg p) with (- Zpos p)%Z. rewrite inject_Z_opp. ring.
Qed.

Lemma truediv_RN a b :
  b <> 0%Z -> Qabs (RN (inject_Z a / inject_Z b)) < bpow 1024 ->
  exists f, truediv a b = Ok f /\ finite f /\ B2Q f == RN (inject_Z a / inject_Z b).
Proof.
  intros Hb H. unfold truediv.
  destruct (Z.eqb_spec b 0) as [|_]; [contradiction|].
  assert (Hr : rounds_to (SFdiv prec emax (raw_int a) (raw_int b))
                 (inject_Z a / inject_Z b)).
  { eapply rounds_to_compat; [|apply SFdiv_rounds_gen].
    - rewrite !SF2Q_raw_int. reflexivity.
    - destruct a; reflexivity.
    - destruct b; reflexivity.
    - rewrite SF2Q_raw_int. change 0 with (inject_Z 0). rewrite inject_Z_injective. exact Hb. }
  destruct (rounds_to_SF2Prim _ _ Hr H) as [Hf Hv].
  destruct (rounds_to_finite _ _ Hr H) as [Hfin _].
  destruct (SFdiv prec emax (raw_int a) (raw_int b)) as [s|s| |s m e] eqn:E;
    try discriminate Hfin; eexists; (split; [reflexivity|split; assumption]).
Qed.

Lemma Qtrunc_compat x y : x == y -> Qtrunc x = Qtrunc y.
Proof.
  intros Hxy. unfold Qtrunc, Qceiling.
  assert (Qle_bool 0 x = Qle_bool 0 y) as ->.
  { apply eq_true_iff_eq. rewrite !Qle_bool_iff, Hxy. reflexivity. }
  rewrite (Qfloor_comp _ _ Hxy).
  assert (- x == - y) as E by (rewrite Hxy; reflexivity).
  rewrite (Qfloor_comp _ _ E). reflexivity.
Qed.

Lemma Qtrunc_nonneg x : 0 <= x -> Qtrunc x = Qfloor x.
Proof. intros H. unfold Qtrunc. apply Qle_bool_iff in H. rewrite H. reflexivity. Qed.

Lemma Qtrunc_neg x : x < 0 -> Qtrunc x = Qceiling x.
Proof.
  intros H. unfold Qtrunc. destruct (Qle_bool 0 x) eqn:E; [|reflexivity].
  apply Qle_bool_iff in E. lra.
Qed.

Lemma Qtrunc_mono x y : x <= y -> (Qtrunc x <= Qtrunc y)%Z.
Proof.
  intros Hxy.
  destruct (Qlt_le_dec x 0) as [Hx|Hx]; destruct (Qlt_le_dec y 0) as [Hy|Hy].
  - rewrite !Qtrunc_neg by assumption. apply Qceiling_resp_le. exact Hxy.
  - rewrite (Qtrunc_neg x Hx), (Qtrunc_nonneg y Hy).
    assert (Qceiling x <= 0)%Z.
    { change 0%Z with (Qceiling 0). apply Qceiling_resp_le. lra. }
    assert (0 <= Qfloor y)%Z.
    { change 0%Z with (Qfloor 0). apply Qfloor_resp_le. exact Hy. }
    lia.
  - lra.
  - rewrite !Qtrunc_nonneg by assumption. apply Qfloor_resp_le. exact Hxy.
Qed.

Lemma Qtrunc_Z z : Qtrunc (inject_Z z) = z.
Proof.
  unfold Qtrunc. destruct (Qle_bool 0 (inject_Z z)); [apply Qfloor_Z|apply Qceiling_Z].
Qed.

Lemma Qfloor_float m e :
  Qfloor (inject_Z (Zpos m) * bpow e) =
  match e with
  | Z0 => Zpos m
  | Zpos p => (Zpos m * 2 ^ Zpos p)%Z
  | Zneg p => (Zpos m / 2 ^ Zpos p)%Z
  end.
Proof.
  destruct e as [|p|p].
  - etransitivity; [|apply Qfloor_Z]. apply Qfloor_comp. change (bpow 0) with 1. ring.
  - etransitivity; [|apply Qfloor_Z]. apply Qfloor_comp.
    rewrite inject_Z_mult, <- (bpow_Z (Zpos p)) by lia. reflexivity.
  - rewrite Zdiv_Qdiv. apply Qfloor_comp.
    change (Zneg p) with (- Zpos p)%Z. rewrite bpow_opp, (bpow_Z (Zpos p)) by lia.
    reflexivity.
Qed.

Lemma SFtrunc_spec s m e : SFtrunc s m e = Qtrunc (SF2Q (S754_finite s m e)).
Proof.
  pose proof (inject_Z_pos_lt m) as Hm. pose proof (bpow_pos e) as He.
  assert (0 < inject_Z (Zpos m) * bpow e) as Hv by (apply Qmult_lt_0_compat; assumption).
  unfold SFtrunc. rewrite <- Qfloor_float.
  rewrite (Qtrunc_compat _ _ (SF2Q_finite s m e)).
  destruct s; unfold sgn; cbn [cond_Zopp].
  - rewrite Qtrunc_neg by lra. unfold Qceiling. f_equal. apply Qfloor_comp. ring.
  - rewrite Qtrunc_nonneg by lra. apply Qfloor_comp. ring.
Qed.

Lemma int_of_float_trunc x : finite x -> int_of_float x = Ok (Qtrunc (B2Q x)).
Proof.
  unfold finite, int_of_float, B2Q. intros H.
  destruct (Prim2SF x) as [s|s| |s m e]; try discriminate H.
  - reflexivity.
  - rewrite SFtrunc_spec. reflexivity.
Qed.

(** *** Magnitudes *)

Lemma bounded_finite k x : fbounded k x -> finite x.
Proof. intros [H _]. exact H. Qed.

Lemma bounded_weaken j k x : (j <= k)%Z -> fbounded j x -> fbounded k x.
Proof.
  intros Hjk [Hf Hb]. split; [exact Hf|].
  apply Qle_trans with (bpow j); [exact Hb|apply bpow_le; exact Hjk].
Qed.

Lemma bounded_of_range k x :
  finite x -> - bpow k <= B2Q x <= bpow k -> fbounded k x.
Proof. intros Hf H. split; [exact Hf|]. apply Qabs_Qle_condition. exact H. Qed.

Lemma mul_bounded j k x y :
  fbounded j x -> fbounded k y -> (-1074 <= j + k <= 1023)%Z ->
  fbounded (j + k) (x * y) /\ B2Q (x * y) == RN (B2Q x * B2Q y).
Proof.
  intros [Hfx Hbx] [Hfy Hby] Hjk.
  assert (Qabs (B2Q x * B2Q y) <= bpow (j + k)) as HX.
  { rewrite Qabs_Qmult, bpow_add.
    pose proof (Qabs_nonneg (B2Q x)). pose proof (Qabs_nonneg (B2Q y)).
    apply Qmult_le_compat_nonneg; split; assumption. }
  assert (Qabs (RN (B2Q x * B2Q y)) <= bpow (j + k)) as HR
    by (apply RN_abs_le; [exact HX|apply RN_bpow; lia]).
  destruct (mul_RN x y Hfx Hfy) as [Hf Hv].
  { apply Qle_lt_trans with (bpow (j + k)); [exact HR|apply bpow_lt; lia]. }
  split; [split; [exact Hf|rewrite Hv; exact HR]|exact Hv].
Qed.

Lemma add_bounded j k x y :
  fbounded j x -> fbounded k y -> (-1075 <= Z.max j k < 1023)%Z ->
  fbounded (Z.max j k + 1) (x + y) /\ B2Q (x + y) == RN (B2Q x + B2Q y).
Proof.
  intros [Hfx Hbx] [Hfy Hby] Hjk.
  assert (Qabs (B2Q x + B2Q y) <= bpow (Z.max j k + 1)) as HX.
  { eapply Qle_trans; [apply Qabs_triangle|].
    rewrite bpow_add, bpow_1.
    assert (bpow j <= bpow (Z.max j k)) by (apply bpow_le; lia).
    assert (bpow k <= bpow (Z.max j k)) by (apply bpow_le; lia).
    lra. }
  assert (Qabs (RN (B2Q x + B2Q y)) <= bpow (Z.max j k + 1)) as HR
    by (apply RN_abs_le; [exact HX|apply RN_bpow; lia]).
  destruct (add_RN x y Hfx Hfy) as [Hf Hv].
  { apply Qle_lt_trans with (bpow (Z.max j k + 1)); [exact HR|apply bpow_lt; lia]. }
  split; [split; [exact Hf|rewrite Hv; exact HR]|exact Hv].
Qed.

Lemma sub_bounded j k x y :
  fbounded j x -> fbounded k y -> (-1075 <= Z.max j k < 1023)%Z ->
  fbounded (Z.max j k + 1) (x - y) /\ B2Q (x - y) == RN (B2Q x - B2Q y).
Proof.
  intros [Hfx Hbx] [Hfy Hby] Hjk.
  assert (Qabs (B2Q x - B2Q y) <= bpow (Z.max j k + 1)) as HX.
  { unfold Qminus. eapply Qle_trans; [apply Qabs_triangle|].
    rewrite Qabs_opp, bpow_add, bpow_1.
    assert (bpow j <= bpow (Z.max j k)) by (apply bpow_le; lia).
    assert (bpow k <= bpow (Z.max j k)) by (apply bpow_le; lia).
    lra. }
  assert (Qabs (RN (B2Q x - B2Q y)) <= bpow (Z.max j k + 1)) as HR
    by (apply RN_abs_le; [exact HX|apply RN_bpow; lia]).
  destruct (sub_RN x y Hfx Hfy) as [Hf Hv].
  { apply Qle_lt_trans with (bpow (Z.max j k + 1)); [exact HR|apply bpow_lt; lia]. }
  split; [split; [exact Hf|rewrite Hv; exact HR]|exact Hv].
Qed.

Lemma RN_nonneg X : 0 <= X -> 0 <= RN X.
Proof. intros H. rewrite <- RN_0. apply RN_mono. exact H. Qed.

Lemma float_of_int_bounded k z :
  (Z.abs z <= 2 ^ k)%Z -> (0 <= k <= 1023)%Z ->
  exists f, float_of_int z = Ok f /\ fbounded k f /\ B2Q f == RN (inject_Z z).
Proof.
  intros Hz Hk.
  assert (Qabs (inject_Z z) <= bpow k) as HX.
  { rewrite (bpow_Z k) by lia. apply Qabs_Qle_condition.
    rewrite <- inject_Z_opp, <- !Zle_Qle. lia. }
  assert (Qabs (RN (inject_Z z)) <= bpow k) as HR
    by (apply RN_abs_le; [exact HX|apply RN_bpow; lia]).
  destruct (float_of_int_RN z) as (f & Hf & Hfin & Hv).
  { apply Qle_lt_trans with (bpow k); [exact HR|apply bpow_lt; lia]. }
  exists f. split; [exact Hf|]. split; [|exact Hv].
  split; [exact Hfin|rewrite Hv; exact HR].
Qed.

(** [y / h] for a row [y] of an image of height [h] lies in [[0, 1]]. *)
Lemma truediv_unit y h :
  (0 <= y < h)%Z ->
  exists t, truediv y h = Ok t /\ finite t /\ 0 <= B2Q t <= 1.
Proof.
  intros Hyh.
  assert (0 < inject_Z h) as Hh by (change 0 with (inject_Z 0); rewrite <- Zlt_Qlt; lia).
  assert (0 <= inject_Z y) as Hy by (change 0 with (inject_Z 0); rewrite <- Zle_Qle; lia).
  assert (inject_Z y <= inject_Z h) as Hle by (rewrite <- Zle_Qle; lia).
  assert (0 <= inject_Z y / inject_Z h <= 1) as HX.
  { split; [apply Qle_shift_div_l; lra|apply Qle_shift_div_r; lra]. }
  assert (0 <= RN (inject_Z y / inject_Z h) <= 1) as HR.
  { apply RN_between; [reflexivity|apply (RN_Z 1); simpl; lia|exact HX]. }
  destruct (truediv_RN y h) as (t & Ht & Hfin & Hv).
  - lia.
  - apply Qle_lt_trans with 1.
    + apply Qabs_Qle_condition. lra.
    + change 1 with (bpow 0). apply bpow_lt. lia.
  - exists t. split; [exact Ht|]. split; [exact Hfin|]. rewrite Hv. exact HR.
Qed.

(** *** The gradient never raises *)

Ltac float_const := vm_compute; first [reflexivity | discriminate | intuition discriminate].

Lemma smoothstep_range t :
  finite t -> 0 <= B2Q t <= 1 ->
  finite (smoothstep t) /\ 0 <= B2Q (smoothstep t) <= 3.
Proof.
  intros Hf Ht. unfold smoothstep.
  assert (fbounded 0 t) as Bt.
  { split; [exact Hf|]. change (bpow 0) with 1. apply Qabs_Qle_condition. lra. }
  assert (fbounded 1 2%float) as B2 by (split; float_const).
  assert (fbounded 2 3%float) as B3 by (split; float_const).
  assert (B2Q 2%float == 2) as E2 by float_const.
  assert (B2Q 3%float == 3) as E3 by float_const.
  destruct (mul_bounded 1 0 _ _ B2 Bt ltac:(lia)) as [B2t V2t].
  assert (0 <= B2Q (2 * t)%float <= 2) as R2t.
  { rewrite V2t. apply RN_between; [reflexivity|apply (RN_Z 2); simpl; lia|].
    rewrite E2. lra. }
  destruct (sub_bounded 2 1 _ _ B3 B2t ltac:(lia)) as [Bu Vu].
  assert (1 <= B2Q (3 - 2 * t)%float <= 3) as Ru.
  { rewrite Vu. apply RN_between; [apply (RN_Z 1); simpl; lia|apply (RN_Z 3); simpl; lia|].
    rewrite E3. lra. }
  destruct (mul_bounded 0 0 _ _ Bt Bt ltac:(lia)) as [Btt Vtt].
  assert (0 <= B2Q (t * t)%float <= 1) as Rtt.
  { rewrite Vtt. apply RN_between; [reflexivity|apply (RN_Z 1); simpl; lia|]. nra. }
  destruct (mul_bounded 0 3 _ _ Btt Bu ltac:(lia)) as [Bte Vte].
  split; [exact (bounded_finite _ _ Bte)|].
  rewrite Vte. apply RN_between; [reflexivity|apply (RN_Z 3); simpl; lia|]. nra.
Qed.

Lemma lerp_channel_total a b k frac :
  fbounded k frac -> (0 <= k <= 900)%Z -> channel_ok a -> channel_ok b ->
  exists v, lerp_channel a b frac = Ok v.
Proof.
  intros Bf Hk Ha Hb. unfold channel_ok in Ha, Hb. unfold lerp_channel, imulf, iaddf.
  destruct (float_of_int_bounded 8 (b - a)) as (d & Hd & Bd & _); [simpl; lia|lia|].
  rewrite Hd. cbn [bind].
  destruct (mul_bounded 8 k _ _ Bd Bf ltac:(lia)) as [Bp _].
  destruct (float_of_int_bounded 8 a) as (fa & Hfa & Bfa & _); [simpl; lia|lia|].
  rewrite Hfa. cbn [bind].
  destruct (add_bounded 8 (8 + k) _ _ Bfa Bp ltac:(lia)) as [Bs _].
  rewrite (int_of_float_trunc _ (bounded_finite _ _ Bs)). eexists. reflexivity.
Qed.

Lemma lerp_total c1 c2 k frac :
  fbounded k frac -> (0 <= k <= 900)%Z -> color_ok c1 -> color_ok c2 ->
  exists c, lerp c1 c2 frac = Ok c.
Proof.
  intros Bf Hk H1 H2. destruct c1 as [[r1 g1] b1], c2 as [[r2 g2] b2].
  destruct H1 as (Hr1 & Hg1 & Hb1), H2 as (Hr2 & Hg2 & Hb2). unfold lerp.
  destruct (lerp_channel_total r1 r2 k frac Bf Hk Hr1 Hr2) as [r ->].
  destruct (lerp_channel_total g1 g2 k frac Bf Hk Hg1 Hg2) as [g ->].
  destruct (lerp_channel_total b1 b2 k frac Bf Hk Hb1 Hb2) as [b ->].
  cbn [bind]. eexists. reflexivity.
Qed.

Local Close Scope Q_scope.

Lemma py_index_ok {A : Type} (xs : list A) (i : Z) :
  0 <= i < Z.of_nat (List.length xs) ->
  exists x, py_index xs i = Ok x /\ nth_error xs (Z.to_nat i) = Some x.
Proof.
  intros Hi. unfold py_index.
  destruct (Z.ltb_spec i 0) as [|_]; [lia|].
  destruct (Z.ltb_spec i 0) as [|_]; [lia|].
  destruct (Z.leb_spec (Z.of_nat (List.length xs)) i) as [|_]; [lia|]. cbn [orb].
  destruct (nth_error xs (Z.to_nat i)) as [x|] eqn:E.
  - exists x. split; reflexivity.
  - apply nth_error_None in E. lia.
Qed.

Local Open Scope Q_scope.

(** The number of stops [n]: a Python list has fewer than [2^63] items. *)
Lemma gradient_row_total h colors y :
  (0 <= y < h)%Z ->
  (2 <= Z.of_nat (List.length colors) < 2 ^ 63)%Z ->
  Forall color_ok colors ->
  exists c, gradient_row h colors y = Ok c.
Proof.
  intros Hy Hn Hok. unfold gradient_row.
  set (n := Z.of_nat (List.length colors)) in *.
  destruct (truediv_unit y h Hy) as (t & -> & Ft & Rt). cbn [bind].
  destruct (smoothstep_range t Ft Rt) as [Fte Rte].
  set (te := smoothstep t) in *.
  assert (fbounded 2 te) as Bte.
  { split; [exact Fte|]. apply Qabs_Qle_condition.
    change (bpow 2) with 4. lra. }
  unfold fmuli.
  destruct (float_of_int_bounded 63 (n - 1)) as (fn & -> & Bfn & Vfn); [lia|lia|].
  cbn [bind].
  destruct (mul_bounded 2 63 _ _ Bte Bfn ltac:(lia)) as [Bpos Vpos].
  assert (0 <= B2Q (te * fn)%float) as Ppos.
  { rewrite Vpos. apply RN_nonneg.
    assert (0 <= B2Q fn).
    { rewrite Vfn. apply RN_nonneg. change 0 with (inject_Z 0). rewrite <- Zle_Qle. lia. }
    nra. }
  rewrite (int_of_float_trunc _ (bounded_finite _ _ Bpos)). cbn [bind].
  set (ip := Qtrunc (B2Q (te * fn)%float)).
  assert (0 <= ip)%Z as Hip.
  { subst ip. rewrite <- (Qtrunc_Z 0). apply Qtrunc_mono. exact Ppos. }
  unfold fsubi.
  destruct (float_of_int_bounded 63 (Z.min ip (n - 2))) as (fi & -> & Bfi & _); [lia|lia|].
  cbn [bind].
  destruct (sub_bounded 65 63 _ _ Bpos Bfi ltac:(lia)) as [Bfrac _].
  destruct (py_index_ok colors (Z.min ip (n - 2))) as (c1 & -> & N1); [fold n; lia|].
  destruct (py_index_ok colors (Z.min ip (n - 2) + 1)) as (c2 & -> & N2); [fold n; lia|].
  cbn [bind].
  apply (lerp_total c1 c2 _ _ Bfrac); [simpl; lia| |].
  - eapply Forall_forall; [exact Hok|]. eapply nth_error_In. exact N1.
  - eapply Forall_forall; [exact Hok|]. eapply nth_error_In. exact N2.
Qed.

(** *** Rows that fall on a stop *)

Lemma fbounded_of_value k x q :
  finite x -> B2Q x == q -> Qabs q <= bpow k -> fbounded k x.
Proof. intros Hf Hv Hq. split; [exact Hf|rewrite Hv; exact Hq]. Qed.

Lemma RN_half : RN (1 # 2) == 1 # 2.
Proof. apply (RN_bpow (-1)). lia. Qed.

Lemma RN_quarter : RN (1 # 4) == 1 # 4.
Proof. apply (RN_bpow (-2)). lia. Qed.

(** [smoothstep] at a point where no step of it rounds. *)
Lemma smoothstep_exact t q :
  finite t -> B2Q t == q -> 0 <= q <= 1 ->
  RN (2 * q) == 2 * q -> RN (3 - 2 * q) == 3 - 2 * q -> RN (q * q) == q * q ->
  RN (q * q * (3 - 2 * q)) == q * q * (3 - 2 * q) ->
  finite (smoothstep t) /\ B2Q (smoothstep t) == q * q * (3 - 2 * q).
Proof.
  intros Hf Hv Hq R1 R2 R3 R4. unfold smoothstep.
  assert (fbounded 0 t) as Bt.
  { apply (fbounded_of_value _ _ q Hf Hv). change (bpow 0) with 1.
    apply Qabs_Qle_condition. lra. }
  assert (fbounded 1 2%float) as B2 by (split; float_const).
  assert (fbounded 2 3%float) as B3 by (split; float_const).
  assert (B2Q 2%float == 2) as E2 by float_const.
  assert (B2Q 3%float == 3) as E3 by float_const.
  destruct (mul_bounded 1 0 _ _ B2 Bt ltac:(lia)) as [B2t V2t].
  rewrite E2, Hv, R1 in V2t.
  destruct (sub_bounded 2 1 _ _ B3 B2t ltac:(lia)) as [Bu Vu].
  rewrite E3, V2t, R2 in Vu.
  destruct (mul_bounded 0 0 _ _ Bt Bt ltac:(lia)) as [Btt Vtt].
  rewrite Hv, R3 in Vtt.
  destruct (mul_bounded 0 3 _ _ Btt Bu ltac:(lia)) as [Bte Vte].
  rewrite Vtt, Vu, R4 in Vte.
  split; [exact (bounded_finite _ _ Bte)|exact Vte].
Qed.

Lemma lerp_channel_at_zero a b frac :
  finite frac -> B2Q frac == 0 -> channel_ok a -> channel_ok b ->
  lerp_channel a b frac = Ok a.
Proof.
  intros Hf Hv Ha Hb. unfold channel_ok in Ha, Hb. unfold lerp_channel, imulf, iaddf.
  assert (fbounded 0 frac) as Bf.
  { apply (fbounded_of_value _ _ 0 Hf Hv). apply Qabs_Qle_condition.
    change (bpow 0) with 1. lra. }
  destruct (float_of_int_bounded 8 (b - a)) as (d & -> & Bd & _); [simpl; lia|lia|].
  cbn [bind].
  destruct (mul_bounded 8 0 _ _ Bd Bf ltac:(lia)) as [Bp Vp].
  assert (B2Q (d * frac)%float == 0) as Vp0.
  { rewrite Vp. apply RN_zero_eq. rewrite Hv. ring. }
  destruct (float_of_int_exact a) as (fa & -> & Ffa & Vfa);
    [change (2 ^ 53)%Z with 9007199254740992%Z; lia|].
  cbn [bind].
  assert (fbounded 8 fa) as Bfa.
  { apply (fbounded_of_value _ _ (inject_Z a) Ffa Vfa).
    rewrite (bpow_Z 8) by lia. apply Qabs_Qle_condition.
    rewrite <- inject_Z_opp, <- !Zle_Qle. simpl. lia. }
  destruct (add_bounded 8 8 _ _ Bfa Bp ltac:(lia)) as [Bs Vs].
  rewrite (int_of_float_trunc _ (bounded_finite _ _ Bs)). f_equal.
  rewrite <- (Qtrunc_Z a). apply Qtrunc_compat.
  rewrite Vs, Vfa, Vp0.
  assert (inject_Z a + 0 == inject_Z a) as -> by ring.
  apply RN_Z. change (2 ^ 53)%Z with 9007199254740992%Z. lia.
Qed.

Lemma lerp_at_zero c1 c2 frac :
  finite frac -> B2Q frac == 0 -> color_ok c1 -> color_ok c2 ->
  lerp c1 c2 frac = Ok c1.
Proof.
  intros Hf Hv H1 H2. destruct c1 as [[r1 g1] b1], c2 as [[r2 g2] b2].
  destruct H1 as (Hr1 & Hg1 & Hb1), H2 as (Hr2 & Hg2 & Hb2). unfold lerp.
  rewrite !lerp_channel_at_zero by assumption. reflexivity.
Qed.

(** When the eased position lands exactly on stop [i], the row has the
    colour of that stop. *)
Lemma gradient_row_on_stop h stops y t i c c' :
  truediv y h = Ok t ->
  finite (smoothstep t) ->
  B2Q (smoothstep t) * inject_Z (Z.of_nat (List.length stops) - 1) == inject_Z i ->
  (0 <= i <= Z.of_nat (List.length stops) - 2)%Z ->
  (Z.of_nat (List.length stops) <= 2 ^ 53)%Z ->
  nth_error stops (Z.to_nat i) = Some c -> nth_error stops (Z.to_nat (i + 1)) = Some c' ->
  color_ok c -> color_ok c' ->
  gradient_row h stops y = Ok c.
Proof.
  intros Ht Fte Vte Hi Hn N1 N2 Hc Hc'. unfold gradient_row. rewrite Ht. cbn [bind].
  set (n := Z.of_nat (List.length stops)) in *.
  set (te := smoothstep t) in *.
  assert (0 < inject_Z (n - 1)) as Hn1 by (change 0 with (inject_Z 0); rewrite <- Zlt_Qlt; lia).
  assert (0 <= inject_Z i) as Hi0 by (change 0 with (inject_Z 0); rewrite <- Zle_Qle; lia).
  assert (inject_Z i <= inject_Z (n - 1)) as Hi1 by (rewrite <- Zle_Qle; lia).
  assert (0 <= B2Q te <= 1) as Rte by (split; nra).
  assert (fbounded 0 te) as Bte.
  { split; [exact Fte|]. change (bpow 0) with 1. apply Qabs_Qle_condition. lra. }
  unfold fmuli.
  destruct (float_of_int_exact (n - 1)) as (fn & -> & Ffn & Vfn); [lia|]. cbn [bind].
  assert (fbounded 53 fn) as Bfn.
  { apply (fbounded_of_value _ _ (inject_Z (n - 1)) Ffn Vfn).
    rewrite (bpow_Z 53) by lia. apply Qabs_Qle_condition.
    rewrite <- inject_Z_opp, <- !Zle_Qle. lia. }
  destruct (mul_bounded 0 53 _ _ Bte Bfn ltac:(lia)) as [Bpos Vpos].
  assert (B2Q (te * fn)%float == inject_Z i) as Vpos'.
  { rewrite Vpos, Vfn, Vte. apply RN_Z. lia. }
  rewrite (int_of_float_trunc _ (bounded_finite _ _ Bpos)). cbn [bind].
  rewrite (Qtrunc_compat _ _ Vpos'), Qtrunc_Z.
  replace (Z.min i (n - 2)) with i by lia.
  unfold fsubi.
  destruct (float_of_int_exact i) as (fi & -> & Ffi & Vfi); [lia|]. cbn [bind].
  assert (fbounded 53 fi) as Bfi.
  { apply (fbounded_of_value _ _ (inject_Z i) Ffi Vfi).
    rewrite (bpow_Z 53) by lia. apply Qabs_Qle_condition.
    rewrite <- inject_Z_opp, <- !Zle_Qle. lia. }
  destruct (sub_bounded 53 53 _ _ Bpos Bfi ltac:(lia)) as [Bfrac Vfrac].
  assert (B2Q (te * fn - fi)%float == 0) as Vfrac'.
  { rewrite Vfrac. apply RN_zero_eq. rewrite Vpos', Vfi. ring. }
  destruct (py_index_ok stops i) as (x1 & -> & N1'); [fold n; lia|].
  destruct (py_index_ok stops (i + 1)) as (x2 & -> & N2'); [fold n; lia|].
  cbn [bind]. rewrite N1 in N1'. rewrite N2 in N2'.
  injection N1' as <-. injection N2' as <-.
  apply lerp_at_zero; [exact (bounded_finite _ _ Bfrac)|exact Vfrac'|exact Hc|exact Hc'].
Qed.

(** Row 0 has the colour of the first stop. *)
Lemma gradient_row_0 h c0 c1 rest :
  (1 <= h)%Z -> (Z.of_nat (List.length (c0 :: c1 :: rest)) <= 2 ^ 53)%Z ->
  color_ok c0 -> color_ok c1 ->
  gradient_row h (c0 :: c1 :: rest) 0 = Ok c0.
Proof.
  intros Hh Hn H0 H1.
  destruct (truediv_RN 0 h) as (t & Ht & Ft & Vt); [lia| |].
  { rewrite RN_zero_eq; [apply bpow_pos|]. change (inject_Z 0) with 0. unfold Qdiv. ring. }
  assert (B2Q t == 0) as Vt0.
  { rewrite Vt. apply RN_zero_eq. change (inject_Z 0) with 0. unfold Qdiv. ring. }
  destruct (smoothstep_exact t 0 Ft Vt0) as [Fte Vte]; try (apply RN_Z; simpl; lia); [lra|].
  apply (gradient_row_on_stop h _ 0 t 0 c0 c1); try assumption; try reflexivity.
  - rewrite Vte. change (inject_Z 0) with 0. ring.
  - cbn [List.length]. lia.
Qed.

(** The middle row of a three-stop gradient of even height has the colour
    of the middle stop. *)
Lemma gradient_row_middle h c0 c1 c2 :
  (2 <= h)%Z -> Z.even h = true ->
  color_ok c1 -> color_ok c2 ->
  gradient_row h [c0; c1; c2] (h / 2) = Ok c1.
Proof.
  intros Hh He H1 H2.
  assert (h = 2 * (h / 2))%Z as E.
  { apply Z.even_spec in He. destruct He as [k ->].
    rewrite Z.mul_comm, Z.div_mul by lia. ring. }
  assert (0 < inject_Z (h / 2)) as Hk
    by (change 0 with (inject_Z 0); rewrite <- Zlt_Qlt; lia).
  assert (inject_Z (h / 2) / inject_Z h == 1 # 2) as Eq.
  { rewrite E at 2. rewrite inject_Z_mult. change (inject_Z 2) with 2. field. lra. }
  destruct (truediv_RN (h / 2) h) as (t & Ht & Ft & Vt); [lia| |].
  { rewrite Eq, RN_half. reflexivity. }
  rewrite Eq, RN_half in Vt.
  destruct (smoothstep_exact t (1 # 2) Ft Vt) as [Fte Vte].
  - lra.
  - assert (2 * (1 # 2) == inject_Z 1) as -> by (unfold Qeq; reflexivity).
    apply RN_Z. simpl. lia.
  - assert (3 - 2 * (1 # 2) == inject_Z 2) as -> by (unfold Qeq; reflexivity).
    apply RN_Z. simpl. lia.
  - apply RN_quarter.
  - assert ((1 # 2) * (1 # 2) * (3 - 2 * (1 # 2)) == 1 # 2) as -> by (unfold Qeq; reflexivity).
    apply RN_half.
  - apply (gradient_row_on_stop h _ (h / 2) t 1 c1 c2); try assumption; try reflexivity.
    + rewrite Vte. unfold Qeq. reflexivity.
    + cbn [List.length]. lia.
    + cbn [List.length]. lia.
Qed.

(** *** What [lerp] computes *)

Lemma RN_B2Q x : RN (B2Q x) == B2Q x.
Proof. apply RN_SF2Q. apply valid_Prim2SF. Qed.

Lemma inject_Z_channel v : channel_ok v -> Qabs (inject_Z v) <= bpow 8.
Proof.
  unfold channel_ok. intros Hv. rewrite (bpow_Z 8) by lia. apply Qabs_Qle_condition.
  rewrite <- inject_Z_opp, <- !Zle_Qle. simpl. lia.
Qed.

Lemma lerp_channel_spec a b k frac :
  fbounded k frac -> (0 <= k <= 900)%Z -> channel_ok a -> channel_ok b ->
  lerp_channel a b frac = Ok (lerp_value a b (B2Q frac)).
Proof.
  intros Bf Hk Ha Hb. pose proof Ha as Ha'. pose proof Hb as Hb'.
  unfold channel_ok in Ha', Hb'. unfold lerp_channel, imulf, iaddf, lerp_value.
  destruct (float_of_int_exact (b - a)) as (d & -> & Fd & Vd);
    [change (2 ^ 53)%Z with 9007199254740992%Z; lia|].
  cbn [bind].
  assert (fbounded 8 d) as Bd.
  { apply (fbounded_of_value _ _ (inject_Z (b - a)) Fd Vd).
    rewrite (bpow_Z 8) by lia. apply Qabs_Qle_condition.
    rewrite <- inject_Z_opp, <- !Zle_Qle. simpl. lia. }
  destruct (mul_bounded 8 k _ _ Bd Bf ltac:(lia)) as [Bp Vp].
  destruct (float_of_int_exact a) as (fa & -> & Ffa & Vfa);
    [change (2 ^ 53)%Z with 9007199254740992%Z; lia|].
  cbn [bind].
  assert (fbounded 8 fa) as Bfa
    by (apply (fbounded_of_value _ _ (inject_Z a) Ffa Vfa), inject_Z_channel; exact Ha).
  destruct (add_bounded 8 (8 + k) _ _ Bfa Bp ltac:(lia)) as [Bs Vs].
  rewrite (int_of_float_trunc _ (bounded_finite _ _ Bs)). f_equal.
  apply Qtrunc_compat. rewrite Vs, Vfa, Vp, Vd. reflexivity.
Qed.

Lemma lerp_value_compat a b p q : p == q -> lerp_value a b p = lerp_value a b q.
Proof. intros H. unfold lerp_value. apply Qtrunc_compat. rewrite H. reflexivity. Qed.

(** A channel follows the interpolation fraction: upwards when the second
    stop is the larger one, downwards when it is the smaller one. *)
Lemma lerp_value_mono_up a b p q :
  (a <= b)%Z -> p <= q -> (lerp_value a b p <= lerp_value a b q)%Z.
Proof.
  intros Hab Hpq. unfold lerp_value. apply Qtrunc_mono, RN_mono.
  assert (RN (inject_Z (b - a) * p) <= RN (inject_Z (b - a) * q)).
  { apply RN_mono.
    assert (0 <= inject_Z (b - a)) by (change 0 with (inject_Z 0); rewrite <- Zle_Qle; lia).
    nra. }
  lra.
Qed.

Lemma lerp_value_mono_down a b p q :
  (b <= a)%Z -> p <= q -> (lerp_value a b q <= lerp_value a b p)%Z.
Proof.
  intros Hab Hpq. unfold lerp_value. apply Qtrunc_mono, RN_mono.
  assert (RN (inject_Z (b - a) * q) <= RN (inject_Z (b - a) * p)).
  { apply RN_mono.
    assert (inject_Z (b - a) <= 0) by (change 0 with (inject_Z 0); rewrite <- Zle_Qle; lia).
    nra. }
  lra.
Qed.

Lemma lerp_spec c1 c2 k frac :
  fbounded k frac -> (0 <= k <= 900)%Z -> color_ok c1 -> color_ok c2 ->
  lerp c1 c2 frac = Ok (lerp_color c1 c2 (B2Q frac)).
Proof.
  intros Bf Hk H1 H2. destruct c1 as [[r1 g1] b1], c2 as [[r2 g2] b2].
  destruct H1 as (Hr1 & Hg1 & Hb1), H2 as (Hr2 & Hg2 & Hb2). unfold lerp, lerp_color.
  rewrite !(lerp_channel_spec _ _ k) by assumption. reflexivity.
Qed.

(** With two stops the row colour is [lerp] of the two stops at the eased
    position. *)
Lemma gradient_row_two_stops h c1 c2 y :
  (0 <= y < h)%Z -> color_ok c1 -> color_ok c2 ->
  exists t,
    truediv y h = Ok t /\ finite t /\ 0 <= B2Q t <= 1 /\
    B2Q t == RN (inject_Z y / inject_Z h) /\
    gradient_row h [c1; c2] y = Ok (lerp_color c1 c2 (B2Q (smoothstep t))).
Proof.
  intros Hy H1 H2.
  destruct (truediv_unit y h Hy) as (t & Ht & Ft & Rt).
  assert (B2Q t == RN (inject_Z y / inject_Z h)) as Vt.
  { destruct (truediv_RN y h) as (t' & Ht' & _ & Vt'); [lia| |].
    - destruct (Z.eq_dec y 0) as [->|Hy0].
      + rewrite RN_zero_eq; [apply bpow_pos|]. change (inject_Z 0) with 0. unfold Qdiv. ring.
      + assert (0 < inject_Z h) by (change 0 with (inject_Z 0); rewrite <- Zlt_Qlt; lia).
        assert (0 <= inject_Z y) by (change 0 with (inject_Z 0); rewrite <- Zle_Qle; lia).
        assert (inject_Z y <= inject_Z h) by (rewrite <- Zle_Qle; lia).
        apply no_overflow. apply Qle_trans with 1.
        * apply Qabs_Qle_condition. split.
          -- apply Qle_trans with 0; [lra|]. apply Qle_shift_div_l; lra.
          -- apply Qle_shift_div_r; lra.
        * change 1 with (bpow 0). apply bpow_le. lia.
    - rewrite Ht in Ht'. injection Ht' as <-. exact Vt'. }
  exists t. split; [exact Ht|]. split; [exact Ft|]. split; [exact Rt|]. split; [exact Vt|].
  unfold gradient_row. rewrite Ht. cbn [bind List.length].
  change (Z.of_nat 2 - 1)%Z with 1%Z. change (Z.of_nat 2 - 2)%Z with 0%Z.
  destruct (smoothstep_range t Ft Rt) as [Fte Rte].
  set (te := smoothstep t) in *.
  assert (fbounded 2 te) as Bte.
  { split; [exact Fte|]. apply Qabs_Qle_condition. change (bpow 2) with 4. lra. }
  unfold fmuli.
  destruct (float_of_int_exact 1) as (f1 & -> & Ff1 & Vf1); [simpl; lia|]. cbn [bind].
  assert (fbounded 0 f1) as Bf1.
  { apply (fbounded_of_value _ _ (inject_Z 1) Ff1 Vf1). apply Qabs_Qle_condition.
    change (bpow 0) with 1. change (inject_Z 1) with 1. lra. }
  destruct (mul_bounded 2 0 _ _ Bte Bf1 ltac:(lia)) as [Bpos Vpos].
  assert (B2Q (te * f1)%float == B2Q te) as Vpos'.
  { rewrite Vpos, Vf1. change (inject_Z 1) with 1.
    assert (B2Q te * 1 == B2Q te) as -> by ring. apply RN_B2Q. }
  rewrite (int_of_float_trunc _ (bounded_finite _ _ Bpos)). cbn [bind].
  assert (0 <= Qtrunc (B2Q (te * f1)%float))%Z as Hip.
  { rewrite <- (Qtrunc_Z 0). apply Qtrunc_mono. rewrite Vpos'. change (inject_Z 0) with 0. lra. }
  replace (Z.min (Qtrunc (B2Q (te * f1)%float)) 0) with 0%Z by lia.
  unfold fsubi.
  destruct (float_of_int_exact 0) as (f0 & -> & Ff0 & Vf0); [simpl; lia|]. cbn [bind].
  assert (fbounded 0 f0) as Bf0.
  { apply (fbounded_of_value _ _ (inject_Z 0) Ff0 Vf0). apply Qabs_Qle_condition.
    change (bpow 0) with 1. change (inject_Z 0) with 0. lra. }
  destruct (sub_bounded 2 0 _ _ Bpos Bf0 ltac:(lia)) as [Bfrac Vfrac].
  assert (B2Q (te * f1 - f0)%float == B2Q te) as Vfrac'.
  { rewrite Vfrac, Vpos', Vf0. change (inject_Z 0) with 0.
    assert (B2Q te - 0 == B2Q te) as -> by ring. apply RN_B2Q. }
  cbn [py_index List.length nth_error Z.to_nat].
  change (py_index [c1; c2] 0) with (Ok c1 : result color).
  change (py_index [c1; c2] (0 + 1)) with (Ok c2 : result color). cbn [bind].
  rewrite (lerp_spec c1 c2 _ _ Bfrac) by (assumption || lia).
  f_equal. destruct c1 as [[r1 g1] b1], c2 as [[r2 g2] b2]. unfold lerp_color.
  rewrite !(lerp_value_compat _ _ _ _ Vfrac'). reflexivity.
Qed.

(** *** The eased position as a function of the value *)

Lemma smoothstep_value_compat p q : p == q -> smoothstep_value p == smoothstep_value q.
Proof. intros H. unfold smoothstep_value. rewrite H. reflexivity. Qed.

Lemma smoothstep_spec t :
  finite t -> 0 <= B2Q t <= 1 ->
  finite (smoothstep t) /\ B2Q (smoothstep t) == smoothstep_value (B2Q t).
Proof.
  intros Hf Ht. unfold smoothstep, smoothstep_value.
  assert (fbounded 0 t) as Bt.
  { split; [exact Hf|]. change (bpow 0) with 1. apply Qabs_Qle_condition. lra. }
  assert (fbounded 1 2%float) as B2 by (split; float_const).
  assert (fbounded 2 3%float) as B3 by (split; float_const).
  assert (B2Q 2%float == 2) as E2 by float_const.
  assert (B2Q 3%float == 3) as E3 by float_const.
  destruct (mul_bounded 1 0 _ _ B2 Bt ltac:(lia)) as [B2t V2t].
  destruct (sub_bounded 2 1 _ _ B3 B2t ltac:(lia)) as [Bu Vu].
  destruct (mul_bounded 0 0 _ _ Bt Bt ltac:(lia)) as [Btt Vtt].
  destruct (mul_bounded 0 3 _ _ Btt Bu ltac:(lia)) as [Bte Vte].
  split; [exact (bounded_finite _ _ Bte)|].
  rewrite Vte, Vtt, Vu, V2t, E2, E3. reflexivity.
Qed.

Lemma RN_le_Z X z : (Z.abs z <= 2 ^ 53)%Z -> X <= inject_Z z -> RN X <= inject_Z z.
Proof. intros Hz H. rewrite <- (RN_Z z Hz). apply RN_mono, H. Qed.

Lemma RN_ge_Z X z : (Z.abs z <= 2 ^ 53)%Z -> inject_Z z <= X -> inject_Z z <= RN X.
Proof. intros Hz H. rewrite <- (RN_Z z Hz). apply RN_mono, H. Qed.

(** On an interval [lo, hi] of [0, 1] the eased position lies between the
    two values obtained by taking the increasing factor at one end and the
    decreasing factor at the other. *)
Lemma smoothstep_value_enclosed lo hi q :
  0 <= lo -> lo <= q -> q <= hi -> hi <= 1 ->
  smoothstep_below lo hi <= smoothstep_value q <= smoothstep_below hi lo.
Proof.
  intros H0 H1 H2 H3. unfold smoothstep_below, smoothstep_value.
  assert (forall a b, 0 <= a -> a <= b -> RN (a * a) <= RN (b * b)) as Hsq
    by (intros a b Ha Hab; apply RN_mono; nra).
  assert (forall a b, a <= b -> b <= 1 ->
            1 <= RN (3 - RN (2 * b)) /\ RN (3 - RN (2 * b)) <= RN (3 - RN (2 * a))) as Hu.
  { intros a b Hab Hb.
    assert (RN (2 * a) <= RN (2 * b)) by (apply RN_mono; lra).
    assert (RN (2 * b) <= 2).
    { apply (RN_le_Z _ 2); [simpl; lia|]. change (inject_Z 2) with 2. lra. }
    split.
    - apply (RN_ge_Z _ 1); [simpl; lia|]. change (inject_Z 1) with 1. lra.
    - apply RN_mono. lra. }
  assert (forall a, 0 <= a -> 0 <= RN (a * a)) as Hnn by (intros a Ha; apply RN_nonneg, Qmult_le_0_compat; assumption).
  destruct (Hu q hi H2 H3) as [U1 U2]. destruct (Hu lo q H1 ltac:(lra)) as [U3 U4].
  pose proof (Hsq lo q H0 H1) as S1. pose proof (Hsq q hi ltac:(lra) H2) as S2.
  pose proof (Hnn lo H0) as N1. pose proof (Hnn q ltac:(lra)) as N2.
  set (sl := RN (lo * lo)) in *. set (sq := RN (q * q)) in *. set (sh := RN (hi * hi)) in *.
  set (ul := RN (3 - RN (2 * lo))) in *. set (uq := RN (3 - RN (2 * q))) in *.
  set (uh := RN (3 - RN (2 * hi))) in *.
  clearbody sl sq sh ul uq uh. clear Hsq Hu Hnn.
  split; apply RN_mono; nra.
Qed.

(** *** Comparing floats *)

Lemma SF2Q_pos_lt s1 m1 e1 s2 m2 e2 :
  SpecFloat.valid_binary prec emax (S754_finite s1 m1 e1) = true ->
  SpecFloat.valid_binary prec emax (S754_finite s2 m2 e2) = true ->
  (e1 < e2)%Z ->
  inject_Z (Zpos m1) * bpow e1 < inject_Z (Zpos m2) * bpow e2.
Proof.
  intros V1 V2 He.
  apply valid_finite_canonical in V1, V2. destruct V1 as [C1 _], V2 as [C2 _].
  pose proof (inject_Z_pos_lt m1) as P1. pose proof (inject_Z_pos_lt m2) as P2.
  pose proof (bpow_pos e1) as Q1. pose proof (bpow_pos e2) as Q2.
  assert (0 < inject_Z (Zpos m1) * bpow e1) as X1 by (apply Qmult_lt_0_compat; assumption).
  assert (0 < inject_Z (Zpos m2) * bpow e2) as X2 by (apply Qmult_lt_0_compat; assumption).
  destruct (Qmag_spec _ X1) as [_ Hhi]. destruct (Qmag_spec _ X2) as [Hlo _].
  rewrite Qmag_float in Hhi, Hlo.
  apply Qlt_le_trans with (1 := Hhi). apply Qle_trans with (2 := Hlo).
  apply bpow_le. lia.
Qed.

Lemma SF2Q_pos_le m1 e m2 :
  (Zpos m1 <= Zpos m2)%Z ->
  inject_Z (Zpos m1) * bpow e <= inject_Z (Zpos m2) * bpow e.
Proof.
  intros H. apply Qmult_le_compat_r; [rewrite <- Zle_Qle; exact H|].
  apply Qlt_le_weak, bpow_pos.
Qed.

Lemma SFleb_sound x y :
  SpecFloat.valid_binary prec emax x = true -> SpecFloat.valid_binary prec emax y = true ->
  SFfinite x = true -> SFfinite y = true ->
  SFleb x y = true -> SF2Q x <= SF2Q y.
Proof.
  intros Vx Vy Fx Fy. unfold SFleb, SFcompare.
  destruct x as [sx|sx| |sx mx ex], y as [sy|sy| |sy my ey]; try discriminate; intros H.
  - change (SF2Q (S754_zero sx)) with 0. rewrite SF2Q_finite. destruct sy; [discriminate|].
    pose proof (inject_Z_pos_lt my). pose proof (bpow_pos ey).
    unfold sgn. assert (0 < inject_Z (Zpos my) * bpow ey) by (apply Qmult_lt_0_compat; assumption).
    lra.
  - change (SF2Q (S754_zero sy)) with 0. rewrite SF2Q_finite. destruct sx; [|discriminate].
    pose proof (inject_Z_pos_lt mx). pose proof (bpow_pos ex).
    unfold sgn. assert (0 < inject_Z (Zpos mx) * bpow ex) by (apply Qmult_lt_0_compat; assumption).
    lra.
  - rewrite !SF2Q_finite.
    pose proof (inject_Z_pos_lt mx). pose proof (bpow_pos ex).
    pose proof (inject_Z_pos_lt my). pose proof (bpow_pos ey).
    assert (0 < inject_Z (Zpos mx) * bpow ex) by (apply Qmult_lt_0_compat; assumption).
    assert (0 < inject_Z (Zpos my) * bpow ey) by (apply Qmult_lt_0_compat; assumption).
    destruct sx, sy; unfold sgn; try discriminate.
    + assert (inject_Z (Zpos my) * bpow ey <= inject_Z (Zpos mx) * bpow ex); [|lra].
      destruct (Z.compare_spec ex ey) as [->|Hlt|Hgt]; try discriminate.
      * apply SF2Q_pos_le.
        change (PosDef.Pos.compare_cont Eq mx my) with (Pos.compare mx my) in H.
        destruct (Pos.compare_spec mx my) as [->|Hm|Hm]; simpl in H; try discriminate; lia.
      * apply Qlt_le_weak. eapply SF2Q_pos_lt; eassumption.
    + lra.
    + assert (inject_Z (Zpos mx) * bpow ex <= inject_Z (Zpos my) * bpow ey); [|lra].
      destruct (Z.compare_spec ex ey) as [->|Hlt|Hgt]; try discriminate.
      * apply SF2Q_pos_le.
        change (PosDef.Pos.compare_cont Eq mx my) with (Pos.compare mx my) in H.
        destruct (Pos.compare_spec mx my) as [->|Hm|Hm]; simpl in H; try discriminate; lia.
      * apply Qlt_le_weak. eapply SF2Q_pos_lt; eassumption.
Qed.

Lemma leb_sound x y :
  finite x -> finite y -> (x <=? y)%float = true -> B2Q x <= B2Q y.
Proof.
  intros Fx Fy H. rewrite leb_spec in H.
  apply SFleb_sound; try assumption; apply valid_Prim2SF.
Qed.

(** *** Consecutive rows, checked by computation *)

Lemma succ_exact f n :
  finite f -> B2Q f == inject_Z n -> (0 <= n < 2 ^ 53)%Z ->
  finite (f + 1)%float /\ B2Q (f + 1)%float == inject_Z (n + 1).
Proof.
  intros Ff Vf Hn.
  assert (finite 1%float) as F1 by float_const.
  assert (B2Q 1%float == 1) as E1 by float_const.
  assert (RN (B2Q f + B2Q 1%float) == inject_Z (n + 1)) as E.
  { rewrite Vf, E1. change 1 with (inject_Z 1). rewrite <- inject_Z_plus.
    apply RN_Z. lia. }
  destruct (add_RN f 1%float Ff F1) as [Fs Vs].
  - rewrite E. apply Qle_lt_trans with (bpow 53); [|apply bpow_lt; lia].
    rewrite (bpow_Z 53) by lia. apply Qabs_Qle_condition.
    rewrite <- inject_Z_opp, <- !Zle_Qle. lia.
  - split; [exact Fs|]. rewrite Vs. exact E.
Qed.

Lemma unit_quotient y h : (0 <= y <= h)%Z -> (0 < h)%Z -> 0 <= inject_Z y / inject_Z h <= 1.
Proof.
  intros Hy Hh.
  assert (0 < inject_Z h) by (change 0 with (inject_Z 0); rewrite <- Zlt_Qlt; lia).
  assert (0 <= inject_Z y) by (change 0 with (inject_Z 0); rewrite <- Zle_Qle; lia).
  assert (inject_Z y <= inject_Z h) by (rewrite <- Zle_Qle; lia).
  split; [apply Qle_shift_div_l; lra|apply Qle_shift_div_r; lra].
Qed.

Lemma RN_unit X : 0 <= X <= 1 -> 0 <= RN X <= 1.
Proof.
  intros H. apply RN_between; [reflexivity|apply (RN_Z 1); simpl; lia|exact H].
Qed.

(** The eased position of row [y], computed on primitive floats. *)
Lemma eased_prim hf yf h y :
  finite hf -> B2Q hf == inject_Z h -> finite yf -> B2Q yf == inject_Z y ->
  (0 <= y <= h)%Z -> (0 < h)%Z ->
  finite (smoothstep (yf / hf)) /\ B2Q (smoothstep (yf / hf)) == eased h y.
Proof.
  intros Fh Vh Fy Vy Hy Hh.
  pose proof (RN_unit _ (unit_quotient y h Hy Hh)) as Hq.
  assert (RN (B2Q yf / B2Q hf) == RN (inject_Z y / inject_Z h)) as E
    by (rewrite Vy, Vh; reflexivity).
  destruct (div_RN yf hf Fy Fh) as [Ft Vt].
  - rewrite Vh. change 0 with (inject_Z 0). rewrite inject_Z_injective. lia.
  - rewrite E. apply Qle_lt_trans with 1; [|apply (bpow_lt 0 1024); lia].
    apply Qabs_Qle_condition. lra.
  - rewrite E in Vt.
    destruct (smoothstep_spec (yf / hf)%float Ft) as [Fte Vte]; [rewrite Vt; exact Hq|].
    split; [exact Fte|]. rewrite Vte. unfold eased. apply smoothstep_value_compat, Vt.
Qed.

Lemma eased_sorted_from_sound h n : forall hf yf prev y,
  eased_sorted_from hf yf prev n = true ->
  finite hf -> B2Q hf == inject_Z h -> finite yf -> B2Q yf == inject_Z y ->
  finite prev ->
  (0 <= y)%Z -> (y + Z.of_nat n <= h)%Z -> (0 < h < 2 ^ 53)%Z ->
  forall k, (0 <= k < Z.of_nat n)%Z ->
    (if (k =? 0)%Z then B2Q prev else eased h (y + k - 1)) <= eased h (y + k).
Proof.
  induction n as [|n IH]; intros hf yf prev y Hrun Fh Vh Fy Vy Fp Hy Hn Hh k Hk; [lia|].
  cbn [eased_sorted_from] in Hrun. apply andb_prop in Hrun. destruct Hrun as [Hle Hrest].
  destruct (eased_prim hf yf h y Fh Vh Fy Vy ltac:(lia) ltac:(lia)) as [Fte Vte].
  apply (leb_sound _ _ Fp Fte) in Hle.
  destruct (succ_exact yf y Fy Vy ltac:(lia)) as [Fy' Vy'].
  destruct (Z.eqb_spec k 0) as [->|Hk0].
  - rewrite Z.add_0_r, <- Vte. exact Hle.
  - pose proof (IH hf (yf + 1)%float _ (y + 1)%Z Hrest Fh Vh Fy' Vy' Fte
                  ltac:(lia) ltac:(lia) Hh (k - 1)%Z ltac:(lia)) as H.
    replace (y + 1 + (k - 1))%Z with (y + k)%Z in H by lia.
    destruct (Z.eqb_spec (k - 1) 0) as [Hk1|Hk1].
    + replace (y + k - 1)%Z with y by lia. rewrite <- Vte. exact H.
    + replace (y + 1 + (k - 1) - 1)%Z with (y + k - 1)%Z in H by lia. exact H.
Qed.

Lemma eased_sorted_sound hf h :
  eased_sorted hf h = true -> finite hf -> B2Q hf == inject_Z (Z.of_nat h) ->
  (0 < Z.of_nat h < 2 ^ 53)%Z -> steps_sorted (Z.of_nat h).
Proof.
  intros Hrun Fh Vh Hh y Hy Hy1.
  assert (finite 0%float) as F0 by float_const.
  assert (B2Q 0%float == inject_Z 0) as E0 by float_const.
  pose proof (eased_sorted_from_sound (Z.of_nat h) h hf 0%float 0%float 0 Hrun
                Fh Vh F0 E0 F0 ltac:(lia) ltac:(lia) Hh (y + 1)%Z ltac:(lia)) as H.
  destruct (Z.eqb_spec (y + 1) 0) as [|_]; [lia|].
  replace (0 + (y + 1) - 1)%Z with y in H by lia. exact H.
Qed.

Lemma heights_sorted_sound n : forall hf h,
  heights_sorted hf h n = true -> finite hf -> B2Q hf == inject_Z (Z.of_nat h) ->
  (0 < Z.of_nat h)%Z -> (Z.of_nat h + Z.of_nat n <= 2 ^ 53)%Z ->
  forall h', (Z.of_nat h <= h' < Z.of_nat h + Z.of_nat n)%Z -> steps_sorted h'.
Proof.
  induction n as [|n IH]; intros hf h Hrun Fh Vh Hh Hn h' Hh'; [lia|].
  cbn [heights_sorted] in Hrun. apply andb_prop in Hrun. destruct Hrun as [Hrow Hrest].
  destruct (Z.eq_dec h' (Z.of_nat h)) as [->|Hne].
  - apply (eased_sorted_sound hf h Hrow Fh Vh). lia.
  - destruct (succ_exact hf (Z.of_nat h) Fh Vh ltac:(lia)) as [Fh' Vh'].
    apply (IH (hf + 1)%float (Datatypes.S h) Hrest Fh').
    + rewrite Vh'. rewrite Nat2Z.inj_succ. reflexivity.
    + lia.
    + lia.
    + lia.
Qed.

Lemma steps_sorted_mono h : steps_sorted h ->
  forall y y', (0 <= y)%Z -> (y <= y')%Z -> (y' < h)%Z -> eased h y <= eased h y'.
Proof.
  intros Hs y y' Hy Hyy Hy'.
  replace y' with (y + Z.of_nat (Z.to_nat (y' - y)))%Z by lia.
  assert (y + Z.of_nat (Z.to_nat (y' - y)) < h)%Z as Hb by lia.
  induction (Z.to_nat (y' - y)) as [|d IH].
  - rewrite Z.add_0_r. apply Qle_refl.
  - apply Qle_trans with (eased h (y + Z.of_nat d)); [apply IH; lia|].
    replace (y + Z.of_nat (Datatypes.S d))%Z with (y + Z.of_nat d + 1)%Z by lia.
    apply Hs; lia.
Qed.

(** Up to 4096 rows the eased position never decreases from one row to the
    next. *)
Lemma eased_sorted_4096 h : (1 <= h <= 4096)%Z -> steps_sorted h.
Proof.
  intros Hh.
  apply (heights_sorted_sound 4096 1%float 1%nat).
  - vm_compute. reflexivity.
  - float_const.
  - float_const.
  - lia.
  - change (2 ^ 53)%Z with 9007199254740992%Z. lia.
  - lia.
Qed.

(** *** The last row *)

Lemma pieces_within_sound L U n : forall j,
  pieces_within L U j n = true -> (0 <= j)%Z -> (j + Z.of_nat n <= 16384)%Z ->
  forall q, j # 16384 < q -> q <= (j + Z.of_nat n) # 16384 ->
    L <= smoothstep_value q <= U.
Proof.
  induction n as [|n IH]; intros j Hrun Hj Hn q Hlo Hhi.
  - cbn [pieces_within] in *. rewrite Z.add_0_r in Hhi.
    exfalso. lra.
  - cbn [pieces_within] in Hrun.
    apply andb_prop in Hrun. destruct Hrun as [Hrun Hrest].
    apply andb_prop in Hrun. destruct Hrun as [HL HU].
    apply Qle_bool_iff in HL, HU.
    destruct (Qlt_le_dec ((j + 1) # 16384) q) as [Hgt|Hle].
    + apply (IH (j + 1)%Z Hrest); [lia|lia|exact Hgt|].
      replace (j + 1 + Z.of_nat n)%Z with (j + Z.of_nat (Datatypes.S n))%Z by lia. exact Hhi.
    + assert (0 <= j # 16384) by (unfold Qle; simpl; lia).
      assert ((j + 1) # 16384 <= 1) by (unfold Qle; simpl; lia).
      destruct (smoothstep_value_enclosed (j # 16384) ((j + 1) # 16384) q) as [H1 H2];
        try assumption; [lra|].
      split; lra.
Qed.

Lemma last_row_eased h : (28 <= h)%Z -> 254 # 255 <= eased h (h - 1) <= 256 # 255.
Proof.
  intros Hh. unfold eased.
  assert (27 # 28 <= inject_Z (h - 1) / inject_Z h) as Hq.
  { apply Qle_shift_div_l.
    - change 0 with (inject_Z 0). rewrite <- Zlt_Qlt. lia.
    - unfold Qle, Qmult, inject_Z. cbn [Qnum Qden]. rewrite Pos.mul_1_r. lia. }
  pose proof (RN_mono _ _ Hq) as Hlo.
  pose proof (RN_unit _ (unit_quotient (h - 1) h ltac:(lia) ltac:(lia))) as [_ Hhi].
  assert (15798 # 16384 < RN (27 # 28)) as Hc by (vm_compute; reflexivity).
  apply (pieces_within_sound _ _ 586 15798).
  - vm_compute. reflexivity.
  - lia.
  - simpl. lia.
  - lra.
  - change ((15798 + Z.of_nat 586) # 16384) with (16384 # 16384).
    assert (16384 # 16384 == 1) as -> by reflexivity. exact Hhi.
Qed.

Lemma lerp_value_near a b q :
  channel_ok a -> channel_ok b -> 254 # 255 <= q <= 256 # 255 ->
  (Z.abs (lerp_value a b q - b) <= 1)%Z.
Proof.
  unfold channel_ok. intros Ha Hb Hq. unfold lerp_value.
  assert (inject_Z (b - a - 1) <= inject_Z (b - a) * q <= inject_Z (b - a + 1)) as Hp.
  { assert (inject_Z (b - a - 1) == inject_Z (b - a) - 1) as ->
      by (unfold Qeq; simpl; lia).
    assert (inject_Z (b - a + 1) == inject_Z (b - a) + 1) as ->
      by (unfold Qeq; simpl; lia).
    assert (-255 <= inject_Z (b - a) <= 255) as Hd.
    { change (-255) with (inject_Z (-255)). change 255 with (inject_Z 255).
      rewrite <- !Zle_Qle. lia. }
    set (d := inject_Z (b - a)) in *. clearbody d.
    destruct (Qlt_le_dec d 0).
    + assert (0 <= (- d) * ((256 # 255) - q)) by (apply Qmult_le_0_compat; lra).
      assert (0 <= (- d) * (q - (254 # 255))) by (apply Qmult_le_0_compat; lra).
      split; lra.
    + assert (0 <= d * ((256 # 255) - q)) by (apply Qmult_le_0_compat; lra).
      assert (0 <= d * (q - (254 # 255))) by (apply Qmult_le_0_compat; lra).
      split; lra. }
  assert (inject_Z (b - a - 1) <= RN (inject_Z (b - a) * q) <= inject_Z (b - a + 1)) as Hr.
  { split; [apply RN_ge_Z|apply RN_le_Z]; try apply Hp;
      change (2 ^ 53)%Z with 9007199254740992%Z; lia. }
  assert (inject_Z (b - 1) <= inject_Z a + RN (inject_Z (b - a) * q) <= inject_Z (b + 1)) as Hs.
  { replace (b - 1)%Z with (a + (b - a - 1))%Z by lia.
    replace (b + 1)%Z with (a + (b - a + 1))%Z by lia.
    destruct Hr as [Hr1 Hr2]. split; rewrite inject_Z_plus; lra. }
  assert (b - 1 <= Qtrunc (RN (inject_Z a + RN (inject_Z (b - a) * q))) <= b + 1)%Z; [|lia].
  split.
  - rewrite <- (Qtrunc_Z (b - 1)). apply Qtrunc_mono, RN_ge_Z; [|apply Hs].
    change (2 ^ 53)%Z with 9007199254740992%Z. lia.
  - rewrite <- (Qtrunc_Z (b + 1)). apply Qtrunc_mono, RN_le_Z; [|apply Hs].
    change (2 ^ 53)%Z with 9007199254740992%Z. lia.
Qed.

(** The colour of row [y] of a two-stop gradient, through the value of its
    eased position. *)
Lemma gradient_row_eased h c1 c2 y :
  (0 <= y < h)%Z -> color_ok c1 -> color_ok c2 ->
  gradient_row h [c1; c2] y = Ok (lerp_color c1 c2 (eased h y)).
Proof.
  intros Hy H1 H2.
  destruct (gradient_row_two_stops h c1 c2 y Hy H1 H2) as (t & _ & Ft & Rt & Vt & ->).
  destruct (smoothstep_spec t Ft Rt) as [_ Vte].
  assert (B2Q (smoothstep t) == eased h y) as E.
  { rewrite Vte. unfold eased. apply smoothstep_value_compat, Vt. }
  f_equal. destruct c1 as [[r1 g1] b1], c2 as [[r2 g2] b2]. unfold lerp_color.
  rewrite !(lerp_value_compat _ _ _ _ E). reflexivity.
Qed.

Lemma lerp_color_near c1 c2 q :
  color_ok c1 -> color_ok c2 -> 254 # 255 <= q <= 256 # 255 -> near 1 (lerp_color c1 c2 q) c2.
Proof.
  destruct c1 as [[r1 g1] b1], c2 as [[r2 g2] b2].
  intros (Hr1 & Hg1 & Hb1) (Hr2 & Hg2 & Hb2) Hq. unfold lerp_color, near.
  repeat split; apply lerp_value_near; assumption.
Qed.

Lemma lerp_color_mono_up c1 c2 p q :
  channel_le c1 c2 -> p <= q -> channel_le (lerp_color c1 c2 p) (lerp_color c1 c2 q).
Proof.
  destruct c1 as [[r1 g1] b1], c2 as [[r2 g2] b2].
  intros (Hr & Hg & Hb) Hpq. unfold lerp_color, channel_le.
  repeat split; apply lerp_value_mono_up; assumption.
Qed.

Lemma lerp_color_mono_down c1 c2 p q :
  channel_le c2 c1 -> p <= q -> channel_le (lerp_color c1 c2 q) (lerp_color c1 c2 p).
Proof.
  destruct c1 as [[r1 g1] b1], c2 as [[r2 g2] b2].
  intros (Hr & Hg & Hb) Hpq. unfold lerp_color, channel_le.
  repeat split; apply lerp_value_mono_down; assumption.
Qed.

(** *** The growth curve *)

(** Above 1 rounding adds at most one part in [2^53]. *)
Lemma RN_upper x : 1 <= x -> RN x <= x * (1 + bpow (-53)).
Proof.
  intros Hx. assert (0 < x) as Hpos by lra.
  rewrite (RN_pos_eq x Hpos). unfold RN_pos.
  destruct (Qmag_spec x Hpos) as [Hlo Hhi].
  assert (0 < Qmag x)%Z as Hmag.
  { apply bpow_lt_inv. change (bpow 0) with 1. lra. }
  assert (cexp x = Qmag x - 53)%Z as Hc by (unfold cexp; rewrite fexp_spec; lia).
  rewrite Hc. set (c := (Qmag x - 53)%Z).
  pose proof (bpow_pos c) as Hbc.
  pose proof (RNE_error (x / bpow c)) as He. apply Qabs_Qle_condition in He.
  destruct He as [_ He].
  assert (inject_Z (RNE (x / bpow c)) * bpow c <= x + (1 # 2) * bpow c) as H1.
  { assert (inject_Z (RNE (x / bpow c)) <= x / bpow c + (1 # 2)) as H by lra.
    assert (inject_Z (RNE (x / bpow c)) * bpow c <= (x / bpow c + (1 # 2)) * bpow c) as H'
      by (apply Qmult_le_compat_r; [exact H|apply Qlt_le_weak, Hbc]).
    assert ((x / bpow c + (1 # 2)) * bpow c == x + (1 # 2) * bpow c) as E
      by (field; apply Qnot_eq_sym, Qlt_not_eq, Hbc).
    rewrite E in H'. exact H'. }
  assert ((1 # 2) * bpow c <= x * bpow (-53)) as H2.
  { assert (bpow c == bpow (Qmag x - 1) * bpow (-52)) as ->
      by (rewrite <- bpow_add; replace (Qmag x - 1 + -52)%Z with c by (unfold c; lia);
          reflexivity).
    assert (bpow (-53) == (1 # 2) * bpow (-52)) as -> by reflexivity.
    pose proof (bpow_pos (-52)) as Hb.
    assert (bpow (Qmag x - 1) * bpow (-52) <= x * bpow (-52))
      by (apply Qmult_le_compat_r; lra).
    lra. }
  lra.
Qed.

Lemma scaled_trunc_le q H :
  0 <= q <= 7 # 8 -> (0 <= H)%Z ->
  (0 <= Qtrunc (RN (q * RN (inject_Z H))) <= H)%Z.
Proof.
  intros Hq HH.
  assert (0 <= inject_Z H) as HH' by (change 0 with (inject_Z 0); rewrite <- Zle_Qle; lia).
  pose proof (RN_nonneg _ HH') as Hf0.
  split.
  - rewrite <- (Qtrunc_Z 0). apply Qtrunc_mono, RN_nonneg.
    apply Qmult_le_0_compat; lra.
  - rewrite <- (Qtrunc_Z H) at 2. apply Qtrunc_mono.
    destruct (Z_le_gt_dec H (2 ^ 53)) as [Hsmall|Hbig].
    + assert (RN (inject_Z H) == inject_Z H) as E by (apply RN_Z; lia).
      rewrite <- E at 2. apply RN_mono. rewrite E.
      assert (0 <= (1 - q) * inject_Z H) by (apply Qmult_le_0_compat; lra). lra.
    + assert (1 <= inject_Z H) as H1.
      { change 1 with (inject_Z 1). rewrite <- Zle_Qle.
        change (2 ^ 53)%Z with 9007199254740992%Z in Hbig. lia. }
      pose proof (RN_upper _ H1) as Hup.
      assert (0 <= bpow (-53) <= 1 # 1000) as He by (split; vm_compute; discriminate).
      remember (bpow (-53)) as e eqn:Ee.
      set (h := inject_Z H) in *. set (f := RN h) in *. clearbody h f.
      assert (f <= h * (1001 # 1000)) as Hf1.
      { assert (0 <= h * ((1 # 1000) - e)) by (apply Qmult_le_0_compat; lra). lra. }
      assert (q * f <= (7 # 8) * f) as Hx1.
      { assert (0 <= ((7 # 8) - q) * f) by (apply Qmult_le_0_compat; lra). lra. }
      destruct (Qlt_le_dec (q * f) 1) as [Hlt|Hge].
      * apply Qle_trans with 1; [|exact H1].
        apply (RN_le_Z _ 1); [simpl; lia|]. change (inject_Z 1) with 1. lra.
      * pose proof (RN_upper _ Hge) as Hup2. rewrite <- Ee in Hup2.
        assert (q * f * (1 + e) <= q * f * (1001 # 1000)).
        { assert (0 <= q * f * ((1 # 1000) - e)) by (apply Qmult_le_0_compat; lra). lra. }
        lra.
Qed.

Lemma x_offset_mono W i j : (0 <= W)%Z -> (i <= j)%Z -> (x_offset W i <= x_offset W j)%Z.
Proof.
  intros HW Hij. unfold x_offset. apply Qtrunc_mono, RN_mono.
  assert (0 <= RN (inject_Z W)) as Hf.
  { apply RN_nonneg. change 0 with (inject_Z 0). rewrite <- Zle_Qle. exact HW. }
  apply Qmult_le_compat_r; [|exact Hf]. apply RN_mono.
  apply Qmult_le_compat_r; [rewrite <- Zle_Qle; exact Hij|].
  apply Qlt_le_weak, Qinv_lt_0_compat. reflexivity.
Qed.

Lemma truediv_unit_le y h :
  (0 <= y <= h)%Z -> (0 < h)%Z ->
  exists t, truediv y h = Ok t /\ finite t /\
            B2Q t == RN (inject_Z y / inject_Z h) /\ 0 <= B2Q t <= 1.
Proof.
  intros Hy Hh. pose proof (RN_unit _ (unit_quotient y h Hy Hh)) as HR.
  destruct (truediv_RN y h) as (t & Ht & Hfin & Hv).
  - lia.
  - apply Qle_lt_trans with 1; [|apply (bpow_lt 0 1024); lia].
    apply Qabs_Qle_condition. lra.
  - exists t. split; [exact Ht|]. split; [exact Hfin|]. split; [exact Hv|].
    rewrite Hv. exact HR.
Qed.

Lemma fbounded_unit x : finite x -> 0 <= B2Q x <= 1 -> fbounded 0 x.
Proof.
  intros Hf Hx. split; [exact Hf|]. apply Qabs_Qle_condition. change (bpow 0) with 1. lra.
Qed.

Lemma float_of_int_size z :
  (0 <= z <= 2 ^ 1023)%Z ->
  exists f, float_of_int z = Ok f /\ fbounded 1023 f /\ B2Q f == RN (inject_Z z).
Proof. intros Hz. apply float_of_int_bounded; lia. Qed.

Section GrowthCurveFacts.

Variable math_exp : float -> float.
Hypothesis exp_range : exp_in_unit math_exp.

(** The weight [3.0 + 5.5 * (1 - exp(-2.5 * t))] as a fraction of the 10 kg
    axis. *)
Lemma weight_fraction t :
  finite t -> 0 <= B2Q t <= 1 ->
  exists q,
    (v <- fsubi (3.0 + 5.5 * (1 - math_exp (-2.5 * t)))%float 0 ;; fdiv v 10.0) = Ok q /\
    finite q /\ 0 <= B2Q q <= 7 # 8.
Proof.
  intros Ft Rt.
  assert (fbounded 2 (-2.5)%float) as Bc by (split; float_const).
  assert (B2Q (-2.5)%float == - (5 # 2)) as Ec by float_const.
  destruct (mul_bounded 2 0 _ _ Bc (fbounded_unit t Ft Rt) ltac:(lia)) as [Ba Va].
  assert (- (5 # 2) <= B2Q (-2.5 * t)%float <= 0) as Ra.
  { rewrite Va, Ec. apply RN_between.
    - rewrite <- Ec. apply RN_B2Q.
    - reflexivity.
    - split; nra. }
  destruct (exp_range _ (bounded_finite _ _ Ba) Ra) as [Fe Re].
  set (e := math_exp (-2.5 * t)%float) in *. clearbody e.
  assert (fbounded 0 1%float) as B1 by (split; float_const).
  assert (B2Q 1%float == 1) as E1 by float_const.
  destruct (sub_bounded 0 0 _ _ B1 (fbounded_unit e Fe Re) ltac:(lia)) as [Bu Vu].
  assert (0 <= B2Q (1 - e)%float <= 1) as Ru.
  { rewrite Vu, E1. apply RN_unit. lra. }
  assert (fbounded 3 5.5%float) as B55 by (split; float_const).
  assert (B2Q 5.5%float == 11 # 2) as E55 by float_const.
  destruct (mul_bounded 3 0 _ _ B55 (fbounded_unit _ (bounded_finite _ _ Bu) Ru) ltac:(lia))
    as [Bm Vm].
  assert (0 <= B2Q (5.5 * (1 - e))%float <= 11 # 2) as Rm.
  { rewrite Vm, E55. apply RN_between.
    - reflexivity.
    - rewrite <- E55. apply RN_B2Q.
    - split; nra. }
  assert (fbounded 2 3.0%float) as B3 by (split; float_const).
  assert (B2Q 3.0%float == 3) as E3 by float_const.
  destruct (add_bounded 2 3 _ _ B3 Bm ltac:(lia)) as [Bw Vw].
  assert (3 <= B2Q (3.0 + 5.5 * (1 - e))%float <= 17 # 2) as Rw.
  { rewrite Vw, E3. apply RN_between.
    - apply (RN_Z 3). simpl. lia.
    - assert (17 # 2 == B2Q 8.5%float) as -> by float_const. apply RN_B2Q.
    - lra. }
  set (w := (3.0 + 5.5 * (1 - e))%float) in *. clearbody w.
  unfold fsubi.
  destruct (float_of_int_exact 0) as (f0 & -> & Ff0 & Vf0); [simpl; lia|]. cbn [bind].
  assert (fbounded 0 f0) as Bf0.
  { apply (fbounded_of_value _ _ (inject_Z 0) Ff0 Vf0). apply Qabs_Qle_condition.
    change (bpow 0) with 1. change (inject_Z 0) with 0. lra. }
  destruct (sub_bounded 4 0 _ _ Bw Bf0 ltac:(lia)) as [Bv Vv].
  assert (B2Q (w - f0)%float == B2Q w) as Vv'.
  { rewrite Vv, Vf0. change (inject_Z 0) with 0.
    assert (B2Q w - 0 == B2Q w) as -> by ring. apply RN_B2Q. }
  unfold fdiv. change (Prim2SF 10.0) with (S754_finite false 5629499534213120 (-49)).
  cbv iota.
  assert (finite 10.0%float) as F10 by float_const.
  assert (B2Q 10.0%float == 10) as E10 by float_const.
  assert (0 <= RN (B2Q (w - f0)%float / B2Q 10.0%float) <= 7 # 8) as Rq.
  { rewrite Vv', E10. apply RN_between.
    - reflexivity.
    - assert (7 # 8 == B2Q 0.875%float) as -> by float_const. apply RN_B2Q.
    - split; [apply Qle_shift_div_l; lra|apply Qle_shift_div_r; lra]. }
  destruct (div_RN (w - f0)%float 10.0%float (bounded_finite _ _ Bv) F10) as [Fq Vq].
  - rewrite E10. lra.
  - apply Qle_lt_trans with 1; [|apply (bpow_lt 0 1024); lia].
    apply Qabs_Qle_condition. lra.
  - eexists. split; [reflexivity|]. split; [exact Fq|]. rewrite Vq. exact Rq.
Qed.

Lemma growth_point_spec c i :
  (0 <= i <= 29)%Z ->
  (0 <= chart_w c <= 2 ^ 1023)%Z -> (0 <= chart_h c <= 2 ^ 1023)%Z ->
  exists dy,
    growth_point math_exp c i
    = Ok ((chart_x c + x_offset (chart_w c) i)%Z, (chart_y c + chart_h c - dy)%Z) /\
    (0 <= dy <= chart_h c)%Z.
Proof.
  intros Hi HW HH. unfold growth_point.
  destruct (truediv_unit_le i 29 Hi ltac:(lia)) as (t & -> & Ft & Vt & Rt). cbn [bind].
  unfold fmuli at 1.
  destruct (float_of_int_size (chart_w c) HW) as (fw & -> & Bw & Vw). cbn [bind].
  destruct (mul_bounded 0 1023 _ _ (fbounded_unit t Ft Rt) Bw ltac:(lia)) as [Bp Vp].
  rewrite (int_of_float_trunc _ (bounded_finite _ _ Bp)). cbn [bind].
  destruct (weight_fraction t Ft Rt) as (q & Hq & Fq & Rq).
  destruct (fsubi (3.0 + 5.5 * (1 - math_exp (-2.5 * t)))%float 0) as [v|ex];
    cbn [bind] in Hq |- *; [|discriminate].
  rewrite Hq. cbn [bind]. unfold fmuli.
  destruct (float_of_int_size (chart_h c) HH) as (fh & -> & Bh & Vh). cbn [bind].
  assert (fbounded 0 q) as Bq.
  { apply fbounded_unit; [exact Fq|]. lra. }
  destruct (mul_bounded 0 1023 _ _ Bq Bh ltac:(lia)) as [Br Vr].
  rewrite (int_of_float_trunc _ (bounded_finite _ _ Br)). cbn [bind].
  exists (Qtrunc (B2Q (q * fh)%float)). split.
  - do 3 f_equal. unfold x_offset. apply Qtrunc_compat. rewrite Vp, Vt, Vw. reflexivity.
  - assert (Qtrunc (B2Q (q * fh)%float) = Qtrunc (RN (B2Q q * RN (inject_Z (chart_h c))))) as ->
      by (apply Qtrunc_compat; rewrite Vr, Vh; reflexivity).
    apply scaled_trunc_le; [exact Rq|lia].
Qed.

End GrowthCurveFacts.

Lemma for_each_collect {A B : Type} (f : A -> result B) (P : A -> B -> Prop) xs :
  (forall x, In x xs -> exists b, f x = Ok b /\ P x b) ->
  forall acc, exists bs,
    for_each xs (fun x pts => pt <- f x ;; Ok (pts ++ [pt])) acc = Ok (acc ++ bs) /\
    Forall2 P xs bs.
Proof.
  induction xs as [|x xs IH]; intros Hf acc.
  - exists []. split; [rewrite app_nil_r; reflexivity|constructor].
  - destruct (Hf x (or_introl eq_refl)) as (b & Hb & HP).
    destruct (IH (fun y Hy => Hf y (or_intror Hy)) (acc ++ [b])) as (bs & Hrun & Hall).
    exists (b :: bs). split.
    + cbn [for_each]. rewrite Hb. cbn [bind]. rewrite Hrun, <- app_assoc. reflexivity.
    + constructor; assumption.
Qed.

Lemma Forall2_nth_error_r {A B : Type} (P : A -> B -> Prop) xs bs :
  Forall2 P xs bs ->
  forall i b, nth_error bs i = Some b -> exists x, nth_error xs i = Some x /\ P x b.
Proof.
  induction 1 as [|x b' xs bs HP _ IH]; intros i b Hb.
  - destruct i; discriminate.
  - destruct i as [|i].
    + injection Hb as <-. exists x. split; [reflexivity|exact HP].
    + apply (IH i b Hb).
Qed.

Lemma nth_error_range n i x :
  nth_error (map Z.of_nat (seq 0 n)) i = Some x -> x = Z.of_nat i /\ (i < n)%nat.
Proof.
  intros H.
  assert (i < n)%nat as Hi.
  { rewrite <- (length_seq n 0), <- (length_map Z.of_nat). apply nth_error_Some.
    rewrite H. discriminate. }
  split; [|exact Hi].
  rewrite nth_error_map in H.
  rewrite (nth_error_nth' (seq 0 n) 0%nat) in H by (rewrite length_seq; exact Hi).
  rewrite seq_nth in H by exact Hi. cbn in H. injection H as <-. reflexivity.
Qed.

(** *** A series that meets the assumption on [math.exp] *)

Lemma opp_value x : finite x -> finite (- x)%float /\ B2Q (- x)%float == - B2Q x.
Proof.
  unfold finite, B2Q. rewrite opp_spec. destruct (Prim2SF x) as [s|s| |s m e]; intros H;
    try discriminate.
  - split; [reflexivity|reflexivity].
  - split; [reflexivity|]. unfold SFopp. rewrite !SF2Q_finite.
    destruct s; unfold sgn; cbn [negb]; ring.
Qed.

Lemma exp_horner_ge_1 u n : forall k m,
  finite u -> 0 <= B2Q u <= 5 # 2 ->
  finite k -> B2Q k == inject_Z m -> (1 <= m)%Z -> (m + Z.of_nat n <= 300)%Z ->
  fbounded (3 * Z.of_nat n) (exp_horner u k n) /\ 1 <= B2Q (exp_horner u k n).
Proof.
  induction n as [|n IH]; intros k m Fu Ru Fk Vk Hm Hn.
  - cbn [exp_horner]. split; [split|]; float_const.
  - cbn [exp_horner].
    destruct (succ_exact k m Fk Vk) as [Fk' Vk'];
      [change (2 ^ 53)%Z with 9007199254740992%Z; lia|].
    destruct (IH (k + 1)%float (m + 1)%Z Fu Ru Fk' Vk' ltac:(lia) ltac:(lia)) as [Ba Ra].
    set (acc := exp_horner u (k + 1) n) in *. clearbody acc.
    assert (1 <= B2Q k) as Hk1.
    { rewrite Vk. change 1 with (inject_Z 1). rewrite <- Zle_Qle. exact Hm. }
    assert (0 <= B2Q u / B2Q k <= 5 # 2) as Rq.
    { split; [apply Qle_shift_div_l; lra|apply Qle_shift_div_r; [lra|]].
      assert (0 <= (5 # 2) * (B2Q k - 1)) by (apply Qmult_le_0_compat; lra). lra. }
    assert (0 <= RN (B2Q u / B2Q k) <= 5 # 2) as Rr.
    { apply RN_between; [reflexivity| |exact Rq].
      assert (5 # 2 == B2Q 2.5%float) as -> by float_const. apply RN_B2Q. }
    destruct (div_RN u k Fu Fk) as [Fq Vq].
    + lra.
    + apply Qle_lt_trans with (5 # 2); [apply Qabs_Qle_condition; lra|]. reflexivity.
    + assert (fbounded 2 (u / k)%float) as Bq.
      { split; [exact Fq|]. rewrite Vq. apply Qabs_Qle_condition.
        change (bpow 2) with 4. lra. }
      destruct (mul_bounded 2 (3 * Z.of_nat n) _ _ Bq Ba ltac:(lia)) as [Bp Vp].
      assert (0 <= B2Q (u / k * acc)%float) as Rp.
      { rewrite Vp. apply RN_nonneg. rewrite Vq. apply Qmult_le_0_compat; lra. }
      assert (fbounded 0 1%float) as B1 by (split; float_const).
      assert (B2Q 1%float == 1) as E1 by float_const.
      destruct (add_bounded 0 (2 + 3 * Z.of_nat n) _ _ B1 Bp ltac:(lia)) as [Bs Vs].
      split.
      * apply (bounded_weaken (Z.max 0 (2 + 3 * Z.of_nat n) + 1)); [lia|exact Bs].
      * rewrite Vs, E1. apply (RN_ge_Z _ 1); [simpl; lia|].
        change (inject_Z 1) with 1. lra.
Qed.

Lemma exp_series_in_unit : exp_in_unit exp_series.
Proof.
  intros x Fx Rx. unfold exp_series.
  destruct (opp_value x Fx) as [Fu Vu].
  assert (finite 1%float) as F1 by float_const.
  assert (B2Q 1%float == 1) as E1 by float_const.
  destruct (exp_horner_ge_1 (- x)%float 16 1%float 1) as [Bd Rd]; try assumption.
  - rewrite Vu. lra.
  - lia.
  - simpl. lia.
  - set (d := exp_horner (- x) 1 16) in *. clearbody d.
    assert (0 <= B2Q 1%float / B2Q d <= 1) as Rq.
    { rewrite E1. split; [apply Qle_shift_div_l; lra|apply Qle_shift_div_r; lra]. }
    pose proof (RN_unit _ Rq) as Rr.
    destruct (div_RN 1%float d F1 (bounded_finite _ _ Bd)) as [Fq Vq].
    + lra.
    + apply Qle_lt_trans with 1; [apply Qabs_Qle_condition; lra|]. reflexivity.
    + split; [exact Fq|]. rewrite Vq. exact Rr.
Qed.

(** *** Sizes scaled by a constant *)

Lemma inject_Z_nonneg z : (0 <= z)%Z -> 0 <= inject_Z z.
Proof. intros H. change 0 with (inject_Z 0). rewrite <- Zle_Qle. exact H. Qed.

Lemma int_imulf_spec z c :
  (0 <= z <= 2 ^ 53)%Z -> fbounded 0 c ->
  int_imulf z c = Ok (scaled z (B2Q c)).
Proof.
  intros Hz Bc. unfold int_imulf, imulf, scaled.
  destruct (float_of_int_exact z) as (f & -> & Ff & Vf); [lia|]. cbn [bind].
  assert (fbounded 53 f) as Bf.
  { apply (fbounded_of_value _ _ (inject_Z z) Ff Vf). rewrite (bpow_Z 53) by lia.
    apply Qabs_Qle_condition. rewrite <- inject_Z_opp, <- !Zle_Qle. lia. }
  destruct (mul_bounded 53 0 _ _ Bf Bc ltac:(lia)) as [Bp Vp].
  rewrite (int_of_float_trunc _ (bounded_finite _ _ Bp)). f_equal.
  apply Qtrunc_compat. rewrite Vp, Vf. reflexivity.
Qed.

Lemma scaled_mono z c c' : (0 <= z)%Z -> c <= c' -> (scaled z c <= scaled z c')%Z.
Proof.
  intros Hz Hc. unfold scaled. apply Qtrunc_mono, RN_mono.
  pose proof (inject_Z_nonneg z Hz). 
  assert (0 <= inject_Z z * (c' - c)) by (apply Qmult_le_0_compat; lra). lra.
Qed.

Lemma scaled_ge z c n :
  (Z.abs n <= 2 ^ 53)%Z -> inject_Z n <= inject_Z z * c -> (n <= scaled z c)%Z.
Proof.
  intros Hn H. unfold scaled. rewrite <- (Qtrunc_Z n).
  apply Qtrunc_mono, RN_ge_Z; assumption.
Qed.

Lemma scaled_le z c n :
  (Z.abs n <= 2 ^ 53)%Z -> inject_Z z * c <= inject_Z n -> (scaled z c <= n)%Z.
Proof.
  intros Hn H. unfold scaled. rewrite <- (Qtrunc_Z n).
  apply Qtrunc_mono, RN_le_Z; assumption.
Qed.






(** *** Relative error and exact cases of rounding *)

Lemma Qmag_normal x : bpow (-1022) <= x -> (-1021 <= Qmag x)%Z /\ cexp x = (Qmag x - 53)%Z.
Proof.
  intros Hx. pose proof (bpow_pos (-1022)) as Hp.
  assert (0 < x) as Hpos by lra.
  destruct (Qmag_spec x Hpos) as [_ Hhi].
  assert (-1022 < Qmag x)%Z by (apply bpow_lt_inv; lra).
  split; [lia|]. unfold cexp. rewrite fexp_spec. lia.
Qed.

Lemma RN_double x : bpow (-1022) <= x -> RN (2 * x) == 2 * RN x.
Proof.
  intros Hx. pose proof (bpow_pos (-1022)) as Hp.
  assert (0 < x) as Hpos by lra.
  destruct (Qmag_normal x Hx) as [Hm Hc].
  destruct (Qmag_spec x Hpos) as [Hlo Hhi].
  assert (Qmag (2 * x) = Qmag x + 1)%Z as Hm2.
  { apply Qmag_unique.
    - replace (Qmag x + 1 - 1)%Z with (1 + (Qmag x - 1))%Z by lia.
      rewrite bpow_add. change (bpow 1) with 2. lra.
    - replace (Qmag x + 1)%Z with (1 + Qmag x)%Z by lia.
      rewrite bpow_add. change (bpow 1) with 2. lra. }
  assert (cexp (2 * x) = cexp x + 1)%Z as Hc2.
  { unfold cexp. rewrite Hm2, !fexp_spec. lia. }
  rewrite (RN_pos_eq (2 * x)) by lra. rewrite (RN_pos_eq x Hpos).
  unfold RN_pos. rewrite Hc2.
  pose proof (bpow_pos (cexp x)) as Hb.
  assert (bpow (cexp x + 1) == 2 * bpow (cexp x)) as E.
  { replace (cexp x + 1)%Z with (1 + cexp x)%Z by lia. rewrite bpow_add. reflexivity. }
  assert (2 * x / bpow (cexp x + 1) == x / bpow (cexp x)) as Eq.
  { rewrite E. field. lra. }
  rewrite (RNE_compat _ _ Eq), E. ring.
Qed.

Lemma RN_error_normal x :
  bpow (-1022) <= x ->
  x * (1 - bpow (-53)) <= RN x <= x * (1 + bpow (-53)).
Proof.
  intros Hx. pose proof (bpow_pos (-1022)) as Hp.
  assert (0 < x) as Hpos by lra.
  destruct (Qmag_normal x Hx) as [Hm Hc].
  destruct (Qmag_spec x Hpos) as [Hlo Hhi].
  rewrite (RN_pos_eq x Hpos). unfold RN_pos. rewrite Hc.
  set (c := (Qmag x - 53)%Z).
  pose proof (bpow_pos c) as Hbc.
  pose proof (RNE_error (x / bpow c)) as He. apply Qabs_Qle_condition in He.
  destruct He as [He1 He2].
  assert (forall a b, a <= b -> a * bpow c <= b * bpow c) as Hmul
    by (intros a b Hab; apply Qmult_le_compat_r; [exact Hab|apply Qlt_le_weak, Hbc]).
  assert (x / bpow c * bpow c == x) as E by (field; apply Qnot_eq_sym, Qlt_not_eq, Hbc).
  assert (x - (1 # 2) * bpow c <= inject_Z (RNE (x / bpow c)) * bpow c) as H1.
  { assert (x / bpow c - (1 # 2) <= inject_Z (RNE (x / bpow c))) as H by lra.
    apply Hmul in H.
    assert ((x / bpow c - (1 # 2)) * bpow c == x - (1 # 2) * bpow c) as E'
      by (rewrite <- E at 2; ring).
    rewrite E' in H. exact H. }
  assert (inject_Z (RNE (x / bpow c)) * bpow c <= x + (1 # 2) * bpow c) as H2.
  { assert (inject_Z (RNE (x / bpow c)) <= x / bpow c + (1 # 2)) as H by lra.
    apply Hmul in H.
    assert ((x / bpow c + (1 # 2)) * bpow c == x + (1 # 2) * bpow c) as E'
      by (rewrite <- E at 2; ring).
    rewrite E' in H. exact H. }
  assert ((1 # 2) * bpow c <= x * bpow (-53)) as H3.
  { assert (bpow c == bpow (Qmag x - 1) * bpow (-52)) as ->
      by (rewrite <- bpow_add; replace (Qmag x - 1 + -52)%Z with c by (unfold c; lia);
          reflexivity).
    assert (bpow (-53) == (1 # 2) * bpow (-52)) as -> by reflexivity.
    pose proof (bpow_pos (-52)) as Hb.
    assert (bpow (Qmag x - 1) * bpow (-52) <= x * bpow (-52))
      by (apply Qmult_le_compat_r; lra).
    lra. }
  split; lra.
Qed.

(** A finite float of at least [1 / 2] is a multiple of [2^-53]. *)
Lemma float_grid t :
  finite t -> 1 # 2 <= B2Q t -> exists K, B2Q t == inject_Z K * bpow (-53).
Proof.
  unfold finite, B2Q. pose proof (valid_Prim2SF t) as Hv.
  destruct (Prim2SF t) as [s|s| |s m e]; try discriminate; intros _ Ht.
  - cbn [SF2Q] in Ht. lra.
  - rewrite SF2Q_finite in Ht.
    apply valid_finite_canonical in Hv. destruct Hv as [Hc _].
    pose proof (inject_Z_pos_lt m) as Hm. pose proof (bpow_pos e) as He.
    assert (0 < inject_Z (Zpos m) * bpow e) as Hx by (apply Qmult_lt_0_compat; assumption).
    destruct s; unfold sgn in *; [lra|].
    assert (1 # 2 <= inject_Z (Zpos m) * bpow e) as Ht' by lra.
    destruct (Qmag_spec _ Hx) as [_ Hhi]. rewrite Qmag_float in Hhi.
    assert (-1 < Zpos (digits2_pos m) + e)%Z.
    { apply bpow_lt_inv. change (bpow (-1)) with (1 # 2). lra. }
    exists (Zpos m * 2 ^ (e + 53))%Z.
    rewrite SF2Q_finite. unfold sgn. rewrite inject_Z_mult, <- (bpow_Z (e + 53)) by lia.
    assert (bpow e == bpow (e + 53) * bpow (-53)) as E
      by (rewrite <- bpow_add; replace (e + 53 + -53)%Z with e by lia; reflexivity).
    rewrite E. ring.
Qed.

Lemma RN_3_minus_2 q K :
  1 # 2 <= q <= 1 -> q == inject_Z K * bpow (-53) -> RN (3 - 2 * q) == 3 - 2 * q.
Proof.
  intros Hq HK.
  destruct (Qeq_dec q (1 # 2)) as [E|NE].
  - rewrite E. assert (3 - 2 * (1 # 2) == inject_Z 2) as -> by reflexivity.
    apply RN_Z. simpl. lia.
  - assert (1 # 2 < q) as Hq' by (destruct Hq as [H1 _]; apply Qle_lt_or_eq in H1;
                                   destruct H1 as [H1|H1]; [exact H1|symmetry in H1; contradiction]).
    set (x := 3 - 2 * q). assert (1 <= x < 2) as Hx by (unfold x; split; lra).
    assert (0 < x) as Hpos by lra.
    rewrite (RN_pos_eq x Hpos).
    apply (RN_pos_grid x (3 * 2 ^ 52 - K) (-52) Hpos).
    + unfold x. rewrite HK. unfold Z.sub. rewrite inject_Z_plus, inject_Z_opp, inject_Z_mult.
      rewrite <- (bpow_Z 52) by lia. change (inject_Z 3) with 3.
      assert (bpow (-53) == (1 # 2) * bpow (-52)) as -> by reflexivity.
      assert (bpow 52 * bpow (-52) == 1) as E1 by reflexivity.
      assert ((3 * bpow 52 + - inject_Z K) * bpow (-52)
              == 3 * (bpow 52 * bpow (-52)) - inject_Z K * bpow (-52)) as -> by ring.
      rewrite E1. ring.
    + unfold cexp. rewrite (Qmag_unique x 1); [rewrite fexp_spec; lia| |].
      * change (bpow (1 - 1)) with 1. lra.
      * change (bpow 1) with 2. lra.
Qed.

(** On floats of [[0, 1]] the eased position never exceeds 1. *)
Lemma smoothstep_le_1 t :
  finite t -> 0 <= B2Q t <= 1 -> finite (smoothstep t) /\ 0 <= B2Q (smoothstep t) <= 1.
Proof.
  intros Ft Rt. destruct (smoothstep_spec t Ft Rt) as [Fte Vte].
  destruct (smoothstep_range t Ft Rt) as [_ [Hlo _]].
  split; [exact Fte|]. split; [exact Hlo|]. rewrite Vte. unfold smoothstep_value.
  set (q := B2Q t) in *.
  destruct (Qlt_le_dec q (1 # 2)) as [Hsmall|Hbig].
  - assert (0 <= RN (q * q) <= 1 # 4) as Ha.
    { apply RN_between; [reflexivity|apply RN_quarter|]. split; nra. }
    assert (0 <= RN (3 - RN (2 * q)) <= 3) as Hb.
    { assert (0 <= RN (2 * q) <= 1) by (apply RN_unit; lra).
      apply RN_between; [reflexivity|apply (RN_Z 3); simpl; lia|lra]. }
    apply (RN_le_Z _ 1); [simpl; lia|]. change (inject_Z 1) with 1.
    set (a := RN (q * q)) in *. set (b := RN (3 - RN (2 * q))) in *. clearbody a b.
    assert (a * b <= (1 # 4) * 3); [|lra].
    apply Qmult_le_compat_nonneg; split; lra.
  - destruct (float_grid t Ft Hbig) as [K HK]. fold q in HK.
    assert (RN (2 * q) == 2 * q) as E2.
    { rewrite RN_double.
      - unfold q. rewrite RN_B2Q. reflexivity.
      - apply Qle_trans with (1 # 2); [|exact Hbig]. apply (bpow_le (-1022) (-1)). lia. }
    assert (RN (3 - RN (2 * q)) == 3 - 2 * q) as Eb
      by (rewrite E2; apply (RN_3_minus_2 q K); [lra|exact HK]).
    rewrite Eb.
    assert (bpow (-1022) <= q * q) as Hn.
    { apply Qle_trans with (1 # 4); [apply (bpow_le (-1022) (-2)); lia|]. nra. }
    destruct (RN_error_normal (q * q) Hn) as [_ Ha].
    assert (0 <= RN (q * q)) as Ha0 by (apply RN_nonneg; nra).
    assert (RN (1 + bpow (-53)) == 1) as E1 by (vm_compute; reflexivity).
    rewrite <- E1. apply RN_mono.
    assert (0 <= bpow (-53)) as Hu by (apply Qlt_le_weak, bpow_pos).
    set (u := bpow (-53)) in *. set (a := RN (q * q)) in *. clearbody a u.
    assert (a * (3 - 2 * q) <= q * q * (1 + u) * (3 - 2 * q))
      by (apply Qmult_le_compat_r; lra).
    assert (q * q * (3 - 2 * q) <= 1).
    { assert (0 <= (1 - q) * (1 - q) * (1 + 2 * q)).
      { apply Qmult_le_0_compat; [apply Qmult_le_0_compat|]; lra. }
      lra. }
    assert (q * q * (1 + u) * (3 - 2 * q) == q * q * (3 - 2 * q) * (1 + u)) as E by ring.
    assert (q * q * (3 - 2 * q) * (1 + u) <= 1 * (1 + u))
      by (apply Qmult_le_compat_r; lra).
    lra.
Qed.

(** *** Colours between the stops *)

Lemma lerp_value_0 a b : (Z.abs a <= 2 ^ 53)%Z -> lerp_value a b 0 = a.
Proof.
  intros Ha. unfold lerp_value.
  assert (RN (inject_Z a + RN (inject_Z (b - a) * 0)) == inject_Z a) as E.
  { assert (inject_Z (b - a) * 0 == 0) as -> by ring. rewrite RN_0.
    assert (inject_Z a + 0 == inject_Z a) as -> by ring. apply RN_Z, Ha. }
  rewrite (Qtrunc_compat _ _ E). apply Qtrunc_Z.
Qed.

Lemma lerp_value_1 a b : channel_ok a -> channel_ok b -> lerp_value a b 1 = b.
Proof.
  unfold channel_ok. intros Ha Hb. unfold lerp_value.
  assert (RN (inject_Z a + RN (inject_Z (b - a) * 1)) == inject_Z b) as E.
  { assert (inject_Z (b - a) * 1 == inject_Z (b - a)) as -> by ring.
    rewrite (RN_Z (b - a)) by (change (2 ^ 53)%Z with 9007199254740992%Z; lia).
    rewrite <- inject_Z_plus. replace (a + (b - a))%Z with b by lia.
    apply RN_Z. change (2 ^ 53)%Z with 9007199254740992%Z. lia. }
  rewrite (Qtrunc_compat _ _ E). apply Qtrunc_Z.
Qed.

Lemma lerp_value_between a b q :
  channel_ok a -> channel_ok b -> 0 <= q <= 1 -> between a b (lerp_value a b q).
Proof.
  intros Ha Hb Hq. pose proof Ha as Ha'. pose proof Hb as Hb'. unfold channel_ok in Ha', Hb'.
  unfold between.
  assert (lerp_value a b 0 = a) as E0
    by (apply lerp_value_0; change (2 ^ 53)%Z with 9007199254740992%Z; lia).
  pose proof (lerp_value_1 a b Ha Hb) as E1.
  destruct (Z_le_gt_dec a b) as [Hab|Hab].
  - pose proof (lerp_value_mono_up a b 0 q Hab ltac:(lra)).
    pose proof (lerp_value_mono_up a b q 1 Hab ltac:(lra)). lia.
  - pose proof (lerp_value_mono_down a b 0 q ltac:(lia) ltac:(lra)).
    pose proof (lerp_value_mono_down a b q 1 ltac:(lia) ltac:(lra)). lia.
Qed.

Lemma lerp_color_between c1 c2 q :
  color_ok c1 -> color_ok c2 -> 0 <= q <= 1 -> color_between c1 c2 (lerp_color c1 c2 q).
Proof.
  destruct c1 as [[r1 g1] b1], c2 as [[r2 g2] b2].
  intros (Hr1 & Hg1 & Hb1) (Hr2 & Hg2 & Hb2) Hq. unfold lerp_color, color_between.
  repeat split; apply lerp_value_between; assumption.
Qed.

Lemma color_between_ok c1 c2 c :
  color_ok c1 -> color_ok c2 -> color_between c1 c2 c -> color_ok c.
Proof.
  destruct c1 as [[r1 g1] b1], c2 as [[r2 g2] b2], c as [[r g] b].
  unfold color_ok, color_between, between, channel_ok. lia.
Qed.

(** The colour of a row lies between the two neighbouring stops the row
    interpolates. *)
Lemma gradient_row_between h stops y :
  (0 <= y < h)%Z ->
  (2 <= Z.of_nat (List.length stops) <= 2 ^ 53)%Z ->
  Forall color_ok stops ->
  exists (i : nat) c1 c2 c,
    nth_error stops i = Some c1 /\ nth_error stops (Datatypes.S i) = Some c2 /\
    gradient_row h stops y = Ok c /\ color_between c1 c2 c.
Proof.
  intros Hy Hn Hok. unfold gradient_row.
  set (n := Z.of_nat (List.length stops)) in *.
  destruct (truediv_unit y h Hy) as (t & -> & Ft & Rt). cbn [bind].
  destruct (smoothstep_le_1 t Ft Rt) as [Fte Rte].
  set (te := smoothstep t) in *.
  pose proof (fbounded_unit te Fte Rte) as Bte.
  unfold fmuli.
  destruct (float_of_int_exact (n - 1)) as (fn & -> & Ffn & Vfn); [lia|]. cbn [bind].
  assert (1 <= inject_Z (n - 1)) as Hn1 by (change 1 with (inject_Z 1); rewrite <- Zle_Qle; lia).
  assert (fbounded 53 fn) as Bfn.
  { apply (fbounded_of_value _ _ (inject_Z (n - 1)) Ffn Vfn).
    rewrite (bpow_Z 53) by lia. apply Qabs_Qle_condition.
    rewrite <- inject_Z_opp, <- !Zle_Qle. lia. }
  destruct (mul_bounded 0 53 _ _ Bte Bfn ltac:(lia)) as [Bpos Vpos].
  set (pos := (te * fn)%float) in *.
  assert (0 <= B2Q pos <= inject_Z (n - 1)) as Rpos.
  { rewrite Vpos, Vfn. split.
    - apply RN_nonneg. apply Qmult_le_0_compat; lra.
    - apply RN_le_Z; [lia|].
      assert (0 <= (1 - B2Q te) * inject_Z (n - 1)) by (apply Qmult_le_0_compat; lra). lra. }
  rewrite (int_of_float_trunc _ (bounded_finite _ _ Bpos)). cbn [bind].
  set (ip := Qtrunc (B2Q pos)).
  assert (ip = Qfloor (B2Q pos)) as Eip by (apply Qtrunc_nonneg; lra).
  assert (0 <= ip <= n - 1)%Z as Hip.
  { split.
    - subst ip. rewrite <- (Qtrunc_Z 0). apply Qtrunc_mono. change (inject_Z 0) with 0. lra.
    - subst ip. rewrite <- (Qtrunc_Z (n - 1)). apply Qtrunc_mono. lra. }
  set (idx := Z.min ip (n - 2)).
  assert (0 <= idx <= n - 2)%Z as Hidx by (unfold idx; lia).
  assert (0 <= B2Q pos - inject_Z idx <= 1) as Rd.
  { destruct (Z_le_gt_dec ip (n - 2)) as [Hle|Hgt].
    - replace idx with ip by (unfold idx; lia). rewrite Eip.
      pose proof (Qfloor_le (B2Q pos)). pose proof (Qlt_floor (B2Q pos)) as Hlt.
      rewrite inject_Z_plus in Hlt. change (inject_Z 1) with 1 in Hlt. lra.
    - assert (ip = n - 1)%Z as Eq by lia. replace idx with (n - 2)%Z by (unfold idx; lia).
      assert (inject_Z (n - 1) <= B2Q pos).
      { rewrite <- Eq, Eip. apply Qfloor_le. }
      assert (inject_Z (n - 1) == inject_Z (n - 2) + 1) as E.
      { change 1 with (inject_Z 1). rewrite <- inject_Z_plus.
        replace (n - 2 + 1)%Z with (n - 1)%Z by lia. reflexivity. }
      lra. }
  unfold fsubi.
  destruct (float_of_int_exact idx) as (fi & -> & Ffi & Vfi); [lia|]. cbn [bind].
  assert (fbounded 53 fi) as Bfi.
  { apply (fbounded_of_value _ _ (inject_Z idx) Ffi Vfi).
    rewrite (bpow_Z 53) by lia. apply Qabs_Qle_condition.
    rewrite <- inject_Z_opp, <- !Zle_Qle. lia. }
  destruct (sub_bounded 53 53 _ _ Bpos Bfi ltac:(lia)) as [Bfrac Vfrac].
  assert (0 <= B2Q (pos - fi)%float <= 1) as Rfrac.
  { rewrite Vfrac, Vfi. apply RN_unit. exact Rd. }
  destruct (py_index_ok stops idx) as (c1 & -> & N1); [fold n; lia|].
  destruct (py_index_ok stops (idx + 1)) as (c2 & -> & N2); [fold n; lia|].
  cbn [bind].
  assert (color_ok c1) as H1
    by (eapply Forall_forall; [exact Hok|]; eapply nth_error_In; exact N1).
  assert (color_ok c2) as H2
    by (eapply Forall_forall; [exact Hok|]; eapply nth_error_In; exact N2).
  rewrite (lerp_spec c1 c2 _ _ Bfrac) by (assumption || lia).
  exists (Z.to_nat idx), c1, c2. eexists.
  split; [exact N1|]. split.
  - replace (Datatypes.S (Z.to_nat idx)) with (Z.to_nat (idx + 1)) by lia. exact N2.
  - split; [reflexivity|]. apply lerp_color_between; assumption.
Qed.

(** With a single stop the index is -1, Python's last element, on both
    sides of the interpolation. *)
Lemma gradient_row_single h c y :
  (0 <= y < h)%Z -> color_ok c -> gradient_row h [c] y = Ok c.
Proof.
  intros Hy Hc. unfold gradient_row. cbn [List.length].
  change (Z.of_nat 1 - 1)%Z with 0%Z. change (Z.of_nat 1 - 2)%Z with (-1)%Z.
  destruct (truediv_unit y h Hy) as (t & -> & Ft & Rt). cbn [bind].
  destruct (smoothstep_le_1 t Ft Rt) as [Fte Rte].
  set (te := smoothstep t) in *.
  pose proof (fbounded_unit te Fte Rte) as Bte.
  unfold fmuli.
  destruct (float_of_int_exact 0) as (f0 & -> & Ff0 & Vf0); [simpl; lia|]. cbn [bind].
  assert (fbounded 0 f0) as Bf0.
  { apply (fbounded_of_value _ _ (inject_Z 0) Ff0 Vf0). apply Qabs_Qle_condition.
    change (bpow 0) with 1. change (inject_Z 0) with 0. lra. }
  destruct (mul_bounded 0 0 _ _ Bte Bf0 ltac:(lia)) as [Bpos Vpos].
  assert (B2Q (te * f0)%float == inject_Z 0) as Vpos'.
  { rewrite Vpos, Vf0. change (inject_Z 0) with 0. apply RN_zero_eq. ring. }
  rewrite (int_of_float_trunc _ (bounded_finite _ _ Bpos)). cbn [bind].
  rewrite (Qtrunc_compat _ _ Vpos'), Qtrunc_Z.
  change (Z.min 0 (-1)) with (-1)%Z.
  unfold fsubi.
  destruct (float_of_int_exact (-1)) as (fi & -> & Ffi & Vfi); [simpl; lia|]. cbn [bind].
  assert (fbounded 0 fi) as Bfi.
  { apply (fbounded_of_value _ _ (inject_Z (-1)) Ffi Vfi). apply Qabs_Qle_condition.
    change (bpow 0) with 1. change (inject_Z (-1)) with (-1). lra. }
  destruct (sub_bounded 0 0 _ _ Bpos Bfi ltac:(lia)) as [Bfrac Vfrac].
  change (py_index [c] (-1)) with (Ok c : result color).
  change (py_index [c] (-1 + 1)) with (Ok c : result color). cbn [bind].
  rewrite (lerp_spec c c _ _ Bfrac) by (assumption || lia). f_equal.
  destruct c as [[r g] b]. destruct Hc as (Hr & Hg & Hb). unfold lerp_color.
  assert (forall a q, channel_ok a -> lerp_value a a q = a) as Hsame.
  { intros a q Ha. unfold channel_ok in Ha. unfold lerp_value.
    assert (RN (inject_Z a + RN (inject_Z (a - a) * q)) == inject_Z a) as E.
    { replace (a - a)%Z with 0%Z by lia. change (inject_Z 0) with 0.
      assert (0 * q == 0) as -> by ring. rewrite RN_0.
      assert (inject_Z a + 0 == inject_Z a) as -> by ring.
      apply RN_Z. change (2 ^ 53)%Z with 9007199254740992%Z. lia. }
    rewrite (Qtrunc_compat _ _ E). apply Qtrunc_Z. }
  rewrite !Hsame by assumption. reflexivity.
Qed.

(** With no stop at all the index is -2, and indexing raises. *)
Lemma gradient_row_no_stop h y :
  (0 <= y < h)%Z -> gradient_row h [] y = Raise IndexError.
Proof.
  intros Hy. unfold gradient_row. cbn [List.length].
  change (Z.of_nat 0 - 1)%Z with (-1)%Z. change (Z.of_nat 0 - 2)%Z with (-2)%Z.
  destruct (truediv_unit y h Hy) as (t & -> & Ft & Rt). cbn [bind].
  destruct (smoothstep_le_1 t Ft Rt) as [Fte Rte].
  set (te := smoothstep t) in *.
  pose proof (fbounded_unit te Fte Rte) as Bte.
  unfold fmuli.
  destruct (float_of_int_exact (-1)) as (f1 & -> & Ff1 & Vf1); [simpl; lia|]. cbn [bind].
  assert (fbounded 0 f1) as Bf1.
  { apply (fbounded_of_value _ _ (inject_Z (-1)) Ff1 Vf1). apply Qabs_Qle_condition.
    change (bpow 0) with 1. change (inject_Z (-1)) with (-1). lra. }
  destruct (mul_bounded 0 0 _ _ Bte Bf1 ltac:(lia)) as [Bpos Vpos].
  rewrite (int_of_float_trunc _ (bounded_finite _ _ Bpos)). cbn [bind].
  set (ip := Qtrunc (B2Q (te * f1)%float)).
  assert (ip <= 0)%Z as Hip.
  { subst ip. rewrite <- (Qtrunc_Z 0). apply Qtrunc_mono. rewrite Vpos, Vf1.
    apply (RN_le_Z _ 0); [simpl; lia|]. change (inject_Z 0) with 0.
    change (inject_Z (-1)) with (-1). lra. }
  assert (-1 <= ip)%Z as Hip'.
  { subst ip. rewrite <- (Qtrunc_Z (-1)). apply Qtrunc_mono. rewrite Vpos, Vf1.
    apply (RN_ge_Z _ (-1)); [simpl; lia|]. change (inject_Z (-1)) with (-1). lra. }
  replace (Z.min ip (-2)) with (-2)%Z by lia.
  unfold fsubi.
  destruct (float_of_int_exact (-2)) as (fi & -> & Ffi & Vfi); [simpl; lia|]. cbn [bind].
  reflexivity.
Qed.

(** *** Bounds of scaled sizes *)

Lemma scaled_nonneg z c : (0 <= z)%Z -> 0 <= c -> (0 <= scaled z c)%Z.
Proof.
  intros Hz Hc. apply scaled_ge; [simpl; lia|]. change (inject_Z 0) with 0.
  apply Qmult_le_0_compat; [apply inject_Z_nonneg; exact Hz|exact Hc].
Qed.

Lemma scaled_floor z c : (0 <= z)%Z -> 0 <= c -> scaled z c = Qfloor (RN (inject_Z z * c)).
Proof.
  intros Hz Hc. unfold scaled. apply Qtrunc_nonneg, RN_nonneg.
  apply Qmult_le_0_compat; [apply inject_Z_nonneg; exact Hz|exact Hc].
Qed.

Lemma RN_below_1 x : 0 <= x -> x < bpow (-1022) -> 0 <= RN x < 1.
Proof.
  intros H0 H1. split; [apply RN_nonneg, H0|].
  apply Qle_lt_trans with (bpow (-1022)); [|apply (bpow_lt (-1022) 0); lia].
  rewrite <- (RN_bpow (-1022)) by lia. apply RN_mono. lra.
Qed.

(** [int(z * c)] is at most [z * c], up to one rounding. *)
Lemma scaled_upper z c :
  (0 <= z)%Z -> 0 <= c -> inject_Z (scaled z c) <= inject_Z z * c * (1 + bpow (-53)).
Proof.
  intros Hz Hc. rewrite (scaled_floor z c Hz Hc).
  pose proof (inject_Z_nonneg z Hz) as Hz0.
  assert (0 <= inject_Z z * c) as Hx by (apply Qmult_le_0_compat; assumption).
  pose proof (Qfloor_le (RN (inject_Z z * c))) as Hf.
  assert (0 <= bpow (-53)) as Hu by apply Qlt_le_weak, bpow_pos.
  destruct (Qlt_le_dec (inject_Z z * c) (bpow (-1022))) as [Hsmall|Hnormal].
  - destruct (RN_below_1 _ Hx Hsmall) as [R0 R1].
    assert (Qfloor (RN (inject_Z z * c)) = 0)%Z as ->.
    { apply Qfloor_unique; change (inject_Z 0) with 0; [exact R0|].
      assert (0 + 1 == 1) as -> by reflexivity. exact R1. }
    change (inject_Z 0) with 0.
    apply Qmult_le_0_compat; [exact Hx|].
    apply Qle_trans with 1; [discriminate|].
    rewrite <- (Qplus_0_r 1) at 1. apply Qplus_le_r. exact Hu.
  - destruct (RN_error_normal _ Hnormal) as [_ Hup].
    apply Qle_trans with (RN (inject_Z z * c)); assumption.
Qed.

(** ... and more than [z * c - 1], up to one rounding. *)
Lemma scaled_lower z c :
  (0 <= z)%Z -> 0 <= c -> inject_Z z * c * (1 - bpow (-53)) < inject_Z (scaled z c) + 1.
Proof.
  intros Hz Hc. rewrite (scaled_floor z c Hz Hc).
  pose proof (inject_Z_nonneg z Hz) as Hz0.
  assert (0 <= inject_Z z * c) as Hx by (apply Qmult_le_0_compat; assumption).
  pose proof (Qlt_floor (RN (inject_Z z * c))) as Hf.
  rewrite inject_Z_plus in Hf. change (inject_Z 1) with 1 in Hf.
  destruct (Qlt_le_dec (inject_Z z * c) (bpow (-1022))) as [Hsmall|Hnormal].
  - destruct (RN_below_1 _ Hx Hsmall) as [R0 R1].
    assert (bpow (-1022) < 1) as Hb by (apply (bpow_lt (-1022) 0); lia).
    assert (0 <= bpow (-53)) as Hu by apply Qlt_le_weak, bpow_pos.
    apply Qle_lt_trans with (inject_Z z * c); [|].
    + set (u := bpow (-53)) in *. set (x := inject_Z z * c) in *. clearbody u x.
      assert (0 <= x * u) by (apply Qmult_le_0_compat; assumption). lra.
    + assert (0 <= inject_Z (Qfloor (RN (inject_Z z * c)))) as Hfl.
      { change 0 with (inject_Z 0). rewrite <- Zle_Qle, <- (Qfloor_Z 0).
        apply Qfloor_resp_le. exact R0. }
      set (x := inject_Z z * c) in *. set (b := bpow (-1022)) in *.
      set (r := RN x) in *. clearbody b. lra.
  - destruct (RN_error_normal _ Hnormal) as [Hlo _].
    apply Qle_lt_trans with (RN (inject_Z z * c)); assumption.
Qed.

(** [k] sizes scaled by [c] fit into the size when [k * c] is below 1. *)
Lemma scaled_times z c k :
  (0 <= z)%Z -> (0 <= k)%Z -> 0 <= c -> inject_Z k * c <= 999 # 1000 ->
  (k * scaled z c <= z)%Z.
Proof.
  intros Hz Hk Hc Hkc. pose proof (scaled_upper z c Hz Hc) as Hup.
  pose proof (inject_Z_nonneg z Hz) as Hz0. pose proof (inject_Z_nonneg k Hk) as Hk0.
  rewrite Zle_Qle, inject_Z_mult.
  assert (bpow (-53) <= 1 # 1000) as Hu by (vm_compute; discriminate).
  assert (0 <= bpow (-53)) as Hu0 by apply Qlt_le_weak, bpow_pos.
  set (u := bpow (-53)) in *. set (x := inject_Z z) in *. set (q := inject_Z k) in *.
  set (v := inject_Z (scaled z c)) in *. clearbody u x q v.
  assert (q * v <= q * (x * c * (1 + u))) as H1.
  { assert (0 <= q * (x * c * (1 + u) - v)) by (apply Qmult_le_0_compat; lra). lra. }
  assert (q * (x * c * (1 + u)) == x * ((q * c) * (1 + u))) as E by ring.
  assert ((q * c) * (1 + u) <= (999 # 1000) * (1001 # 1000)) as H2.
  { assert (0 <= q * c) by (apply Qmult_le_0_compat; lra).
    apply Qmult_le_compat_nonneg; split; lra. }
  assert (x * ((q * c) * (1 + u)) <= x * 1) as H3.
  { assert (0 <= x * (1 - (q * c) * (1 + u))) by (apply Qmult_le_0_compat; lra). lra. }
  lra.
Qed.

Lemma for_range_inv {St : Type} (Inv : nat -> St -> Prop) (body : Z -> St -> result St) :
  (forall k y s, Inv k s -> exists s', body y s = Ok s' /\ Inv (Datatypes.S k) s') ->
  forall n k start s, Inv k s ->
    exists s', for_range start n body s = Ok s' /\ Inv (k + n)%nat s'.
Proof.
  intros Hstep. induction n as [|n IH]; intros k start s Hs; cbn [for_range].
  - exists s. split; [reflexivity|]. rewrite Nat.add_0_r. exact Hs.
  - destruct (Hstep k start s Hs) as (s1 & -> & Hs1). cbn [bind].
    destruct (IH (Datatypes.S k) (start + 1)%Z s1 Hs1) as (s' & Hrun & Hs').
    exists s'. split; [exact Hrun|].
    replace (k + Datatypes.S n)%nat with (Datatypes.S k + n)%nat by lia. exact Hs'.
Qed.

Section BubbleFacts.

Context {G : Type} `{Random G}.
Hypothesis Hrand : randint_in_range G.

Lemma randint_spec a b g :
  (a <= b)%Z ->
  exists v g', randint a b g = Ok (v, g') /\ (a <= v <= b)%Z.
Proof.
  intros Hab. unfold randint. destruct (Z.ltb_spec b a) as [|_]; [lia|].
  pose proof (Hrand a b g Hab) as Hr.
  destruct (next_randint a b g) as [v g']. exists v, g'. split; [reflexivity|exact Hr].
Qed.

Lemma draw_bubble_spec cw ch bubbles g :
  (0 <= cw <= 2 ^ 53)%Z -> (0 <= ch <= 2 ^ 53)%Z ->
  exists b g',
    draw_bubble cw ch (bubbles, g) = Ok (bubbles ++ [b], g') /\ bubble_on_canvas cw ch b.
Proof.
  intros Hcw Hch. unfold draw_bubble.
  assert (forall c : float, fbounded 0 c -> 0 <= B2Q c -> forall z, (0 <= z <= 2 ^ 53)%Z ->
            int_imulf z c = Ok (scaled z (B2Q c)) /\ (0 <= scaled z (B2Q c))%Z) as Hs.
  { intros c Bc Hc z Hz. split; [apply int_imulf_spec; assumption|].
    apply scaled_nonneg; [lia|exact Hc]. }
  destruct (Hs 0.05%float ltac:(split; float_const) ltac:(float_const) cw Hcw) as [-> Hx0].
  cbn [bind].
  destruct (Hs 0.95%float ltac:(split; float_const) ltac:(float_const) cw Hcw) as [-> _].
  cbn [bind].
  destruct (randint_spec (scaled cw (B2Q 0.05%float)) (scaled cw (B2Q 0.95%float)) g)
    as (bx & g1 & -> & Hbx); [apply scaled_mono; [lia|float_const]|]. cbn [bind].
  destruct (Hs 0.02%float ltac:(split; float_const) ltac:(float_const) ch Hch) as [-> Hy0].
  cbn [bind].
  destruct (Hs 0.32%float ltac:(split; float_const) ltac:(float_const) ch Hch) as [-> _].
  cbn [bind].
  destruct (randint_spec (scaled ch (B2Q 0.02%float)) (scaled ch (B2Q 0.32%float)) g1)
    as (by_ & g2 & -> & Hby); [apply scaled_mono; [lia|float_const]|]. cbn [bind].
  destruct (Hs 0.01%float ltac:(split; float_const) ltac:(float_const) cw Hcw) as [-> Hr0].
  cbn [bind].
  destruct (Hs 0.025%float ltac:(split; float_const) ltac:(float_const) cw Hcw) as [-> _].
  cbn [bind].
  destruct (randint_spec (scaled cw (B2Q 0.01%float)) (scaled cw (B2Q 0.025%float)) g2)
    as (br & g3 & -> & Hbr); [apply scaled_mono; [lia|float_const]|]. cbn [bind].
  destruct (randint_spec 25 50 g3) as (op & g4 & -> & Hop); [lia|]. cbn [bind].
  exists (Bubble bx by_ br op), g4. split; [reflexivity|].
  unfold bubble_on_canvas. cbn [bub_x bub_y bub_r bub_opacity].
  assert (1 * scaled cw (B2Q 0.95%float) <= cw)%Z
    by (apply scaled_times; [lia|lia|float_const|float_const]).
  assert (2 * scaled ch (B2Q 0.32%float) <= ch)%Z
    by (apply scaled_times; [lia|lia|float_const|float_const]).
  assert (4 * scaled cw (B2Q 0.025%float) <= cw)%Z
    by (apply scaled_times; [lia|lia|float_const|float_const]).
  repeat split; lia.
Qed.

(** The eight bubbles of [draw_soft_shapes]. *)
Lemma draw_soft_shapes_bubbles_spec cw ch g :
  (0 <= cw <= 2 ^ 53)%Z -> (0 <= ch <= 2 ^ 53)%Z ->
  exists bubbles g',
    draw_soft_shapes_bubbles cw ch g = Ok (bubbles, g') /\
    List.length bubbles = 8%nat /\ Forall (bubble_on_canvas cw ch) bubbles.
Proof.
  intros Hcw Hch. unfold draw_soft_shapes_bubbles.
  set (Inv := fun (k : nat) (st : list bubble * G) =>
                List.length (fst st) = k /\ Forall (bubble_on_canvas cw ch) (fst st)).
  destruct (for_range_inv Inv (fun _ st => draw_bubble cw ch st)) with
    (n := 8%nat) (k := 0%nat) (start := 0%Z) (s := (@nil bubble, seed 42))
    as ([bubbles g'] & Hrun & Hlen & Hall).
  - intros k y [bs g0] [Hl Hf]. cbn [fst] in Hl, Hf.
    destruct (draw_bubble_spec cw ch bs g0 Hcw Hch) as (b & g1 & Hb & Hon).
    exists (bs ++ [b], g1). split; [exact Hb|]. unfold Inv. cbn [fst]. split.
    + rewrite length_app. cbn [List.length]. lia.
    + apply Forall_app. split; [exact Hf|]. constructor; [exact Hon|constructor].
  - unfold Inv. cbn [fst]. split; [reflexivity|constructor].
  - exists bubbles, g'. split; [exact Hrun|]. split; assumption.
Qed.

End BubbleFacts.

(** *** Sums of scaled sizes *)

Lemma scaled_mono_size z z' c : (z <= z')%Z -> 0 <= c -> (scaled z c <= scaled z' c)%Z.
Proof.
  intros Hz Hc. unfold scaled. apply Qtrunc_mono, RN_mono.
  apply Qmult_le_compat_r; [rewrite <- Zle_Qle; exact Hz|exact Hc].
Qed.

Lemma scaled_sum_upper z cs :
  (0 <= z)%Z -> Forall (fun c => 0 <= c) cs ->
  inject_Z (fold_right Z.add 0%Z (map (scaled z) cs))
  <= inject_Z z * fold_right Qplus 0 cs * (1 + bpow (-53)).
Proof.
  intros Hz Hcs. induction Hcs as [|c cs Hc Hcs IH]; cbn [map fold_right].
  - change (inject_Z 0) with 0. lra.
  - rewrite inject_Z_plus. pose proof (scaled_upper z c Hz Hc) as Hup.
    set (u := bpow (-53)) in *. clearbody u.
    set (a := inject_Z (scaled z c)) in *.
    set (b := inject_Z (fold_right Z.add 0%Z (map (scaled z) cs))) in *.
    set (s := fold_right Qplus 0 cs) in *. clearbody a b s.
    assert (inject_Z z * (c + s) * (1 + u)
            == inject_Z z * c * (1 + u) + inject_Z z * s * (1 + u)) as -> by ring.
    lra.
Qed.

(** Sizes scaled by constants that add up to less than 1 fit into the size. *)
Lemma scaled_sum_le z cs :
  (0 <= z)%Z -> Forall (fun c => 0 <= c) cs -> fold_right Qplus 0 cs <= 999 # 1000 ->
  (fold_right Z.add 0 (map (scaled z) cs) <= z)%Z.
Proof.
  intros Hz Hcs Hsum. pose proof (scaled_sum_upper z cs Hz Hcs) as Hup.
  pose proof (inject_Z_nonneg z Hz) as Hz0.
  assert (0 <= fold_right Qplus 0 cs) as Hs0.
  { clear - Hcs. induction Hcs; cbn [fold_right]; lra. }
  rewrite Zle_Qle.
  assert (bpow (-53) <= 1 # 1000) as Hu by (vm_compute; discriminate).
  assert (0 <= bpow (-53)) as Hu0 by apply Qlt_le_weak, bpow_pos.
  set (u := bpow (-53)) in *. set (x := inject_Z z) in *.
  set (s := fold_right Qplus 0 cs) in *.
  set (v := inject_Z (fold_right Z.add 0%Z (map (scaled z) cs))) in *. clearbody u x s v.
  assert (s * (1 + u) <= (999 # 1000) * (1001 # 1000))
    by (apply Qmult_le_compat_nonneg; split; lra).
  assert (x * s * (1 + u) == x * (s * (1 + u))) as E by ring.
  assert (0 <= x * (1 - s * (1 + u))) by (apply Qmult_le_0_compat; lra).
  lra.
Qed.

(** [int(z * c)] for a constant of [[0, 1]] and a size that converts
    exactly. *)
Lemma int_imulf_unit z c :
  (0 <= z <= 2 ^ 53)%Z -> finite c -> 0 <= B2Q c <= 1 ->
  int_imulf z c = Ok (scaled z (B2Q c)) /\ (0 <= scaled z (B2Q c) <= z)%Z.
Proof.
  intros Hz Fc Rc. split; [apply int_imulf_spec; [exact Hz|apply fbounded_unit; assumption]|].
  split; [apply scaled_nonneg; [lia|lra]|].
  apply scaled_le; [lia|]. pose proof (inject_Z_nonneg z ltac:(lia)).
  assert (0 <= inject_Z z * (1 - B2Q c)) by (apply Qmult_le_0_compat; lra). lra.
Qed.

(** For a tablet frame of at least 389 pixels the camera radius, doubled and
    with two pixels of room, stays below the bezel. *)
Lemma camera_radius_below_bezel fw :
  (389 <= fw <= 2 ^ 53)%Z ->
  (2 * Z.max (scaled fw (B2Q 0.004%float)) 2 + 2 < scaled fw (B2Q 0.018%float))%Z.
Proof.
  intros Hfw.
  assert (389 <= inject_Z fw) as Hq
    by (change 389 with (inject_Z 389); rewrite <- Zle_Qle; lia).
  assert (7 <= scaled fw (B2Q 0.018%float))%Z as H7.
  { apply scaled_ge; [simpl; lia|].
    assert (inject_Z 7 <= 389 * B2Q 0.018%float) by (vm_compute; discriminate).
    assert (0 <= B2Q 0.018%float) by (vm_compute; discriminate).
    assert (0 <= (inject_Z fw - 389) * B2Q 0.018%float) by (apply Qmult_le_0_compat; lra).
    lra. }
  destruct (Z_le_gt_dec (scaled fw (B2Q 0.004%float)) 2) as [Hsmall|Hbig]; [lia|].
  replace (Z.max (scaled fw (B2Q 0.004%float)) 2) with (scaled fw (B2Q 0.004%float)) by lia.
  pose proof (scaled_upper fw (B2Q 0.004%float) ltac:(lia) ltac:(vm_compute; discriminate)) as Hup.
  pose proof (scaled_lower fw (B2Q 0.018%float) ltac:(lia) ltac:(vm_compute; discriminate)) as Hlo.
  assert (1 # 101 <= B2Q 0.018%float * (1 - bpow (-53))
                     - 2 * (B2Q 0.004%float * (1 + bpow (-53)))) as HK
    by (vm_compute; discriminate).
  assert (2 * scaled fw (B2Q 0.004%float) + 3 < scaled fw (B2Q 0.018%float) + 1)%Z; [|lia].
  rewrite Zlt_Qlt, !inject_Z_plus, inject_Z_mult.
  change (inject_Z 2) with 2. change (inject_Z 3) with 3. change (inject_Z 1) with 1.
  set (a := B2Q 0.018%float * (1 - bpow (-53))) in *.
  set (b := B2Q 0.004%float * (1 + bpow (-53))) in *.
  assert (inject_Z fw * B2Q 0.018%float * (1 - bpow (-53)) == inject_Z fw * a) as E1
    by (unfold a; ring).
  assert (inject_Z fw * B2Q 0.004%float * (1 + bpow (-53)) == inject_Z fw * b) as E2
    by (unfold b; ring).
  rewrite E1 in Hlo. rewrite E2 in Hup.
  set (x := inject_Z fw) in *.
  set (r := inject_Z (scaled fw (B2Q 0.004%float))) in *.
  set (v := inject_Z (scaled fw (B2Q 0.018%float))) in *.
  clearbody a b x r v.
  assert (389 * (1 # 101) <= x * (a - 2 * b)).
  { apply Qmult_le_compat_nonneg; split; lra. }
  lra.
Qed.

(** *** The scale helper [S] *)

Lemma S_value v s k :
  (Z.abs v <= 2 ^ 53)%Z -> fbounded k s -> (0 <= k <= 900)%Z ->
  S v s = Ok (scaled v (B2Q s)).
Proof.
  intros Hv Bs Hk. unfold S, int_imulf, imulf, scaled.
  destruct (float_of_int_exact v Hv) as (f & -> & Ff & Vf). cbn [bind].
  assert (fbounded 53 f) as Bf.
  { apply (fbounded_of_value _ _ (inject_Z v) Ff Vf). rewrite (bpow_Z 53) by lia.
    apply Qabs_Qle_condition. rewrite <- inject_Z_opp, <- !Zle_Qle. lia. }
  destruct (mul_bounded 53 k _ _ Bf Bs ltac:(lia)) as [Bp Vp].
  rewrite (int_of_float_trunc _ (bounded_finite _ _ Bp)). f_equal.
  apply Qtrunc_compat. rewrite Vp, Vf. reflexivity.
Qed.

Lemma scaled_1 v : (Z.abs v <= 2 ^ 53)%Z -> scaled v 1 = v.
Proof.
  intros Hv. unfold scaled.
  assert (RN (inject_Z v * 1) == inject_Z v) as E.
  { assert (inject_Z v * 1 == inject_Z v) as -> by ring. apply RN_Z, Hv. }
  rewrite (Qtrunc_compat _ _ E). apply Qtrunc_Z.
Qed.

Lemma scaled_compat v c c' : c == c' -> scaled v c = scaled v c'.
Proof. intros E. unfold scaled. apply Qtrunc_compat. rewrite E. reflexivity. Qed.

(** The scale [w / 1290] of a canvas of width [w]. *)
Lemma canvas_scale w :
  (1 <= w <= 2 ^ 53)%Z ->
  exists s, truediv w 1290 = Ok s /\ fbounded 53 s /\
            0 < B2Q s /\ B2Q s <= inject_Z w * (1 # 1290) * (1 + bpow (-53)).
Proof.
  intros Hw.
  assert (1 <= inject_Z w) as Hw1 by (change 1 with (inject_Z 1); rewrite <- Zle_Qle; lia).
  assert (inject_Z w <= bpow 53) as Hw2 by (rewrite (bpow_Z 53) by lia; rewrite <- Zle_Qle; lia).
  assert (inject_Z w / inject_Z 1290 == inject_Z w * (1 # 1290)) as E by reflexivity.
  set (X := inject_Z w * (1 # 1290)) in *.
  assert (1 # 1290 <= X <= bpow 53) as RX.
  { unfold X. split; [lra|]. pose proof (bpow_pos 53). lra. }
  assert (bpow (-1022) <= X) as HN.
  { apply Qle_trans with (1 # 1290); [vm_compute; discriminate|apply RX]. }
  destruct (RN_error_normal X HN) as [Hlo Hup].
  assert (bpow (-11) <= RN X <= bpow 53) as RR.
  { apply RN_between; [apply RN_bpow; lia|apply RN_bpow; lia|].
    split; [|apply RX]. apply Qle_trans with (1 # 1290); [vm_compute; discriminate|apply RX]. }
  destruct (truediv_RN w 1290) as (s & Hs & Fs & Vs); [lia| |].
  - rewrite E. apply Qle_lt_trans with (bpow 53); [|apply bpow_lt; lia].
    apply Qabs_Qle_condition. pose proof (bpow_pos (-11)). lra.
  - rewrite E in Vs. exists s. split; [exact Hs|]. pose proof (bpow_pos (-11)).
    split; [split; [exact Fs|rewrite Vs; apply Qabs_Qle_condition; lra]|].
    split; rewrite Vs; [lra|exact Hup].
Qed.

(** Three times [S(80, s)] stays below the width of the canvas. *)
Lemma three_margins_fit w sigma :
  (1 <= w)%Z -> 0 < sigma -> sigma <= inject_Z w * (1 # 1290) * (1 + bpow (-53)) ->
  (3 * scaled 80 sigma < w)%Z.
Proof.
  intros Hw Hs0 Hs.
  pose proof (scaled_upper 80 sigma ltac:(lia) ltac:(lra)) as Hup.
  assert (1 <= inject_Z w) as Hw1 by (change 1 with (inject_Z 1); rewrite <- Zle_Qle; lia).
  rewrite Zlt_Qlt, inject_Z_mult. change (inject_Z 3) with 3. change (inject_Z 80) with 80 in Hup.
  assert (bpow (-53) <= 1 # 1000) as Hu by (vm_compute; discriminate).
  assert (0 <= bpow (-53)) as Hu0 by apply Qlt_le_weak, bpow_pos.
  set (u := bpow (-53)) in *. set (x := inject_Z w) in *.
  set (v := inject_Z (scaled 80 sigma)) in *. clearbody u x v.
  assert (sigma * (1 + u) <= x * (1 # 1290) * (1 + u) * (1 + u))
    by (apply Qmult_le_compat_r; lra).
  assert ((1 + u) * (1 + u) <= (1001 # 1000) * (1001 # 1000))
    by (apply Qmult_le_compat_nonneg; split; lra).
  assert (x * (1 # 1290) * (1 + u) * (1 + u) == x * ((1 # 1290) * ((1 + u) * (1 + u)))) as E
    by ring.
  assert (0 <= x * ((1 # 1290) * ((1001 # 1000) * (1001 # 1000) - (1 + u) * (1 + u))))
    by (apply Qmult_le_0_compat; lra).
  lra.
Qed.

Lemma x_offset_first W : x_offset W 0 = 0%Z.
Proof.
  unfold x_offset. rewrite <- (Qtrunc_Z 0). apply Qtrunc_compat.
  assert (inject_Z 0 / inject_Z 29 == 0) as -> by reflexivity.
  rewrite RN_0. assert (0 * RN (inject_Z W) == 0) as -> by ring.
  rewrite RN_0. reflexivity.
Qed.

Lemma x_offset_last W : (0 <= W <= 2 ^ 53)%Z -> x_offset W 29 = W.
Proof.
  intros HW. unfold x_offset. rewrite <- (Qtrunc_Z W) at 2. apply Qtrunc_compat.
  assert (inject_Z 29 / inject_Z 29 == inject_Z 1) as -> by reflexivity.
  rewrite (RN_Z 1) by (simpl; lia).
  assert (inject_Z 1 * RN (inject_Z W) == RN (inject_Z W)) as ->
    by (change (inject_Z 1) with 1; ring).
  rewrite (RN_Z W) by lia. apply RN_Z. lia.
Qed.

(** *** The bands of [gradient] and [gradient3] *)

Import Banded.

Lemma edge_quotient h k steps :
  (0 <= h)%Z -> (0 <= k <= steps)%Z -> (0 < steps)%Z ->
  0 <= inject_Z (h * k) / inject_Z steps <= inject_Z h.
Proof.
  intros Hh Hk Hs.
  assert (0 < inject_Z steps) by (change 0 with (inject_Z 0); rewrite <- Zlt_Qlt; lia).
  assert (0 <= inject_Z (h * k)) by (change 0 with (inject_Z 0); rewrite <- Zle_Qle; nia).
  assert (inject_Z (h * k) <= inject_Z h * inject_Z steps)
    by (rewrite <- inject_Z_mult, <- Zle_Qle; nia).
  split; [apply Qle_shift_div_l; lra|apply Qle_shift_div_r; lra].
Qed.

Lemma band_edge_spec h k steps :
  (0 <= h <= 2 ^ 53)%Z -> (0 <= k <= steps)%Z -> (0 < steps)%Z ->
  band_edge h k steps = Ok (edge_value h k steps) /\ (0 <= edge_value h k steps <= h)%Z.
Proof.
  intros Hh Hk Hs. pose proof (edge_quotient h k steps ltac:(lia) Hk Hs) as Hq.
  assert (0 <= RN (inject_Z (h * k) / inject_Z steps) <= inject_Z h) as HR.
  { split; [apply RN_nonneg; lra|apply RN_le_Z; [lia|lra]]. }
  unfold band_edge.
  destruct (truediv_RN (h * k) steps) as (q & -> & Fq & Vq).
  - lia.
  - apply Qle_lt_trans with (inject_Z (2 ^ 53)).
    + apply Qabs_Qle_condition. split.
      * apply Qle_trans with 0; [|lra]. rewrite <- inject_Z_opp, <- (Zle_Qle _ 0). lia.
      * apply Qle_trans with (inject_Z h); [lra|]. rewrite <- Zle_Qle. lia.
    + rewrite <- (bpow_Z 53) by lia. apply bpow_lt. lia.
  - cbn [bind]. rewrite (int_of_float_trunc _ Fq). split.
    + f_equal. unfold edge_value. apply Qtrunc_compat. exact Vq.
    + unfold edge_value. split.
      * rewrite <- (Qtrunc_Z 0). apply Qtrunc_mono. change (inject_Z 0) with 0. lra.
      * rewrite <- (Qtrunc_Z h) at 2. apply Qtrunc_mono. lra.
Qed.

Lemma edge_value_mono h k k' steps :
  (0 <= h)%Z -> (0 < steps)%Z -> (k <= k')%Z ->
  (edge_value h k steps <= edge_value h k' steps)%Z.
Proof.
  intros Hh Hs Hk. unfold edge_value. apply Qtrunc_mono, RN_mono.
  assert (0 < inject_Z steps) by (change 0 with (inject_Z 0); rewrite <- Zlt_Qlt; lia).
  apply Qmult_le_compat_r; [rewrite <- Zle_Qle; nia|].
  apply Qlt_le_weak, Qinv_lt_0_compat. assumption.
Qed.

Lemma edge_value_first h steps : edge_value h 0 steps = 0%Z.
Proof.
  unfold edge_value. rewrite Z.mul_0_r. rewrite <- (Qtrunc_Z 0). apply Qtrunc_compat.
  assert (inject_Z 0 / inject_Z steps == 0) as -> by (unfold Qdiv; change (inject_Z 0) with 0; ring).
  rewrite RN_0. reflexivity.
Qed.

Lemma edge_value_last h steps :
  (0 <= h <= 2 ^ 53)%Z -> (0 < steps)%Z -> edge_value h steps steps = h.
Proof.
  intros Hh Hs. unfold edge_value. rewrite <- (Qtrunc_Z h) at 2. apply Qtrunc_compat.
  assert (inject_Z (h * steps) / inject_Z steps == inject_Z h) as ->.
  { rewrite inject_Z_mult. field. change 0 with (inject_Z 0). rewrite inject_Z_injective. lia. }
  apply RN_Z. lia.
Qed.

(** The rectangle of band [i]. *)
Lemma draw_band_spec rect steps i c :
  (bx0 rect <= bx1 rect)%Z -> (0 <= by1 rect - by0 rect <= 2 ^ 53)%Z ->
  (0 <= i < steps)%Z ->
  draw_band rect steps i c
  = Ok (Band (Box (bx0 rect) (by0 rect + edge_value (by1 rect - by0 rect) i steps)
                  (bx1 rect) (by0 rect + edge_value (by1 rect - by0 rect) (i + 1) steps)) c).
Proof.
  intros Hx Hh Hi. unfold draw_band.
  destruct (band_edge_spec (by1 rect - by0 rect) i steps Hh ltac:(lia) ltac:(lia)) as [-> _].
  cbn [bind].
  destruct (band_edge_spec (by1 rect - by0 rect) (i + 1) steps Hh ltac:(lia) ltac:(lia))
    as [-> _].
  cbn [bind]. unfold check_rectangle. cbn [bx0 bx1 by0 by1].
  pose proof (edge_value_mono (by1 rect - by0 rect) i (i + 1) steps
                ltac:(lia) ltac:(lia) ltac:(lia)).
  destruct (Z.ltb_spec (bx1 rect) (bx0 rect)); [lia|].
  destruct (Z.ltb_spec (by0 rect + edge_value (by1 rect - by0 rect) (i + 1) steps)
                       (by0 rect + edge_value (by1 rect - by0 rect) i steps)); [lia|].
  reflexivity.
Qed.

(** Towards the second stop: a later fraction gives a colour at least as
    far from the first stop. *)
Lemma lerp_value_toward a b p q :
  channel_ok a -> 0 <= p -> p <= q -> between a (lerp_value a b q) (lerp_value a b p).
Proof.
  intros Ha Hp Hpq. unfold channel_ok in Ha. unfold between.
  assert (lerp_value a b 0 = a) as E0
    by (apply lerp_value_0; change (2 ^ 53)%Z with 9007199254740992%Z; lia).
  destruct (Z_le_gt_dec a b) as [Hab|Hab].
  - pose proof (lerp_value_mono_up a b 0 p Hab Hp).
    pose proof (lerp_value_mono_up a b p q Hab Hpq). lia.
  - pose proof (lerp_value_mono_down a b 0 p ltac:(lia) Hp).
    pose proof (lerp_value_mono_down a b p q ltac:(lia) Hpq). lia.
Qed.

Lemma lerp_color_toward c1 c2 p q :
  color_ok c1 -> 0 <= p -> p <= q ->
  color_between c1 (lerp_color c1 c2 q) (lerp_color c1 c2 p).
Proof.
  destruct c1 as [[r1 g1] b1], c2 as [[r2 g2] b2].
  intros (Hr1 & Hg1 & Hb1) Hp Hpq. unfold lerp_color, color_between.
  repeat split; apply lerp_value_toward; assumption.
Qed.

Lemma lerp_color_0 c1 c2 : color_ok c1 -> lerp_color c1 c2 0 = c1.
Proof.
  destruct c1 as [[r1 g1] b1], c2 as [[r2 g2] b2]. unfold color_ok, channel_ok, lerp_color.
  intros H. rewrite !lerp_value_0 by (change (2 ^ 53)%Z with 9007199254740992%Z; lia).
  reflexivity.
Qed.

Lemma lerp_color_compat c1 c2 p q : p == q -> lerp_color c1 c2 p = lerp_color c1 c2 q.
Proof.
  intros E. destruct c1 as [[r1 g1] b1], c2 as [[r2 g2] b2]. unfold lerp_color.
  rewrite !(lerp_value_compat _ _ _ _ E). reflexivity.
Qed.

Lemma gradient_step_spec rect c1 c2 steps i :
  (bx0 rect <= bx1 rect)%Z -> (0 <= by1 rect - by0 rect <= 2 ^ 53)%Z ->
  color_ok c1 -> color_ok c2 -> (0 <= i < steps)%Z ->
  gradient_step rect c1 c2 steps i
  = Ok (Band (Box (bx0 rect) (by0 rect + edge_value (by1 rect - by0 rect) i steps)
                  (bx1 rect) (by0 rect + edge_value (by1 rect - by0 rect) (i + 1) steps))
             (lerp_color c1 c2 (RN (inject_Z i / inject_Z steps)))).
Proof.
  intros Hx Hh H1 H2 Hi. unfold gradient_step.
  destruct (truediv_unit_le i steps ltac:(lia) ltac:(lia)) as (t & -> & Ft & Vt & Rt).
  cbn [bind].
  rewrite (lerp_spec c1 c2 0 t (fbounded_unit t Ft Rt)) by (assumption || lia).
  cbn [bind]. rewrite (draw_band_spec rect steps i _ Hx Hh Hi).
  rewrite (lerp_color_compat _ _ _ _ Vt). reflexivity.
Qed.

Lemma range_nth n i x :
  nth_error (range n) i = Some x -> x = Z.of_nat i /\ (Z.of_nat i < n)%Z.
Proof.
  unfold range. intros H. apply nth_error_range in H. destruct H as [-> Hi]. split; [reflexivity|lia].
Qed.

Lemma for_each_map {A B : Type} (f : A -> result B) (F : A -> B) xs :
  (forall x, In x xs -> f x = Ok (F x)) ->
  forall acc,
    for_each xs (fun x bs => b <- f x ;; Ok (bs ++ [b])) acc = Ok (acc ++ map F xs).
Proof.
  induction xs as [|x xs IH]; intros Hf acc; cbn [for_each map].
  - rewrite app_nil_r. reflexivity.
  - rewrite (Hf x (or_introl eq_refl)). cbn [bind].
    rewrite IH by (intros y Hy; apply Hf; right; exact Hy).
    rewrite <- app_assoc. reflexivity.
Qed.

Lemma range_length n : (0 <= n)%Z -> Z.of_nat (List.length (range n)) = n.
Proof. intros Hn. unfold range. rewrite length_map, length_seq. lia. Qed.

Lemma range_In n x : In x (range n) -> (0 <= x < n)%Z.
Proof.
  unfold range. intros H. apply in_map_iff in H. destruct H as (k & <- & Hk).
  apply in_seq in Hk. lia.
Qed.

Lemma nth_error_map_range {B : Type} (F : Z -> B) n i b :
  nth_error (map F (range n)) i = Some b -> b = F (Z.of_nat i) /\ (Z.of_nat i < n)%Z.
Proof.
  intros H. rewrite nth_error_map in H.
  destruct (nth_error (range n) i) as [x|] eqn:Ex; [|discriminate].
  apply range_nth in Ex. destruct Ex as [-> Hi]. injection H as <-. split; [reflexivity|exact Hi].
Qed.

Lemma nth_error_map_range_at {B : Type} (F : Z -> B) n i :
  (0 <= i < n)%Z -> nth_error (map F (range n)) (Z.to_nat i) = Some (F i).
Proof.
  intros Hi. rewrite nth_error_map. unfold range.
  rewrite nth_error_map, nth_error_seq.
  destruct (Nat.ltb_spec (Z.to_nat i) (Z.to_nat n)) as [_|]; [|lia].
  cbn [option_map]. rewrite Nat.add_0_l, Z2Nat.id by lia. reflexivity.
Qed.

Lemma fraction_mono i j steps :
  (0 <= i)%Z -> (i <= j)%Z -> (0 < steps)%Z ->
  0 <= RN (inject_Z i / inject_Z steps) /\
  RN (inject_Z i / inject_Z steps) <= RN (inject_Z j / inject_Z steps).
Proof.
  intros Hi Hij Hs.
  assert (0 < inject_Z steps) by (change 0 with (inject_Z 0); rewrite <- Zlt_Qlt; lia).
  assert (0 <= inject_Z i) by (change 0 with (inject_Z 0); rewrite <- Zle_Qle; lia).
  split.
  - apply RN_nonneg. apply Qle_shift_div_l; lra.
  - apply RN_mono. apply Qmult_le_compat_r; [rewrite <- Zle_Qle; exact Hij|].
    apply Qlt_le_weak, Qinv_lt_0_compat. assumption.
Qed.

(** *** Comparison of two floats *)

Lemma SF2Q_pos_lt_mant m1 e m2 :
  (Zpos m1 < Zpos m2)%Z ->
  inject_Z (Zpos m1) * bpow e < inject_Z (Zpos m2) * bpow e.
Proof.
  intros H. apply Qmult_lt_r; [apply bpow_pos|]. rewrite <- Zlt_Qlt. exact H.
Qed.

Lemma SFltb_decides x y :
  SpecFloat.valid_binary prec emax x = true -> SpecFloat.valid_binary prec emax y = true ->
  SFfinite x = true -> SFfinite y = true ->
  if SFltb x y then SF2Q x < SF2Q y else SF2Q y <= SF2Q x.
Proof.
  intros Vx Vy Fx Fy. unfold SFltb, SFcompare.
  destruct x as [sx|sx| |sx mx ex], y as [sy|sy| |sy my ey]; try discriminate.
  - change (SF2Q (S754_zero sx)) with 0.
    pose proof (inject_Z_pos_lt my). pose proof (bpow_pos ey).
    assert (0 < inject_Z (Zpos my) * bpow ey) by (apply Qmult_lt_0_compat; assumption).
    destruct sy; cbv beta iota; rewrite SF2Q_finite; unfold sgn; lra.
  - change (SF2Q (S754_zero sy)) with 0.
    pose proof (inject_Z_pos_lt mx). pose proof (bpow_pos ex).
    assert (0 < inject_Z (Zpos mx) * bpow ex) by (apply Qmult_lt_0_compat; assumption).
    destruct sx; cbv beta iota; rewrite SF2Q_finite; unfold sgn; lra.
  - pose proof (inject_Z_pos_lt mx). pose proof (bpow_pos ex).
    pose proof (inject_Z_pos_lt my). pose proof (bpow_pos ey).
    assert (0 < inject_Z (Zpos mx) * bpow ex) by (apply Qmult_lt_0_compat; assumption).
    assert (0 < inject_Z (Zpos my) * bpow ey) by (apply Qmult_lt_0_compat; assumption).
    change (PosDef.Pos.compare_cont Eq mx my) with (Pos.compare mx my).
    destruct sx, sy; cbv beta iota.
    + destruct (Z.compare_spec ex ey) as [->|Hlt|Hgt].
      * destruct (Pos.compare_spec mx my) as [->|Hm|Hm]; cbn [CompOpp]; cbv beta iota;
          rewrite !SF2Q_finite; unfold sgn.
        -- lra.
        -- pose proof (SF2Q_pos_lt_mant mx ey my ltac:(lia)). lra.
        -- pose proof (SF2Q_pos_lt_mant my ey mx ltac:(lia)). lra.
      * cbv beta iota. rewrite !SF2Q_finite; unfold sgn.
        pose proof (SF2Q_pos_lt _ _ _ _ _ _ Vx Vy Hlt). lra.
      * cbv beta iota. rewrite !SF2Q_finite; unfold sgn.
        pose proof (SF2Q_pos_lt _ _ _ _ _ _ Vy Vx ltac:(lia)). lra.
    + rewrite !SF2Q_finite; unfold sgn. lra.
    + rewrite !SF2Q_finite; unfold sgn. lra.
    + destruct (Z.compare_spec ex ey) as [->|Hlt|Hgt].
      * destruct (Pos.compare_spec mx my) as [->|Hm|Hm]; cbv beta iota;
          rewrite !SF2Q_finite; unfold sgn.
        -- lra.
        -- pose proof (SF2Q_pos_lt_mant mx ey my ltac:(lia)). lra.
        -- pose proof (SF2Q_pos_lt_mant my ey mx ltac:(lia)). lra.
      * cbv beta iota. rewrite !SF2Q_finite; unfold sgn.
        pose proof (SF2Q_pos_lt _ _ _ _ _ _ Vx Vy Hlt). lra.
      * cbv beta iota. rewrite !SF2Q_finite; unfold sgn.
        pose proof (SF2Q_pos_lt _ _ _ _ _ _ Vy Vx ltac:(lia)). lra.
Qed.

Lemma ltb_decides x y :
  finite x -> finite y -> if (x <? y)%float then B2Q x < B2Q y else B2Q y <= B2Q x.
Proof.
  intros Fx Fy. rewrite ltb_spec.
  apply SFltb_decides; try assumption; apply valid_Prim2SF.
Qed.

(** *** The colours of [gradient3] *)

Lemma fmuli_2 t k :
  fbounded k t -> (-1074 <= k <= 1000)%Z ->
  exists d, fmuli t 2 = Ok d /\ finite d /\ B2Q d == RN (B2Q t * 2).
Proof.
  intros Bt Hk. unfold fmuli.
  destruct (float_of_int_exact 2) as (f & -> & Ff & Vf); [simpl; lia|]. cbn [bind].
  assert (fbounded 1 f) as Bf.
  { apply (fbounded_of_value _ _ (inject_Z 2) Ff Vf). vm_compute. discriminate. }
  destruct (mul_bounded k 1 _ _ Bt Bf ltac:(lia)) as [Bd Vd].
  eexists. split; [reflexivity|]. split; [exact (bounded_finite _ _ Bd)|].
  rewrite Vd, Vf. reflexivity.
Qed.

Lemma gradient3_color_spec c1 c2 c3 t :
  color_ok c1 -> color_ok c2 -> color_ok c3 -> finite t -> 0 <= B2Q t <= 1 ->
  gradient3_color c1 c2 c3 t = Ok (gradient3_value c1 c2 c3 (B2Q t)).
Proof.
  intros H1 H2 H3 Ft Rt. unfold gradient3_color, gradient3_value.
  assert (finite 0.5%float) as Fh by float_const.
  assert (B2Q 0.5%float == 1 # 2) as Vh by float_const.
  pose proof (ltb_decides t 0.5%float Ft Fh) as Hcmp.
  destruct (t <? 0.5)%float; rewrite Vh in Hcmp;
    destruct (Qlt_le_dec (B2Q t) (1 # 2)) as [Hlt|Hge]; try lra.
  - destruct (fmuli_2 t 0 (fbounded_unit t Ft Rt) ltac:(lia)) as (d & -> & Fd & Vd).
    cbn [bind].
    assert (0 <= B2Q d <= 1) as Rd by (rewrite Vd; apply RN_unit; lra).
    rewrite (lerp_spec c1 c2 0 d (fbounded_unit d Fd Rd)) by (assumption || lia).
    apply f_equal, lerp_color_compat, Vd.
  - assert (fbounded 0 0.5%float) as Bh by (split; float_const).
    destruct (sub_bounded 0 0 _ _ (fbounded_unit t Ft Rt) Bh ltac:(lia)) as [Bu Vu].
    rewrite Vh in Vu.
    assert (0 <= B2Q (t - 0.5)%float <= 1 # 2) as Ru.
    { rewrite Vu. apply RN_between; [reflexivity| |lra].
      rewrite <- Vh. apply RN_B2Q. }
    destruct (fmuli_2 (t - 0.5)%float 1 Bu ltac:(lia)) as (d & -> & Fd & Vd).
    cbn [bind].
    assert (0 <= B2Q d <= 1) as Rd by (rewrite Vd; apply RN_unit; lra).
    rewrite (lerp_spec c2 c3 0 d (fbounded_unit d Fd Rd)) by (assumption || lia).
    apply f_equal, lerp_color_compat. rewrite Vd, Vu. reflexivity.
Qed.

Lemma gradient3_value_compat c1 c2 c3 p q :
  p == q -> gradient3_value c1 c2 c3 p = gradient3_value c1 c2 c3 q.
Proof.
  intros E. unfold gradient3_value.
  destruct (Qlt_le_dec p (1 # 2)), (Qlt_le_dec q (1 # 2)); try lra;
    apply lerp_color_compat; rewrite E; reflexivity.
Qed.

Lemma gradient3_value_low c1 c2 c3 q :
  color_ok c1 -> color_ok c2 -> 0 <= q -> q < 1 # 2 ->
  color_between c1 c2 (gradient3_value c1 c2 c3 q).
Proof.
  intros H1 H2 Hq0 Hq. unfold gradient3_value.
  destruct (Qlt_le_dec q (1 # 2)); [|lra].
  apply lerp_color_between; [exact H1|exact H2|]. apply RN_unit. lra.
Qed.

Lemma gradient3_value_high c1 c2 c3 q :
  color_ok c2 -> color_ok c3 -> 1 # 2 <= q -> q <= 1 ->
  color_between c2 c3 (gradient3_value c1 c2 c3 q).
Proof.
  intros H2 H3 Hq Hq1. unfold gradient3_value.
  destruct (Qlt_le_dec q (1 # 2)); [lra|].
  apply lerp_color_between; [exact H2|exact H3|].
  assert (RN (1 # 2) == 1 # 2) as Eh.
  { assert (1 # 2 == B2Q 0.5%float) as -> by float_const. apply RN_B2Q. }
  assert (0 <= RN (q - (1 # 2)) <= 1 # 2) by (apply RN_between; [reflexivity|exact Eh|lra]).
  apply RN_unit. lra.
Qed.

Lemma gradient3_value_0 c1 c2 c3 : color_ok c1 -> gradient3_value c1 c2 c3 0 = c1.
Proof.
  intros H1. unfold gradient3_value. destruct (Qlt_le_dec 0 (1 # 2)); [|lra].
  rewrite (lerp_color_compat c1 c2 _ 0); [apply lerp_color_0; exact H1|].
  assert (0 * 2 == 0) as -> by ring. apply RN_0.
Qed.

Lemma gradient3_value_half c1 c2 c3 : color_ok c2 -> gradient3_value c1 c2 c3 (1 # 2) = c2.
Proof.
  intros H2. unfold gradient3_value. destruct (Qlt_le_dec (1 # 2) (1 # 2)); [lra|].
  rewrite (lerp_color_compat c2 c3 _ 0); [apply lerp_color_0; exact H2|].
  assert ((1 # 2) - (1 # 2) == 0) as -> by ring. rewrite RN_0.
  assert (0 * 2 == 0) as -> by ring. apply RN_0.
Qed.

(** Below the middle the fraction [i / steps] rounds to a float below one
    half. *)
Lemma fraction_below_half i steps :
  (0 <= i)%Z -> (2 * i < steps)%Z -> (steps <= 2 ^ 53)%Z ->
  0 <= RN (inject_Z i / inject_Z steps) < 1 # 2.
Proof.
  intros Hi H2 Hs.
  assert (0 < inject_Z steps) as Hs0 by (change 0 with (inject_Z 0); rewrite <- Zlt_Qlt; lia).
  assert (0 <= inject_Z i) by (change 0 with (inject_Z 0); rewrite <- Zle_Qle; lia).
  assert (inject_Z steps <= inject_Z (2 ^ 53)) as Hs1 by (rewrite <- Zle_Qle; exact Hs).
  assert (2 * inject_Z i + 1 <= inject_Z steps) as H21.
  { change 2 with (inject_Z 2). change 1 with (inject_Z 1).
    rewrite <- inject_Z_mult, <- inject_Z_plus, <- Zle_Qle. lia. }
  set (lim := B2Q 0.49999999999999994%float).
  assert (lim == (1 # 2) - bpow (-54)) as El by (vm_compute; reflexivity).
  assert (bpow (-54) * inject_Z (2 ^ 53) == 1 # 2) as Eb by (vm_compute; reflexivity).
  pose proof (bpow_pos (-54)) as Hb.
  split.
  - apply RN_nonneg. apply Qle_shift_div_l; lra.
  - apply Qle_lt_trans with lim; [|lra].
    assert (RN lim == lim) as <- by apply RN_B2Q. apply RN_mono.
    apply Qle_shift_div_r; [exact Hs0|]. rewrite El.
    assert (bpow (-54) * inject_Z steps <= 1 # 2).
    { rewrite <- Eb. apply Qmult_le_l; [exact Hb|exact Hs1]. }
    lra.
Qed.

Lemma fraction_above_half i steps :
  (i <= steps)%Z -> (steps <= 2 * i)%Z -> (0 < steps)%Z ->
  1 # 2 <= RN (inject_Z i / inject_Z steps) <= 1.
Proof.
  intros Hi H2 Hs.
  assert (0 < inject_Z steps) as Hs0 by (change 0 with (inject_Z 0); rewrite <- Zlt_Qlt; lia).
  assert (inject_Z steps <= 2 * inject_Z i) as H21.
  { change 2 with (inject_Z 2). rewrite <- inject_Z_mult, <- Zle_Qle. lia. }
  assert (inject_Z i <= inject_Z steps) by (rewrite <- Zle_Qle; lia).
  apply RN_between.
  - assert (1 # 2 == B2Q 0.5%float) as -> by float_const. apply RN_B2Q.
  - apply (RN_Z 1). simpl. lia.
  - split; [apply Qle_shift_div_l; lra|apply Qle_shift_div_r; lra].
Qed.

Lemma gradient3_step_spec rect c1 c2 c3 steps i :
  (bx0 rect <= bx1 rect)%Z -> (0 <= by1 rect - by0 rect <= 2 ^ 53)%Z ->
  color_ok c1 -> color_ok c2 -> color_ok c3 -> (0 <= i < steps)%Z ->
  gradient3_step rect c1 c2 c3 steps i
  = Ok (Band (Box (bx0 rect) (by0 rect + edge_value (by1 rect - by0 rect) i steps)
                  (bx1 rect) (by0 rect + edge_value (by1 rect - by0 rect) (i + 1) steps))
             (gradient3_value c1 c2 c3 (RN (inject_Z i / inject_Z steps)))).
Proof.
  intros Hx Hh H1 H2 H3 Hi. unfold gradient3_step.
  destruct (truediv_unit_le i steps ltac:(lia) ltac:(lia)) as (t & -> & Ft & Vt & Rt).
  cbn [bind].
  rewrite (gradient3_color_spec c1 c2 c3 t H1 H2 H3 Ft Rt).
  cbn [bind]. rewrite (draw_band_spec rect steps i _ Hx Hh Hi).
  rewrite (gradient3_value_compat _ _ _ _ _ Vt). reflexivity.
Qed.

(** *** The activity list *)

Import Activity.

Lemma draw_activity_row_spec margin w s y :
  finite s -> 1 # 95 <= B2Q s <= bpow 900 -> (2 * margin <= w)%Z ->
  (1 <= scaled 95 (B2Q s))%Z /\
  exists row,
    draw_activity_row margin w s y (Some (scaled 95 (B2Q s)))
    = Ok (row, scaled 95 (B2Q s)) /\
    row_card row = Box margin y (w - margin) (y + scaled 95 (B2Q s) - scaled 8 (B2Q s)) /\
    nonempty (row_card row).
Proof.
  intros Fs Rs Hm.
  assert (fbounded 900 s) as Bs by (split; [exact Fs|apply Qabs_Qle_condition; lra]).
  assert (0 <= B2Q s) as Hs0 by lra.
  assert (forall v, (0 <= v <= 1000)%Z ->
            S v s = Ok (scaled v (B2Q s)) /\ (0 <= scaled v (B2Q s))%Z) as HS.
  { intros v Hv. split.
    - apply (S_value v s 900); [|exact Bs|lia].
      change (2 ^ 53)%Z with 9007199254740992%Z. lia.
    - apply scaled_nonneg; [lia|exact Hs0]. }
  assert (1 <= scaled 95 (B2Q s))%Z as H95.
  { apply scaled_ge; [simpl; lia|]. change (inject_Z 1) with 1. change (inject_Z 95) with 95.
    lra. }
  split; [exact H95|].
  assert (scaled 8 (B2Q s) <= scaled 95 (B2Q s))%Z as H8
    by (apply scaled_mono_size; [lia|exact Hs0]).
  unfold draw_activity_row, row_height.
  destruct (Z.eqb_spec (scaled 95 (B2Q s)) 0) as [E|_]; [lia|]. cbn [bind].
  unfold rrect, circ, check_rounded_rectangle, Mockup.check_ellipse.
  repeat match goal with
         | |- context [S ?v s] =>
             let H := fresh "P" in
             destruct (HS v ltac:(lia)) as [-> H]; cbn [bind]
         end.
  cbn [bx0 bx1 by0 by1].
  repeat match goal with
         | |- context [Z.ltb ?a ?b] => destruct (Z.ltb_spec a b); [lia|]; cbn [orb bind]
         end.
  eexists. split; [reflexivity|]. cbn [row_card]. split; [reflexivity|].
  unfold nonempty. cbn [bx0 bx1 by0 by1]. lia.
Qed.

Lemma activity_list_spec {A : Type} margin w h s (acts : list A) :
  finite s -> 1 # 95 <= B2Q s <= bpow 900 -> (2 * margin <= w)%Z ->
  forall y rows0,
  exists rows,
    activity_list margin w h s acts y rows0
    = Ok (rows0 ++ rows, (y + Z.of_nat (List.length rows) * scaled 95 (B2Q s))%Z) /\
    (List.length rows <= List.length acts)%nat /\
    (forall i r, nth_error rows i = Some r ->
       row_card r = Box margin (y + Z.of_nat i * scaled 95 (B2Q s)) (w - margin)
                        (y + (Z.of_nat i + 1) * scaled 95 (B2Q s) - scaled 8 (B2Q s)) /\
       nonempty (row_card r) /\
       (y + (Z.of_nat i + 1) * scaled 95 (B2Q s) <= h - scaled 20 (B2Q s))%Z) /\
    ((List.length rows < List.length acts)%nat ->
     (h - scaled 20 (B2Q s) < y + (Z.of_nat (List.length rows) + 1) * scaled 95 (B2Q s))%Z).
Proof.
  intros Fs Rs Hm.
  assert (fbounded 900 s) as Bs by (split; [exact Fs|apply Qabs_Qle_condition; lra]).
  assert (forall v, (0 <= v <= 1000)%Z -> S v s = Ok (scaled v (B2Q s))) as HS.
  { intros v Hv. apply (S_value v s 900); [|exact Bs|lia].
    change (2 ^ 53)%Z with 9007199254740992%Z. lia. }
  induction acts as [|a rest IH]; intros y rows0.
  - exists []. cbn [activity_list List.length Z.of_nat]. rewrite app_nil_r.
    split; [do 2 f_equal; lia|]. split; [lia|]. split.
    + intros i r Hi. destruct i; discriminate Hi.
    + cbn [List.length]. lia.
  - cbn [activity_list]. rewrite !(HS 95%Z), (HS 20%Z) by lia. cbn [bind].
    destruct (Z.gtb_spec (y + scaled 95 (B2Q s)) (h - scaled 20 (B2Q s))) as [Hbreak|Hfit].
    + exists []. cbn [List.length Z.of_nat]. rewrite app_nil_r.
      split; [do 2 f_equal; lia|]. split; [lia|]. split.
      * intros i r Hi. destruct i; discriminate Hi.
      * intros _. lia.
    + destruct (draw_activity_row_spec margin w s y Fs Rs Hm) as (H95 & row & -> & Hcard & Hne).
      cbn [bind].
      destruct (IH (y + scaled 95 (B2Q s))%Z (rows0 ++ [row])) as (rows & -> & Hlen & Hrows & Hmax).
      exists (row :: rows). rewrite <- app_assoc. cbn [app List.length].
      split; [do 2 f_equal; lia|]. split; [lia|]. split.
      * intros i r Hi. destruct i as [|i]; cbn [nth_error] in Hi.
        -- injection Hi as <-. split; [rewrite Hcard; f_equal; lia|].
           split; [exact Hne|]. lia.
        -- destruct (Hrows i r Hi) as (Ec & Hn & Hy).
           split; [rewrite Ec; f_equal; lia|]. split; [exact Hn|]. lia.
      * intros Hlt. specialize (Hmax ltac:(lia)). lia.
Qed.

(** *** The summary cards *)

Import Summary.

(** Twice [S(v, s)] is at most [S(2 * v, s)]. *)
Lemma scaled_double_le z c : (0 <= z)%Z -> 0 <= c -> (2 * scaled z c <= scaled (2 * z) c)%Z.
Proof.
  intros Hz Hc.
  pose proof (inject_Z_nonneg z Hz) as Hz0.
  assert (0 <= inject_Z z * c) as Hx by (apply Qmult_le_0_compat; assumption).
  pose proof (scaled_nonneg (2 * z) c ltac:(lia) Hc) as H2.
  destruct (Qlt_le_dec (inject_Z z * c) (bpow (-1022))) as [Hsmall|Hnormal].
  - destruct (RN_below_1 _ Hx Hsmall) as [R0 R1].
    assert (scaled z c = 0)%Z as ->; [|lia].
    rewrite (scaled_floor z c Hz Hc).
    assert (Qfloor (RN (inject_Z z * c)) <= 0)%Z.
    { assert (Qfloor (RN (inject_Z z * c)) < 1)%Z; [|lia].
      rewrite Zlt_Qlt. apply Qle_lt_trans with (RN (inject_Z z * c)); [apply Qfloor_le|].
      exact R1. }
    assert (0 <= Qfloor (RN (inject_Z z * c)))%Z
      by (change 0%Z with (Qfloor 0); apply Qfloor_resp_le; exact R0).
    lia.
  - rewrite (scaled_floor z c Hz Hc), (scaled_floor (2 * z) c ltac:(lia) Hc).
    assert (RN (inject_Z (2 * z) * c) == 2 * RN (inject_Z z * c)) as E.
    { rewrite <- (RN_double _ Hnormal). rewrite inject_Z_mult.
      change (inject_Z 2) with 2. apply RN_proper. ring. }
    rewrite (Qfloor_comp _ _ E).
    set (r := RN (inject_Z z * c)).
    rewrite <- (Qfloor_Z (2 * Qfloor r)). apply Qfloor_resp_le.
    rewrite inject_Z_mult. change (inject_Z 2) with 2.
    pose proof (Qfloor_le r). lra.
Qed.

Lemma for_each_ext {A St : Type} (f g : A -> St -> result St) xs :
  (forall x st, f x st = g x st) -> forall st, for_each xs f st = for_each xs g st.
Proof.
  intros E. induction xs as [|x xs IH]; intros st; cbn [for_each]; [reflexivity|].
  rewrite E. destruct (g x st) as [st'|e]; cbn [bind]; [apply IH|reflexivity].
Qed.

Lemma map_fst_combine_seq {A : Type} (xs : list A) : forall k,
  map fst (combine (map Z.of_nat (seq k (List.length xs))) xs)
  = map Z.of_nat (seq k (List.length xs)).
Proof.
  induction xs as [|x xs IH]; intros k; cbn [List.length seq map combine fst]; [reflexivity|].
  rewrite IH. reflexivity.
Qed.

Lemma enumerate_fst {A : Type} (xs : list A) :
  map fst (enumerate xs) = map Z.of_nat (seq 0 (List.length xs)).
Proof. apply map_fst_combine_seq. Qed.

(** A loop that appends one element per item of [enumerate(items)], the
    element depending on the index only. *)
Lemma for_each_enumerate {A B : Type} (f : Z -> result B) (F : Z -> B) (items : list A) :
  (forall j, (0 <= j < Z.of_nat (List.length items))%Z -> f j = Ok (F j)) ->
  for_each (enumerate items) (fun '(j, _) bs => b <- f j ;; Ok (bs ++ [b])) []
  = Ok (map F (map Z.of_nat (seq 0 (List.length items)))).
Proof.
  intros Hf.
  rewrite (for_each_ext _ (fun p bs => b <- f (fst p) ;; Ok (bs ++ [b])))
    by (intros [j a] st; reflexivity).
  rewrite (for_each_map (fun p => f (fst p)) (fun p => F (fst p))).
  - cbn [app]. rewrite <- enumerate_fst, map_map. reflexivity.
  - intros [j a] Hin. cbn [fst]. apply Hf.
    assert (In j (map fst (enumerate items))) as Hj by (apply in_map_iff; exists (j, a); auto).
    rewrite enumerate_fst in Hj. apply in_map_iff in Hj. destruct Hj as (k & <- & Hk).
    apply in_seq in Hk. lia.
Qed.

Lemma draw_summary_card_spec margin s y ch cw j :
  finite s -> 0 <= B2Q s <= bpow 900 -> (0 <= ch)%Z -> (0 <= cw)%Z ->
  exists c,
    draw_summary_card margin s y ch cw j = Ok c /\
    card_box c = Box (margin + j * (cw + scaled 20 (B2Q s))) y
                     (margin + j * (cw + scaled 20 (B2Q s)) + cw) (y + ch).
Proof.
  intros Fs Rs Hch Hcw.
  assert (fbounded 900 s) as Bs by (split; [exact Fs|apply Qabs_Qle_condition; lra]).
  assert (forall v, (0 <= v <= 1000)%Z ->
            S v s = Ok (scaled v (B2Q s)) /\ (0 <= scaled v (B2Q s))%Z) as HS.
  { intros v Hv. split.
    - apply (S_value v s 900); [|exact Bs|lia].
      change (2 ^ 53)%Z with 9007199254740992%Z. lia.
    - apply scaled_nonneg; [lia|apply Rs]. }
  unfold draw_summary_card, rrect, circ, check_rounded_rectangle, Mockup.check_ellipse.
  repeat match goal with
         | |- context [S ?v s] =>
             let H := fresh "P" in
             destruct (HS v ltac:(lia)) as [-> H]; cbn [bind]
         end.
  cbn [bx0 bx1 by0 by1].
  repeat match goal with
         | |- context [Z.ltb ?a ?b] => destruct (Z.ltb_spec a b); [lia|]; cbn [orb bind]
         end.
  eexists. split; reflexivity.
Qed.

Local Close Scope Q_scope.

(** ** The error monad *)

Lemma bind_ok_inv {A B : Type} (r : result A) (k : A -> result B) (b : B) :
  bind r k = Ok b -> exists a, r = Ok a /\ k a = Ok b.
Proof.
  destruct r as [a|e]; simpl; intros Hk.
  - exists a. split; [reflexivity | exact Hk].
  - discriminate Hk.
Qed.

Ltac bind_inv H :=
  let a := fresh "v" in
  let Ha := fresh "Hv" in
  apply bind_ok_inv in H; destruct H as [a [Ha H]].

(** ** Device frames *)

Section FrameFacts.



Lemma check_new_ok w h : 0 <= w -> 0 <= h -> check_new w h = Ok tt.
Proof.
  intros Hw Hh. unfold check_new.
  destruct (Z.ltb_spec w 0); [lia|]. destruct (Z.ltb_spec h 0); [lia|]. reflexivity.
Qed.


Lemma check_rounded_rectangle_ok b r :
  bx0 b <= bx1 b -> by0 b <= by1 b -> 0 <= r -> check_rounded_rectangle b r = Ok tt.
Proof.
  intros Hx Hy Hr. unfold check_rounded_rectangle.
  destruct (Z.ltb_spec (bx1 b) (bx0 b)); [lia|].
  destruct (Z.ltb_spec (by1 b) (by0 b)); [lia|].
  destruct (Z.ltb_spec r 0); [lia|]. reflexivity.
Qed.

End FrameFacts.






(** C3: a 100 x 200 screenshot in a phone frame of width 300 has bezel
    [max(int(300 * 0.022), 5) = 6], inner size 288 x 576, frame height 588,
    and the image returned is 308 wide and 596 (at least 584) high. *)
Theorem iphone_frame_100x200_at_300 :
  int_imulf 300 0.022 = Ok 6 /\
  exists f,
    build_iphone_frame 100 200 300 = Ok f /\
    bezel (frame_geometry f) = 6 /\
    inner_w (frame_geometry f) = 288 /\
    inner_h (frame_geometry f) = 576 /\
    frame_h (frame_geometry f) = 588 /\
    canvas_w f = 308 /\
    canvas_h f = 596 /\
    584 <= canvas_h f.
Proof.
  split; [vm_compute; reflexivity|].
  eexists. split; [vm_compute; reflexivity|].
  simpl. repeat split; lia.
Qed.

(** ** The gradient image *)

Section GradientImage.

Lemma fill_span_all c x0 x1 : forall row x,
  x0 <= x -> x + Z.of_nat (List.length row) - 1 <= x1 ->
  fill_span x x0 x1 c row = repeat c (List.length row).
Proof.
  induction row as [|p row IH]; intros x Hlo Hhi; cbn [fill_span List.length repeat].
  - reflexivity.
  - cbn [List.length] in Hhi.
    destruct (Z.leb_spec x0 x) as [_|]; [|lia].
    destruct (Z.leb_spec x x1) as [_|]; [|lia]. cbn [andb].
    f_equal. apply IH; lia.
Qed.

Lemma update_row_length f : forall rs y,
  List.length (update_row y f rs) = List.length rs.
Proof.
  induction rs as [|r rs IH]; intros y; destruct y; cbn [update_row List.length];
    try reflexivity. f_equal. apply IH.
Qed.

Lemma nth_error_update_row f : forall rs y i,
  nth_error (update_row y f rs) i =
  if Nat.eqb i y then option_map f (nth_error rs i) else nth_error rs i.
Proof.
  induction rs as [|r rs IH]; intros y i.
  - destruct y, i; cbn; try reflexivity. destruct (Nat.eqb i y); reflexivity.
  - destruct y, i; cbn [update_row nth_error Nat.eqb option_map]; try reflexivity.
    apply IH.
Qed.

Variables (w h : Z) (stops : list color).

Lemma image_new_painted :
  0 <= w -> 0 <= h ->
  exists img, image_new w h = Ok img /\ painted w h stops 0 img.
Proof.
  intros Hw Hh. unfold image_new. rewrite check_new_ok by assumption. cbn [bind].
  eexists. split; [reflexivity|]. unfold painted. cbn [width height rows].
  repeat split.
  - apply repeat_length.
  - apply Forall_forall. intros r Hr. apply repeat_spec in Hr. subst r. apply repeat_length.
  - intros i r Hi. lia.
Qed.

Lemma draw_hline_painted k img c :
  0 <= w -> (k < Z.to_nat h)%nat ->
  gradient_row h stops (Z.of_nat k) = Ok c ->
  painted w h stops k img ->
  painted w h stops (Datatypes.S k) (draw_hline img 0 w (Z.of_nat k) (opaque c)).
Proof.
  intros Hw Hk Hc (Hwd & Hht & Hlen & Hrows & Hop). unfold draw_hline.
  destruct (Z.ltb_spec (Z.of_nat k) 0) as [|_]; [lia|].
  rewrite Nat2Z.id. unfold painted. cbn [width height rows].
  split; [exact Hwd|]. split; [exact Hht|]. split; [rewrite update_row_length; exact Hlen|].
  assert (Hfill : forall r, List.length r = Z.to_nat w ->
                    fill_span 0 0 w (opaque c) r = repeat (opaque c) (Z.to_nat w)).
  { intros r Hr. rewrite <- Hr. apply fill_span_all; lia. }
  split.
  - apply Forall_forall. intros r Hr.
    apply In_nth_error in Hr. destruct Hr as [i Hi].
    rewrite nth_error_update_row in Hi.
    destruct (Nat.eqb i k).
    + destruct (nth_error (rows img) i) as [r0|] eqn:E; [|discriminate Hi].
      cbn [option_map] in Hi. injection Hi as <-.
      rewrite Hfill; [apply repeat_length|].
      eapply Forall_forall in Hrows; [exact Hrows|]. eapply nth_error_In. exact E.
    + eapply Forall_forall in Hrows; [exact Hrows|]. eapply nth_error_In. exact Hi.
  - intros i r Hi Hr. rewrite nth_error_update_row in Hr.
    destruct (Nat.eqb_spec i k) as [->|Hne].
    + destruct (nth_error (rows img) k) as [r0|] eqn:E; [|discriminate Hr].
      cbn [option_map] in Hr. injection Hr as <-.
      exists c. split; [exact Hc|]. apply Hfill.
      eapply Forall_forall in Hrows; [exact Hrows|]. eapply nth_error_In. exact E.
    + apply (Hop i r); [lia|exact Hr].
Qed.

Hypothesis Hw : 0 <= w.
Hypothesis Hstops : 2 <= Z.of_nat (List.length stops) < 2 ^ 63.
Hypothesis Hcolors : Forall color_ok stops.

Lemma gradient_loop_painted : forall n k img,
  (k + n = Z.to_nat h)%nat ->
  painted w h stops k img ->
  exists img',
    for_range (Z.of_nat k) n
      (fun y img => c <- gradient_row h stops y ;; Ok (draw_hline img 0 w y (opaque c)))
      img = Ok img' /\
    painted w h stops (k + n) img'.
Proof.
  induction n as [|n IH]; intros k img Hkn Hp; cbn [for_range].
  - exists img. split; [reflexivity|]. rewrite Nat.add_0_r. exact Hp.
  - destruct (gradient_row_total h stops (Z.of_nat k)) as [c Hc]; [lia|exact Hstops|exact Hcolors|].
    rewrite Hc. cbn [bind].
    replace (Z.of_nat k + 1) with (Z.of_nat (Datatypes.S k)) by lia.
    destruct (IH (Datatypes.S k) (draw_hline img 0 w (Z.of_nat k) (opaque c)))
      as (img' & Hrun & Hp').
    + lia.
    + apply draw_hline_painted; [exact Hw|lia|exact Hc|exact Hp].
    + exists img'. split; [exact Hrun|].
      replace (k + Datatypes.S n)%nat with (Datatypes.S k + n)%nat by lia.
      exact Hp'.
Qed.

(** The image [create_soft_gradient] returns, row by row: row [y] is [w]
    opaque pixels of the colour [gradient_row] computes for [y]. *)
Lemma create_soft_gradient_rows :
  0 <= h ->
  exists img,
    create_soft_gradient (w, h) stops = Ok img /\
    width img = w /\ height img = h /\
    List.length (rows img) = Z.to_nat h /\
    forall y, 0 <= y < h ->
      exists c, gradient_row h stops y = Ok c /\
                image_row img y = Some (repeat (opaque c) (Z.to_nat w)).
Proof.
  intros Hh. unfold create_soft_gradient.
  destruct image_new_painted as (img0 & -> & Hp0); [lia|lia|]. cbn [bind].
  destruct (gradient_loop_painted (Z.to_nat h) 0%nat img0) as (img & Hrun & Hp);
    [lia|exact Hp0|].
  change (Z.of_nat 0) with 0 in Hrun.
  exists img. split; [exact Hrun|].
  destruct Hp as (Hwd & Hht & Hlen & Hrows & Hop).
  split; [exact Hwd|]. split; [exact Hht|]. split; [exact Hlen|].
  intros y Hy. unfold image_row.
  destruct (Z.ltb_spec y 0) as [|_]; [lia|].
  destruct (nth_error (rows img) (Z.to_nat y)) as [r|] eqn:E.
  - destruct (Hop (Z.to_nat y) r) as (c & Hc & Hr); [lia|exact E|].
    rewrite Z2Nat.id in Hc by lia. exists c. split; [exact Hc|]. rewrite Hr. reflexivity.
  - apply nth_error_None in E. lia.
Qed.

End GradientImage.

(** C10: for a size of at least 1 x 1 and at least two stops (RGB triples
    with channels in 0..255, in a list of fewer than [2^63] items, as every
    Python list is), [create_soft_gradient] returns an image of exactly the
    requested width and height whose every pixel has alpha 255. *)
Theorem soft_gradient_size_and_opacity (w h : Z) (stops : list color) :
  1 <= w -> 1 <= h ->
  2 <= Z.of_nat (List.length stops) < 2 ^ 63 ->
  Forall color_ok stops ->
  exists img,
    create_soft_gradient (w, h) stops = Ok img /\
    width img = w /\ height img = h /\
    List.length (rows img) = Z.to_nat h /\
    Forall (fun r => List.length r = Z.to_nat w /\ Forall (fun p => alpha p = 255) r)
           (rows img).
Proof.
  intros Hw Hh Hn Hok.
  destruct (create_soft_gradient_rows w h stops ltac:(lia) Hn Hok ltac:(lia))
    as (img & Hrun & Hwd & Hht & Hlen & Hrows).
  exists img. split; [exact Hrun|].
  split; [exact Hwd|]. split; [exact Hht|]. split; [exact Hlen|].
  apply Forall_forall. intros r Hr.
  apply In_nth_error in Hr. destruct Hr as [i Hi].
  assert (i < Z.to_nat h)%nat as Hih.
  { rewrite <- Hlen. apply nth_error_Some. rewrite Hi. discriminate. }
  destruct (Hrows (Z.of_nat i)) as (c & _ & Hrow); [lia|].
  unfold image_row in Hrow.
  destruct (Z.ltb_spec (Z.of_nat i) 0) as [|_]; [lia|].
  rewrite Nat2Z.id, Hi in Hrow. injection Hrow as ->.
  split; [apply repeat_length|].
  apply Forall_forall. intros p Hp. apply repeat_spec in Hp. subst p. reflexivity.
Qed.

Lemma soft_gradient_size_and_opacity_witness :
  exists img,
    create_soft_gradient (1284, 2778) [(255, 230, 240); (255, 190, 215); (250, 150, 190)]
      = Ok img /\
    width img = 1284 /\ height img = 2778 /\
    List.length (rows img) = Z.to_nat 2778 /\
    Forall (fun r => List.length r = Z.to_nat 1284 /\ Forall (fun p => alpha p = 255) r)
           (rows img).
Proof.
  apply (soft_gradient_size_and_opacity 1284 2778
           [(255, 230, 240); (255, 190, 215); (250, 150, 190)]).
  - lia.
  - lia.
  - simpl. lia.
  - repeat constructor; unfold channel_ok; lia.
Defined.

(** C5. For every list of three stops and every even height [h >= 2] the
    row at the vertical midpoint [h / 2] of the gradient image is filled
    with exactly the middle stop: the eased position of that row is [0.5],
    which lands on index 1 with fraction zero. *)
Theorem three_stop_midpoint_is_middle_stop (w h : Z) (c0 c1 c2 : color) :
  1 <= w -> 2 <= h -> Z.even h = true ->
  color_ok c0 -> color_ok c1 -> color_ok c2 ->
  exists img,
    create_soft_gradient (w, h) [c0; c1; c2] = Ok img /\
    image_row img (h / 2) = Some (repeat (opaque c1) (Z.to_nat w)).
Proof.
  intros Hw Hh Heven H0 H1 H2.
  destruct (create_soft_gradient_rows w h [c0; c1; c2]) as (img & Hrun & _ & _ & _ & Hrows).
  - lia.
  - simpl. lia.
  - repeat constructor; assumption.
  - lia.
  - exists img. split; [exact Hrun|].
    assert (0 <= h / 2 < h) as Hmid.
    { split; [apply Z.div_pos; lia|apply Z.div_lt_upper_bound; lia]. }
    destruct (Hrows (h / 2) Hmid) as (c & Hc & Hrow).
    rewrite (gradient_row_middle h c0 c1 c2 Hh Heven H1 H2) in Hc.
    injection Hc as <-. exact Hrow.
Qed.

Lemma three_stop_midpoint_is_middle_stop_witness :
  exists img,
    create_soft_gradient (1284, 2778) [(255, 230, 240); (255, 190, 215); (250, 150, 190)]
      = Ok img /\
    image_row img (2778 / 2) = Some (repeat (opaque (255, 190, 215)) (Z.to_nat 1284)).
Proof.
  apply (three_stop_midpoint_is_middle_stop 1284 2778
           (255, 230, 240) (255, 190, 215) (250, 150, 190)).
  - lia.
  - lia.
  - reflexivity.
  - unfold color_ok, channel_ok. lia.
  - unfold color_ok, channel_ok. lia.
  - unfold color_ok, channel_ok. lia.
Defined.

(** C6 (counterexample). With two rows the last row of a black-to-white
    gradient is mid grey, 128 away from the second stop: its position is
    [1 / 2], not [1]. *)
Lemma two_stop_last_row_of_two_is_halfway :
  create_soft_gradient (1, 2) [(0, 0, 0); (255, 255, 255)]
  = Ok (Image 1 2 [[(0, 0, 0, 255)]; [(127, 127, 127, 255)]]).
Proof. vm_compute. reflexivity. Qed.

(** C6 (amended). For every pair of stops and every height [h >= 1] row 0 of
    the gradient image is filled with exactly the first stop; from 28 rows on
    the last row is filled with a colour whose channels are each within 1 of
    the second stop. *)
Theorem two_stop_gradient_ends (w h : Z) (c1 c2 : color) :
  1 <= w -> 1 <= h -> color_ok c1 -> color_ok c2 ->
  exists img,
    create_soft_gradient (w, h) [c1; c2] = Ok img /\
    image_row img 0 = Some (repeat (opaque c1) (Z.to_nat w)) /\
    (28 <= h ->
     exists c, image_row img (h - 1) = Some (repeat (opaque c) (Z.to_nat w)) /\ near 1 c c2).
Proof.
  intros Hw Hh H1 H2.
  destruct (create_soft_gradient_rows w h [c1; c2]) as (img & Hrun & _ & _ & _ & Hrows).
  - lia.
  - simpl. lia.
  - repeat constructor; assumption.
  - lia.
  - exists img. split; [exact Hrun|]. split.
    + destruct (Hrows 0 ltac:(lia)) as (c & Hc & Hrow).
      rewrite gradient_row_0 in Hc; [|lia|simpl; lia|assumption|assumption].
      injection Hc as <-. exact Hrow.
    + intros Hh28. destruct (Hrows (h - 1) ltac:(lia)) as (c & Hc & Hrow).
      exists c. split; [exact Hrow|].
      rewrite gradient_row_eased in Hc by (assumption || lia). injection Hc as <-.
      apply lerp_color_near; try assumption. apply last_row_eased, Hh28.
Qed.

(** The end-to-end scenario of the gradient: stops [(255,230,240)] and
    [(250,150,190)] on 100 rows. *)
Lemma two_stop_gradient_ends_witness :
  exists img,
    create_soft_gradient (1284, 100) [(255, 230, 240); (250, 150, 190)] = Ok img /\
    image_row img 0 = Some (repeat (opaque (255, 230, 240)) (Z.to_nat 1284)) /\
    exists c, image_row img (100 - 1) = Some (repeat (opaque c) (Z.to_nat 1284)) /\
              near 1 c (250, 150, 190).
Proof.
  destruct (two_stop_gradient_ends 1284 100 (255, 230, 240) (250, 150, 190))
    as (img & Hrun & Hfirst & Hlast).
  - lia.
  - lia.
  - unfold color_ok, channel_ok. lia.
  - unfold color_ok, channel_ok. lia.
  - exists img. split; [exact Hrun|]. split; [exact Hfirst|]. apply Hlast. lia.
Defined.

(** In that scenario the last row is the second stop itself. *)
Lemma gradient_100_last_row :
  gradient_row 100 [(255, 230, 240); (250, 150, 190)] 99 = Ok (250, 150, 190).
Proof. vm_compute. reflexivity. Qed.

(** The bound of 28 rows is sharp: on 27 rows the last row of a
    black-to-white gradient is 2 below the second stop. *)
Lemma gradient_27_last_row :
  gradient_row 27 [(0, 0, 0); (255, 255, 255)] 26 = Ok (253, 253, 253).
Proof. vm_compute. reflexivity. Qed.

(** C7 (counterexample). On a canvas of 10^9 rows the rounding of the eased
    position makes row 999999993 darker than row 999999992 although the
    second stop is the lighter one. *)
Lemma tall_gradient_steps_back :
  exists img,
    create_soft_gradient (1, 1000000000) [(100, 100, 100); (200, 200, 200)] = Ok img /\
    image_row img 999999992 = Some [(200, 200, 200, 255)] /\
    image_row img 999999993 = Some [(199, 199, 199, 255)].
Proof.
  destruct (create_soft_gradient_rows 1 1000000000 [(100, 100, 100); (200, 200, 200)])
    as (img & Hrun & _ & _ & _ & Hrows).
  - lia.
  - simpl. lia.
  - repeat constructor; unfold channel_ok; lia.
  - lia.
  - exists img. split; [exact Hrun|]. split.
    + destruct (Hrows 999999992 ltac:(lia)) as (c & Hc & Hrow).
      assert (gradient_row 1000000000 [(100, 100, 100); (200, 200, 200)] 999999992
              = Ok (200, 200, 200)) as E by (vm_compute; reflexivity).
      rewrite E in Hc. injection Hc as <-. exact Hrow.
    + destruct (Hrows 999999993 ltac:(lia)) as (c & Hc & Hrow).
      assert (gradient_row 1000000000 [(100, 100, 100); (200, 200, 200)] 999999993
              = Ok (199, 199, 199)) as E by (vm_compute; reflexivity).
      rewrite E in Hc. injection Hc as <-. exact Hrow.
Qed.

(** C7 (amended). For two stops that are ordered in every channel and a
    canvas of at most 4096 rows, the colours of the rows are ordered the same
    way: a later row is never closer to the first stop in any channel. *)
Theorem two_stop_rows_monotone (w h : Z) (c1 c2 : color) :
  1 <= w -> 1 <= h <= 4096 -> color_ok c1 -> color_ok c2 ->
  exists img,
    create_soft_gradient (w, h) [c1; c2] = Ok img /\
    forall y y', 0 <= y -> y <= y' -> y' < h ->
      exists c c',
        image_row img y = Some (repeat (opaque c) (Z.to_nat w)) /\
        image_row img y' = Some (repeat (opaque c') (Z.to_nat w)) /\
        (channel_le c1 c2 -> channel_le c c') /\
        (channel_le c2 c1 -> channel_le c' c).
Proof.
  intros Hw Hh H1 H2.
  destruct (create_soft_gradient_rows w h [c1; c2]) as (img & Hrun & _ & _ & _ & Hrows).
  - lia.
  - simpl. lia.
  - repeat constructor; assumption.
  - lia.
  - exists img. split; [exact Hrun|]. intros y y' Hy Hyy Hy'.
    destruct (Hrows y ltac:(lia)) as (c & Hc & Hrow).
    destruct (Hrows y' ltac:(lia)) as (c' & Hc' & Hrow').
    exists c, c'. split; [exact Hrow|]. split; [exact Hrow'|].
    rewrite gradient_row_eased in Hc by (assumption || lia). injection Hc as <-.
    rewrite gradient_row_eased in Hc' by (assumption || lia). injection Hc' as <-.
    pose proof (steps_sorted_mono h (eased_sorted_4096 h Hh) y y' Hy Hyy Hy') as Hle.
    split; intros Hord.
    + apply lerp_color_mono_up; assumption.
    + apply lerp_color_mono_down; assumption.
Qed.

Lemma two_stop_rows_monotone_witness :
  exists img,
    create_soft_gradient (1284, 2778) [(255, 230, 240); (250, 150, 190)] = Ok img /\
    forall y y', 0 <= y -> y <= y' -> y' < 2778 ->
      exists c c',
        image_row img y = Some (repeat (opaque c) (Z.to_nat 1284)) /\
        image_row img y' = Some (repeat (opaque c') (Z.to_nat 1284)) /\
        (channel_le (255, 230, 240) (250, 150, 190) -> channel_le c c') /\
        (channel_le (250, 150, 190) (255, 230, 240) -> channel_le c' c).
Proof.
  apply (two_stop_rows_monotone 1284 2778 (255, 230, 240) (250, 150, 190)).
  - lia.
  - lia.
  - unfold color_ok, channel_ok. lia.
  - unfold color_ok, channel_ok. lia.
Defined.

(** ** The percentile lines of [shot3] *)

Lemma percentile_lines_raises s c cmds : percentile_lines s c cmds = Raise ValueError.
Proof. reflexivity. Qed.

(** C1 fails on the code: the loop header unpacks three names from tuples
    of two elements, so the percentile loop raises [ValueError] on its first
    tuple, whatever the chart; the chart of [shot3] never completes, and on
    both canvases of [main] the exception is this [ValueError]. *)
Theorem shot3_percentile_loop_raises (math_exp : float -> float) :
  (forall s c cmds, percentile_lines s c cmds = Raise ValueError) /\
  (forall w, is_ok (shot3_chart math_exp w) = false) /\
  shot3_chart math_exp 1290 = Raise ValueError /\
  shot3_chart math_exp 2048 = Raise ValueError.
Proof.
  split; [exact percentile_lines_raises|].
  split; [|split; vm_compute; reflexivity].
  intros w. unfold shot3_chart.
  destruct (shot3_layout w) as [[s c]|e]; cbn [bind is_ok]; [|reflexivity].
  destruct (grid_and_axes s c []) as [cmds|e]; cbn [bind is_ok]; [|reflexivity].
  rewrite percentile_lines_raises. reflexivity.
Qed.

(** ** The growth curve of [shot3] *)

(** C4. The 30 points of the growth curve ([t = i / 29], [i = 0 .. 29]): the
    x coordinates [chart_x + int(t * chart_w)] never decrease along the list
    and every y coordinate lies in [[chart_y, chart_y + chart_h]], for every
    chart of non-negative size whose sides convert to floats and every
    [math.exp] that maps [[-2.5, 0]] into [[0, 1]]. *)
Theorem growth_curve_points_in_chart (math_exp : float -> float) (c : chart) :
  exp_in_unit math_exp ->
  (0 <= chart_w c <= 2 ^ 1023)%Z -> (0 <= chart_h c <= 2 ^ 1023)%Z ->
  exists pts,
    growth_points math_exp c = Ok pts /\
    List.length pts = 30%nat /\
    (forall i j p p', (i <= j)%nat ->
       nth_error pts i = Some p -> nth_error pts j = Some p' -> (fst p <= fst p')%Z) /\
    Forall (fun p => (chart_y c <= snd p <= chart_y c + chart_h c)%Z) pts.
Proof.
  intros Hexp HW HH. unfold growth_points.
  set (P := fun (i : Z) (p : Z * Z) =>
              fst p = (chart_x c + x_offset (chart_w c) i)%Z /\
              (chart_y c <= snd p <= chart_y c + chart_h c)%Z).
  destruct (for_each_collect (growth_point math_exp c) P (map Z.of_nat (seq 0 30)))
    with (acc := @nil (Z * Z)) as (pts & Hrun & Hall).
  { intros i Hi. apply in_map_iff in Hi. destruct Hi as (n & <- & Hn).
    apply in_seq in Hn.
    destruct (growth_point_spec math_exp Hexp c (Z.of_nat n) ltac:(lia) HW HH)
      as (dy & Hpt & Hdy).
    eexists. split; [exact Hpt|]. unfold P. cbn [fst snd]. split; [reflexivity|lia]. }
  exists pts. split; [exact Hrun|]. split; [|split].
  - rewrite <- (Forall2_length Hall), length_map, length_seq. reflexivity.
  - intros i j p p' Hij Hp Hp'.
    destruct (Forall2_nth_error_r _ _ _ Hall i p Hp) as (x & Hx & (Ex & _)).
    destruct (Forall2_nth_error_r _ _ _ Hall j p' Hp') as (x' & Hx' & (Ex' & _)).
    apply nth_error_range in Hx, Hx'. destruct Hx as [-> _], Hx' as [-> _].
    rewrite Ex, Ex'. apply Z.add_le_mono_l, x_offset_mono; lia.
  - apply Forall_forall. intros p Hp. apply In_nth_error in Hp. destruct Hp as [i Hi].
    destruct (Forall2_nth_error_r _ _ _ Hall i p Hi) as (x & _ & (_ & Hy)). exact Hy.
Qed.

Lemma growth_curve_points_in_chart_witness :
  exists pts,
    growth_points exp_series (Chart 80 140 642 1050 650) = Ok pts /\
    List.length pts = 30%nat /\
    (forall i j p p', (i <= j)%nat ->
       nth_error pts i = Some p -> nth_error pts j = Some p' -> (fst p <= fst p')%Z) /\
    Forall (fun p => (642 <= snd p <= 642 + 650)%Z) pts.
Proof.
  apply (growth_curve_points_in_chart exp_series (Chart 80 140 642 1050 650)).
  - exact exp_series_in_unit.
  - cbn [chart_w]. split; [lia|]. apply Z.leb_le. vm_compute. reflexivity.
  - cbn [chart_h]. split; [lia|]. apply Z.leb_le. vm_compute. reflexivity.
Defined.

(** ** Seeded decorations *)

(** C8: the bubbles of [draw_soft_shapes] and the bar segments of [shot4]
    do not depend on the state the generator is in when the function is
    entered: both reseed it with 42 before the first draw, so two calls on
    the same canvas give the same positions, radii, opacities and heights
    (and leave the generator in the same state). *)
Theorem decorations_deterministic (G : Type) (R : Random G) (cw ch w : Z) (g1 g2 : G) :
  draw_soft_shapes_bubbles cw ch g1 = draw_soft_shapes_bubbles cw ch g2 /\
  shot4_bars w g1 = shot4_bars w g2.
Proof. split; reflexivity. Qed.

(** ** Missing screenshots *)

Section GenerateFacts.

Variable picture : Type.
Variable compose : screen -> picture -> Z * Z -> device -> result picture.

Lemma run_batch_raise jobs e :
  fold_left (fun r j => w <- r ;; run_job picture compose j w) jobs (Raise e) = Raise e.
Proof. induction jobs as [|j jobs IH]; simpl; [reflexivity | exact IH]. Qed.

Lemma run_batch_cons j jobs w :
  run_batch picture compose (j :: jobs) w =
  (w' <- run_job picture compose j w ;; run_batch picture compose jobs w').
Proof.
  unfold run_batch. simpl.
  destruct (run_job picture compose j w) as [w'|e]; simpl.
  - reflexivity.
  - apply run_batch_raise.
Qed.

(** A job reads the file system only: what it leaves there does not depend
    on what was printed before. *)
Lemma run_job_files j w1 w2 :
  files picture w1 = files picture w2 ->
  files_after picture (run_job picture compose j w1) =
  files_after picture (run_job picture compose j w2).
Proof.
  intros Hf. unfold run_job, generate. rewrite Hf.
  destruct (files picture w2 _) as [shot|]; simpl.
  - destruct (compose _ shot _ _) as [final|e]; simpl; [|reflexivity].
    rewrite Hf. reflexivity.
  - rewrite Hf. reflexivity.
Qed.

Lemma run_batch_files jobs : forall w1 w2,
  files picture w1 = files picture w2 ->
  files_after picture (run_batch picture compose jobs w1) =
  files_after picture (run_batch picture compose jobs w2).
Proof.
  induction jobs as [|j jobs IH]; intros w1 w2 Hf.
  - simpl. rewrite Hf. reflexivity.
  - rewrite !run_batch_cons.
    pose proof (run_job_files j w1 w2 Hf) as Hj.
    destruct (run_job picture compose j w1) as [w1'|e1];
      destruct (run_job picture compose j w2) as [w2'|e2];
      simpl in Hj |- *; try discriminate Hj.
    + apply IH. injection Hj as Hj. exact Hj.
    + exact Hj.
Qed.

End GenerateFacts.

(** C9: when the source screenshot is missing, [generate] returns normally
    with only the warning printed: the file system is as before, the
    composing code is not reached (any other [compose'] gives the same
    result), and a batch that contains the call leaves the same files, or
    ends with the same exception, as the batch without it. *)
Theorem generate_missing_source_skips (picture : Type)
    (compose : screen -> picture -> Z * Z -> device -> result picture)
    (j : job) (rest : list job) (w : world picture) :
  files picture w (path_join (job_input_dir j) (file (job_screen j))) = None ->
  let warned := print picture (Missing (path_join (job_input_dir j) (file (job_screen j)))) w in
  run_job picture compose j w = Ok warned /\
  files picture warned = files picture w /\
  (forall compose', run_job picture compose' j w = Ok warned) /\
  run_batch picture compose (j :: rest) w = run_batch picture compose rest warned /\
  files_after picture (run_batch picture compose (j :: rest) w) =
  files_after picture (run_batch picture compose rest w).
Proof.
  intros Hmiss warned.
  assert (Hrun : forall c, run_job picture c j w = Ok warned).
  { intros c. unfold run_job, generate. rewrite Hmiss. reflexivity. }
  split; [apply Hrun|]. split; [reflexivity|]. split; [exact Hrun|].
  rewrite run_batch_cons, Hrun. simpl. split; [reflexivity|].
  apply run_batch_files. reflexivity.
Qed.

(** The first job of [main] on an empty file system, followed by the rest
    of the batch. *)
Lemma generate_missing_source_skips_witness :
  let w := World nat (fun _ => None) [] in
  let j := Job (hd (Screen "" "" "" "" [] 0) SCREENS)
               (path_join BASE "iPhone") (path_join BASE "Marketing_iPhone_6.7")
               (1284, 2778) Phone in
  let warned := print nat (Missing (path_join (job_input_dir j) (file (job_screen j)))) w in
  run_job nat (fun _ p _ _ => Ok p) j w = Ok warned /\
  files nat warned = files nat w /\
  (forall compose', run_job nat compose' j w = Ok warned) /\
  run_batch nat (fun _ p _ _ => Ok p) (j :: tl (main_jobs)) w =
    run_batch nat (fun _ p _ _ => Ok p) (tl main_jobs) warned /\
  files_after nat (run_batch nat (fun _ p _ _ => Ok p) (j :: tl main_jobs) w) =
  files_after nat (run_batch nat (fun _ p _ _ => Ok p) (tl main_jobs) w).
Proof.
  intros w j warned.
  apply (generate_missing_source_skips nat (fun _ p _ _ => Ok p) j (tl main_jobs) w).
  reflexivity.
Defined.

(** * Further properties of the scripts *)

(** ** The gradient on any list of stops *)

Section GradientImageGen.

Variables (w h : Z) (stops : list color).
Hypothesis Hw : (0 <= w)%Z.
Hypothesis Hrow : forall y, (0 <= y < h)%Z -> exists c, gradient_row h stops y = Ok c.

Lemma gradient_loop_painted_gen : forall n k img,
  (k + n = Z.to_nat h)%nat ->
  painted w h stops k img ->
  exists img',
    for_range (Z.of_nat k) n
      (fun y img => c <- gradient_row h stops y ;; Ok (draw_hline img 0 w y (opaque c)))
      img = Ok img' /\
    painted w h stops (k + n) img'.
Proof.
  induction n as [|n IH]; intros k img Hkn Hp; cbn [for_range].
  - exists img. split; [reflexivity|]. rewrite Nat.add_0_r. exact Hp.
  - destruct (Hrow (Z.of_nat k)) as [c Hc]; [lia|].
    rewrite Hc. cbn [bind].
    replace (Z.of_nat k + 1)%Z with (Z.of_nat (Datatypes.S k)) by lia.
    destruct (IH (Datatypes.S k) (draw_hline img 0 w (Z.of_nat k) (opaque c)))
      as (img' & Hrun & Hp').
    + lia.
    + apply draw_hline_painted; [exact Hw|lia|exact Hc|exact Hp].
    + exists img'. split; [exact Hrun|].
      replace (k + Datatypes.S n)%nat with (Datatypes.S k + n)%nat by lia.
      exact Hp'.
Qed.

Lemma create_soft_gradient_rows_gen :
  (0 <= h)%Z ->
  exists img,
    create_soft_gradient (w, h) stops = Ok img /\
    forall y, (0 <= y < h)%Z ->
      exists c, gradient_row h stops y = Ok c /\
                image_row img y = Some (repeat (opaque c) (Z.to_nat w)).
Proof.
  intros Hh. unfold create_soft_gradient.
  destruct (image_new_painted w h stops) as (img0 & -> & Hp0); [lia|lia|]. cbn [bind].
  destruct (gradient_loop_painted_gen (Z.to_nat h) 0%nat img0) as (img & Hrun & Hp);
    [lia|exact Hp0|].
  change (Z.of_nat 0) with 0%Z in Hrun.
  exists img. split; [exact Hrun|].
  destruct Hp as (Hwd & Hht & Hlen & Hrows & Hop).
  intros y Hy. unfold image_row.
  destruct (Z.ltb_spec y 0) as [|_]; [lia|].
  destruct (nth_error (rows img) (Z.to_nat y)) as [r|] eqn:E.
  - destruct (Hop (Z.to_nat y) r) as (c & Hc & Hr); [lia|exact E|].
    rewrite Z2Nat.id in Hc by lia. exists c. split; [exact Hc|]. rewrite Hr. reflexivity.
  - apply nth_error_None in E. lia.
Qed.

End GradientImageGen.

(** X1. [lerp] at a fraction of [[0, 1]] returns a colour whose channels lie
    between those of the two stops, so a valid 8-bit colour; at 0 it is the
    first stop and at 1 the second. *)
Theorem lerp_stays_between_stops (c1 c2 : color) (t : float) :
  color_ok c1 -> color_ok c2 -> finite t -> (0 <= B2Q t <= 1)%Q ->
  exists c,
    lerp c1 c2 t = Ok c /\ color_between c1 c2 c /\ color_ok c /\
    ((B2Q t == 0)%Q -> c = c1) /\ ((B2Q t == 1)%Q -> c = c2).
Proof.
  intros H1 H2 Ft Rt.
  rewrite (lerp_spec c1 c2 0 t (fbounded_unit t Ft Rt)) by (assumption || lia).
  eexists. split; [reflexivity|].
  pose proof (lerp_color_between c1 c2 (B2Q t) H1 H2 Rt) as Hb.
  split; [exact Hb|]. split; [exact (color_between_ok _ _ _ H1 H2 Hb)|].
  destruct c1 as [[r1 g1] b1], c2 as [[r2 g2] b2].
  destruct H1 as (Hr1 & Hg1 & Hb1), H2 as (Hr2 & Hg2 & Hb2).
  unfold channel_ok in *. unfold lerp_color. split; intros E.
  - rewrite !(lerp_value_compat _ _ _ _ E).
    rewrite !lerp_value_0 by (change (2 ^ 53)%Z with 9007199254740992%Z; lia). reflexivity.
  - rewrite !(lerp_value_compat _ _ _ _ E).
    rewrite !lerp_value_1 by (unfold channel_ok; lia). reflexivity.
Qed.

Lemma lerp_stays_between_stops_witness :
  exists c,
    lerp (255, 230, 240) (250, 150, 190) 0.5 = Ok c /\
    color_between (255, 230, 240) (250, 150, 190) c /\ color_ok c /\
    ((B2Q 0.5 == 0)%Q -> c = (255, 230, 240)) /\ ((B2Q 0.5 == 1)%Q -> c = (250, 150, 190)).
Proof.
  apply (lerp_stays_between_stops (255, 230, 240) (250, 150, 190) 0.5%float).
  - unfold color_ok, channel_ok. lia.
  - unfold color_ok, channel_ok. lia.
  - reflexivity.
  - split; vm_compute; discriminate.
Defined.

(** X2. Whatever the number of stops (two or more), every row of the
    gradient image is filled with one colour that lies, channel by channel,
    between two neighbouring stops: no row leaves the range of the stops and
    no index is out of range. *)
Theorem soft_gradient_rows_between_stops (w h : Z) (stops : list color) :
  (0 <= w)%Z -> (0 <= h)%Z ->
  (2 <= Z.of_nat (List.length stops) <= 2 ^ 53)%Z ->
  Forall color_ok stops ->
  exists img,
    create_soft_gradient (w, h) stops = Ok img /\
    forall y, (0 <= y < h)%Z ->
      exists (i : nat) c1 c2 c,
        nth_error stops i = Some c1 /\ nth_error stops (Datatypes.S i) = Some c2 /\
        color_between c1 c2 c /\ color_ok c /\
        image_row img y = Some (repeat (opaque c) (Z.to_nat w)).
Proof.
  intros Hw Hh Hn Hok.
  destruct (create_soft_gradient_rows_gen w h stops Hw) as (img & Hrun & Hrows); [|exact Hh|].
  { intros y Hy. destruct (gradient_row_between h stops y Hy Hn Hok)
      as (i & c1 & c2 & c & _ & _ & Hc & _). exists c. exact Hc. }
  exists img. split; [exact Hrun|]. intros y Hy.
  destruct (Hrows y Hy) as (c & Hc & Hrow).
  destruct (gradient_row_between h stops y Hy Hn Hok) as (i & c1 & c2 & c' & N1 & N2 & Hc' & Hb).
  rewrite Hc in Hc'. injection Hc' as <-.
  exists i, c1, c2, c. split; [exact N1|]. split; [exact N2|]. split; [exact Hb|].
  split; [|exact Hrow].
  apply (color_between_ok c1 c2 c); [| |exact Hb].
  - eapply Forall_forall; [exact Hok|]. eapply nth_error_In. exact N1.
  - eapply Forall_forall; [exact Hok|]. eapply nth_error_In. exact N2.
Qed.

Lemma soft_gradient_rows_between_stops_witness :
  exists img,
    create_soft_gradient (1284, 2778) [(255, 230, 240); (255, 190, 215); (250, 150, 190)]
      = Ok img /\
    forall y, (0 <= y < 2778)%Z ->
      exists (i : nat) c1 c2 c,
        nth_error [(255, 230, 240); (255, 190, 215); (250, 150, 190)] i = Some c1 /\
        nth_error [(255, 230, 240); (255, 190, 215); (250, 150, 190)] (Datatypes.S i)
          = Some c2 /\
        color_between c1 c2 c /\ color_ok c /\
        image_row img y = Some (repeat (opaque c) (Z.to_nat 1284)).
Proof.
  apply (soft_gradient_rows_between_stops 1284 2778
           [(255, 230, 240); (255, 190, 215); (250, 150, 190)]).
  - lia.
  - lia.
  - cbn [List.length]. split; [lia|]. apply Z.leb_le. reflexivity.
  - repeat constructor; unfold channel_ok; lia.
Defined.

(** X3. With a single stop the gradient is that colour on every row: the
    stop index -1 is Python's last element. *)
Theorem single_stop_gradient_is_solid (w h : Z) (c : color) :
  (0 <= w)%Z -> (0 <= h)%Z -> color_ok c ->
  exists img,
    create_soft_gradient (w, h) [c] = Ok img /\
    forall y, (0 <= y < h)%Z -> image_row img y = Some (repeat (opaque c) (Z.to_nat w)).
Proof.
  intros Hw Hh Hc.
  destruct (create_soft_gradient_rows_gen w h [c] Hw) as (img & Hrun & Hrows); [|exact Hh|].
  { intros y Hy. exists c. apply gradient_row_single; assumption. }
  exists img. split; [exact Hrun|]. intros y Hy.
  destruct (Hrows y Hy) as (c' & Hc' & Hrow).
  rewrite (gradient_row_single h c y Hy Hc) in Hc'. injection Hc' as <-. exact Hrow.
Qed.

Lemma single_stop_gradient_is_solid_witness :
  exists img,
    create_soft_gradient (4, 3) [(10, 20, 30)] = Ok img /\
    forall y, (0 <= y < 3)%Z -> image_row img y = Some (repeat (opaque (10, 20, 30)) (Z.to_nat 4)).
Proof.
  apply (single_stop_gradient_is_solid 4 3 (10, 20, 30)).
  - lia.
  - lia.
  - unfold color_ok, channel_ok. lia.
Defined.

(** X4. With an empty stop list and at least one row the gradient raises
    [IndexError] on the first row (index -2 of an empty list); with no row
    at all nothing is indexed and an image without rows is returned. *)
Theorem empty_stop_list_raises (w h : Z) :
  (0 <= w)%Z -> (0 <= h)%Z ->
  create_soft_gradient (w, h) [] =
  if (h =? 0)%Z then Ok (Image w 0 []) else Raise IndexError.
Proof.
  intros Hw Hh. unfold create_soft_gradient, image_new.
  rewrite check_new_ok by assumption. cbn [bind].
  destruct (Z.eqb_spec h 0) as [->|Hne].
  - reflexivity.
  - destruct (Z.to_nat h) as [|k] eqn:E; [lia|].
    cbn [for_range]. rewrite gradient_row_no_stop by lia. reflexivity.
Qed.

Lemma empty_stop_list_raises_witness :
  create_soft_gradient (1284, 2778) [] =
  if (2778 =? 0)%Z then Ok (Image 1284 0 []) else Raise IndexError.
Proof.
  apply (empty_stop_list_raises 1284 2778).
  - lia.
  - lia.
Defined.

(** ** The bubbles of [draw_soft_shapes] *)

Lemma lcg_randint_in_range : randint_in_range Z.
Proof.
  intros a b g Hab. cbn [next_randint lcg_random fst].
  pose proof (Z.mod_pos_bound (lcg_step g) (b - a + 1) ltac:(lia)). lia.
Qed.

(** X5. On a canvas of non-negative size [draw_soft_shapes] draws its eight
    bubbles without raising (no [randint] range is empty), whatever the
    generator returns within the ranges asked for: every centre is on the
    canvas and in its upper half, every radius is at most a quarter of the
    width, every opacity lies in [[25, 50]]. *)
Theorem bubbles_stay_on_canvas (G : Type) (R : Random G) (cw ch : Z) (g : G) :
  randint_in_range G ->
  0 <= cw <= 2 ^ 53 -> 0 <= ch <= 2 ^ 53 ->
  exists bubbles g',
    draw_soft_shapes_bubbles cw ch g = Ok (bubbles, g') /\
    List.length bubbles = 8%nat /\ Forall (bubble_on_canvas cw ch) bubbles.
Proof.
  intros Hrand Hcw Hch. apply draw_soft_shapes_bubbles_spec; assumption.
Qed.

Lemma bubbles_stay_on_canvas_witness :
  exists bubbles g',
    draw_soft_shapes_bubbles 1284 2778 0 = Ok (bubbles, g') /\
    List.length bubbles = 8%nat /\ Forall (bubble_on_canvas 1284 2778) bubbles.
Proof.
  apply (bubbles_stay_on_canvas Z lcg_random 1284 2778 0).
  - exact lcg_randint_in_range.
  - split; [lia|]. apply Z.leb_le. reflexivity.
  - split; [lia|]. apply Z.leb_le. reflexivity.
Defined.

(** ** Details of the device mockups *)

Import Mockup.

Lemma check_ellipse_ok b : bx0 b <= bx1 b -> by0 b <= by1 b -> check_ellipse b = Ok tt.
Proof.
  intros Hx Hy. unfold check_ellipse.
  destruct (Z.ltb_spec (bx1 b) (bx0 b)); [lia|].
  destruct (Z.ltb_spec (by1 b) (by0 b)); [lia|]. reflexivity.
Qed.

Ltac unit_const := first [reflexivity | split; vm_compute; discriminate].

(** X6. The Dynamic Island of the phone mockup lies on the body, is centred
    on it within one pixel, starts at least two rows below the top of the
    screen, and the camera lens is drawn inside it. *)
Theorem dynamic_island_centred (g : geometry) (frame_w : Z) :
  1 <= frame_w <= 2 ^ 53 -> 0 <= inner_h g <= 2 ^ 53 ->
  exists isl,
    iphone_island g frame_w = Ok isl /\
    4 <= bx0 (pill isl) /\ bx1 (pill isl) <= 4 + frame_w - 1 /\
    (4 + frame_w - 1) - bx1 (pill isl) <= bx0 (pill isl) - 4
      <= (4 + frame_w - 1) - bx1 (pill isl) + 1 /\
    4 + bezel g + 2 <= by0 (pill isl) /\
    inset_by 0 (pill isl) (lens isl).
Proof.
  intros Hfw Hih. unfold iphone_island.
  destruct (int_imulf_unit frame_w 0.23%float ltac:(lia)) as [-> Hw]; try unit_const.
  cbn [bind].
  destruct (int_imulf_unit frame_w 0.052%float ltac:(lia)) as [-> Hh]; try unit_const.
  cbn [bind].
  destruct (int_imulf_unit (inner_h g) 0.005%float Hih) as [-> Hd]; try unit_const.
  cbn [bind].
  set (di_w := scaled frame_w (B2Q 0.23%float)) in *.
  set (di_h := scaled frame_w (B2Q 0.052%float)) in *.
  set (d := scaled (inner_h g) (B2Q 0.005%float)) in *.
  assert (di_h <= di_w) as Hhw by (apply scaled_mono; [lia|vm_compute; discriminate]).
  assert (2 * di_w <= frame_w) as Hw2
    by (apply scaled_times; [lia|lia|vm_compute; discriminate|vm_compute; discriminate]).
  pose proof (Z.div_pos di_h 2 ltac:(lia) ltac:(lia)) as Hr0.
  rewrite check_rounded_rectangle_ok by (cbn [bx0 bx1 by0 by1]; lia). cbn [bind].
  destruct (int_imulf_unit di_h 0.22%float ltac:(lia)) as [-> Hlr]; try unit_const.
  cbn [bind].
  destruct (int_imulf_unit di_w 0.28%float ltac:(lia)) as [-> Hld]; try unit_const.
  cbn [bind].
  set (lens_r := scaled di_h (B2Q 0.22%float)) in *.
  set (ld := scaled di_w (B2Q 0.28%float)) in *.
  rewrite check_ellipse_ok by (cbn [bx0 bx1 by0 by1]; lia). cbn [bind].
  pose proof (Z.div_pos lens_r 3 ltac:(lia) ltac:(lia)) as Hq0.
  rewrite check_ellipse_ok by (cbn [bx0 bx1 by0 by1]; lia). cbn [bind].
  eexists. split; [reflexivity|].
  cbn [pill lens bx0 bx1 by0 by1]. unfold inset_by. cbn [bx0 bx1 by0 by1].
  assert (2 * lens_r <= di_h) as Hl2
    by (apply scaled_times; [lia|lia|vm_compute; discriminate|vm_compute; discriminate]).
  assert (lens_r <= ld) as Hll.
  { apply Z.le_trans with (scaled di_w (B2Q 0.22%float)).
    - apply scaled_mono_size; [exact Hhw|vm_compute; discriminate].
    - apply scaled_mono; [lia|vm_compute; discriminate]. }
  assert (ld + lens_r <= di_w) as Hsum.
  { pose proof (scaled_sum_le di_w [B2Q 0.28%float; B2Q 0.22%float] ltac:(lia)) as Hs.
    cbn [map fold_right] in Hs.
    assert (scaled di_w (B2Q 0.22%float) <= di_w - ld)%Z; [|
      pose proof (scaled_mono_size di_h di_w (B2Q 0.22%float) Hhw ltac:(vm_compute; discriminate));
      fold lens_r in H0; lia].
    fold ld in Hs.
    assert (ld + (scaled di_w (B2Q 0.22%float) + 0) <= di_w); [|lia].
    apply Hs; [repeat constructor; vm_compute; discriminate|vm_compute; discriminate]. }
  pose proof (Z.mul_div_le (frame_w - di_w) 2 ltac:(lia)) as Hdiv1.
  pose proof (Z.mul_succ_div_gt (frame_w - di_w) 2 ltac:(lia)) as Hdiv2.
  pose proof (Z.mul_div_le di_h 2 ltac:(lia)) as Hdiv3.
  pose proof (Z.mul_succ_div_gt di_h 2 ltac:(lia)) as Hdiv4.
  repeat split; lia.
Qed.

Lemma dynamic_island_centred_witness :
  exists isl,
    iphone_island (Geometry 15 676 1466 1496 57 42) 706 = Ok isl /\
    4 <= bx0 (pill isl) /\ bx1 (pill isl) <= 4 + 706 - 1 /\
    (4 + 706 - 1) - bx1 (pill isl) <= bx0 (pill isl) - 4
      <= (4 + 706 - 1) - bx1 (pill isl) + 1 /\
    4 + 15 + 2 <= by0 (pill isl) /\
    inset_by 0 (pill isl) (lens isl).
Proof.
  apply (dynamic_island_centred (Geometry 15 676 1466 1496 57 42) 706).
  - split; [lia|]. apply Z.leb_le. reflexivity.
  - cbn [inner_h]. split; [lia|]. apply Z.leb_le. reflexivity.
Defined.

(** X7. The side buttons of the phone mockup: on the left, the action
    button, volume up and volume down follow each other from top to bottom
    without overlapping and start in column 0; every button lies within the
    rows of the body; the power button ends in column [frame_w + 8], which
    is the first column past the canvas of width [frame_w + 8]. *)
Theorem side_buttons_layout (frame_w frame_h : Z) :
  0 <= frame_w -> 0 <= frame_h <= 2 ^ 53 ->
  exists b,
    iphone_buttons frame_w frame_h = Ok b /\
    by1 (action b) <= by0 (volume_up b) /\
    by1 (volume_up b) <= by0 (volume_down b) /\
    4 <= by0 (action b) /\ by1 (volume_down b) <= 4 + frame_h /\
    4 <= by0 (power b) /\ by1 (power b) <= 4 + frame_h /\
    bx0 (action b) = 0 /\ bx0 (volume_up b) = 0 /\ bx0 (volume_down b) = 0 /\
    bx1 (power b) = frame_w + 8.
Proof.
  intros Hfw Hfh. unfold iphone_buttons.
  destruct (int_imulf_unit frame_h 0.048%float Hfh) as [-> H1]; try unit_const. cbn [bind].
  destruct (int_imulf_unit frame_h 0.23%float Hfh) as [-> H2]; try unit_const. cbn [bind].
  rewrite check_rounded_rectangle_ok by (cbn [bx0 bx1 by0 by1]; lia). cbn [bind].
  destruct (int_imulf_unit frame_h 0.033%float Hfh) as [-> H3]; try unit_const. cbn [bind].
  destruct (int_imulf_unit frame_h 0.19%float Hfh) as [-> H4]; try unit_const. cbn [bind].
  rewrite check_rounded_rectangle_ok by (cbn [bx0 bx1 by0 by1]; lia). cbn [bind].
  destruct (int_imulf_unit frame_h 0.012%float Hfh) as [-> H5]; try unit_const. cbn [bind].
  rewrite check_rounded_rectangle_ok by (cbn [bx0 bx1 by0 by1]; lia). cbn [bind].
  destruct (int_imulf_unit frame_h 0.018%float Hfh) as [-> H6]; try unit_const. cbn [bind].
  destruct (int_imulf_unit frame_h 0.03%float Hfh) as [-> H7]; try unit_const. cbn [bind].
  assert (scaled frame_h (B2Q 0.03%float) <= scaled frame_h (B2Q 0.19%float)) as Ha
    by (apply scaled_mono; [lia|vm_compute; discriminate]).
  assert (scaled frame_h (B2Q 0.018%float) <= scaled frame_h (B2Q 0.03%float)) as Hb
    by (apply scaled_mono; [lia|vm_compute; discriminate]).
  rewrite check_rounded_rectangle_ok by (cbn [bx0 bx1 by0 by1]; lia). cbn [bind].
  eexists. split; [reflexivity|].
  cbn [power volume_up volume_down action bx0 bx1 by0 by1].
  pose proof (scaled_sum_le frame_h
                [B2Q 0.19%float; B2Q 0.033%float; B2Q 0.012%float; B2Q 0.033%float]
                ltac:(lia)) as Hv.
  cbn [map fold_right] in Hv.
  pose proof (scaled_sum_le frame_h [B2Q 0.23%float; B2Q 0.048%float] ltac:(lia)) as Hp.
  cbn [map fold_right] in Hp.
  specialize (Hv ltac:(repeat constructor; vm_compute; discriminate)
                 ltac:(vm_compute; discriminate)).
  specialize (Hp ltac:(repeat constructor; vm_compute; discriminate)
                 ltac:(vm_compute; discriminate)).
  repeat split; lia.
Qed.

Lemma side_buttons_layout_witness :
  exists b,
    iphone_buttons 706 1496 = Ok b /\
    by1 (action b) <= by0 (volume_up b) /\
    by1 (volume_up b) <= by0 (volume_down b) /\
    4 <= by0 (action b) /\ by1 (volume_down b) <= 4 + 1496 /\
    4 <= by0 (power b) /\ by1 (power b) <= 4 + 1496 /\
    bx0 (action b) = 0 /\ bx0 (volume_up b) = 0 /\ bx0 (volume_down b) = 0 /\
    bx1 (power b) = 706 + 8.
Proof.
  apply (side_buttons_layout 706 1496).
  - lia.
  - split; [lia|]. apply Z.leb_le. reflexivity.
Defined.

(** X8. On a tablet frame of at least 389 pixels the front camera dot is
    drawn inside the top bezel, above the first row of the screen, and
    centred on the column [frame_w // 2]. *)
Theorem ipad_camera_inside_bezel (sw sh frame_w : Z) (g : geometry) :
  ipad_geometry sw sh frame_w = Ok g ->
  389 <= frame_w <= 2 ^ 53 ->
  exists cam,
    ipad_camera g frame_w = Ok cam /\
    0 <= by0 cam /\ by1 cam < bezel g /\
    bx0 cam + bx1 cam = 2 * (frame_w / 2) /\ bx0 cam < bx1 cam.
Proof.
  intros Hg Hfw.
  assert (bezel g = Z.max (scaled frame_w (B2Q 0.018%float)) 5) as Hb.
  { unfold ipad_geometry in Hg.
    rewrite (int_imulf_spec frame_w 0.018%float) in Hg
      by (lia || (split; [reflexivity|vm_compute; discriminate])).
    cbn [bind] in Hg. repeat bind_inv Hg. injection Hg as <-. reflexivity. }
  unfold ipad_camera.
  destruct (int_imulf_unit frame_w 0.004%float ltac:(lia)) as [-> Hr]; try unit_const.
  cbn [bind].
  pose proof (camera_radius_below_bezel frame_w Hfw) as Hcam.
  set (r := Z.max (scaled frame_w (B2Q 0.004%float)) 2) in *.
  assert (2 <= r) as Hr2 by (unfold r; lia).
  rewrite check_ellipse_ok by (cbn [bx0 bx1 by0 by1]; lia). cbn [bind].
  eexists. split; [reflexivity|]. cbn [bx0 bx1 by0 by1].
  pose proof (Z.mul_div_le (bezel g) 2 ltac:(lia)) as Hd1.
  pose proof (Z.mul_succ_div_gt (bezel g) 2 ltac:(lia)) as Hd2.
  repeat split; lia.
Qed.

Lemma ipad_camera_inside_bezel_witness :
  exists cam,
    ipad_camera (Geometry 22 1225 1634 1678 35 13) 1269 = Ok cam /\
    0 <= by0 cam /\ by1 cam < bezel (Geometry 22 1225 1634 1678 35 13) /\
    bx0 cam + bx1 cam = 2 * (1269 / 2) /\ bx0 cam < bx1 cam.
Proof.
  apply (ipad_camera_inside_bezel 2048 2732 1269 (Geometry 22 1225 1634 1678 35 13)).
  - vm_compute. reflexivity.
  - split; [lia|]. apply Z.leb_le. reflexivity.
Defined.

(** Below that width the dot can reach the screen: at 388 pixels the bezel
    is 6 rows and the dot ends in row 6, the first row of the screen. *)
Lemma ipad_camera_388_reaches_screen :
  ipad_geometry 2048 2732 388 = Ok (Geometry 6 376 501 513 10 4) /\
  ipad_camera (Geometry 6 376 501 513 10 4) 388 = Ok (Box 192 2 196 6).
Proof. vm_compute. split; reflexivity. Qed.

(** ** What a batch of [generate] calls writes *)

Section BatchFacts.

Variable picture : Type.
Variable compose : screen -> picture -> Z * Z -> device -> result picture.

Lemma run_job_frame j w w' p :
  run_job picture compose j w = Ok w' ->
  p <> job_out_path j ->
  files picture w' p = files picture w p /\
  List.length (stdout picture w') = Datatypes.S (List.length (stdout picture w)).
Proof.
  unfold run_job, generate, job_out_path. intros Hrun Hp.
  destruct (files picture w _) as [shot|].
  - destruct (compose _ shot _ _) as [final|e]; cbn [bind] in Hrun; [|discriminate].
    injection Hrun as <-. cbn [print save files stdout]. split.
    + destruct (String.eqb_spec p (path_join (job_output_dir j) (out (job_screen j))));
        [contradiction|reflexivity].
    + rewrite length_app. cbn [List.length]. lia.
  - injection Hrun as <-. cbn [print files stdout]. split; [reflexivity|].
    rewrite length_app. cbn [List.length]. lia.
Qed.

Lemma run_batch_frame jobs : forall w w' p,
  run_batch picture compose jobs w = Ok w' ->
  (forall j, In j jobs -> p <> job_out_path j) ->
  files picture w' p = files picture w p /\
  List.length (stdout picture w') = (List.length (stdout picture w) + List.length jobs)%nat.
Proof.
  induction jobs as [|j jobs IH]; intros w w' p Hrun Hp.
  - injection Hrun as <-. split; [reflexivity|]. cbn [List.length]. lia.
  - rewrite run_batch_cons in Hrun.
    destruct (run_job picture compose j w) as [w1|e] eqn:Hj; cbn [bind] in Hrun; [|discriminate].
    destruct (run_job_frame j w w1 p Hj (Hp j (or_introl eq_refl))) as [Hf1 Hs1].
    destruct (IH w1 w' p Hrun (fun j' Hj' => Hp j' (or_intror Hj'))) as [Hf2 Hs2].
    split; [congruence|]. cbn [List.length]. lia.
Qed.

End BatchFacts.

(** X9. A batch of [generate] calls that ends normally has changed no file
    other than the output files of its jobs, and has printed exactly one
    line per job (the warning or the check mark). *)
Theorem batch_writes_only_outputs (picture : Type)
    (compose : screen -> picture -> Z * Z -> device -> result picture)
    (jobs : list job) (w w' : world picture) (p : string) :
  run_batch picture compose jobs w = Ok w' ->
  (forall j, In j jobs -> p <> job_out_path j) ->
  files picture w' p = files picture w p /\
  List.length (stdout picture w') = (List.length (stdout picture w) + List.length jobs)%nat.
Proof. intros Hrun Hp. apply (run_batch_frame picture compose jobs w w' p Hrun Hp). Qed.

Lemma batch_writes_only_outputs_witness :
  let src := path_join (path_join BASE "iPhone") "01_Onboarding.png" in
  let w := World nat (fun q => if String.eqb q src then Some 7%nat else None) [] in
  let j := Job (hd (Screen "" "" "" "" [] 0) SCREENS)
               (path_join BASE "iPhone") (path_join BASE "Marketing_iPhone_6.7")
               (1284, 2778) Phone in
  let w' := World nat
              (fun q => if String.eqb q (job_out_path j) then Some 7%nat else files nat w q)
              [Done "01_Welcome.png"] in
  files nat w' src = files nat w src /\
  List.length (stdout nat w') = (List.length (stdout nat w) + List.length [j])%nat.
Proof.
  intros src w j w'.
  apply (batch_writes_only_outputs nat (fun _ p _ _ => Ok p) [j] w w' src).
  - reflexivity.
  - intros j' [<-|[]]. vm_compute. discriminate.
Defined.

(** X10. [main] never writes a file it reads: whatever the file system and
    whatever the drawing code does, after a run that ends normally every
    source screenshot is as before; and its 24 jobs write 24 different
    files. *)
Theorem main_keeps_its_sources (picture : Type)
    (compose : screen -> picture -> Z * Z -> device -> result picture)
    (w w' : world picture) :
  run_batch picture compose main_jobs w = Ok w' ->
  (forall j, In j main_jobs ->
     files picture w' (job_src_path j) = files picture w (job_src_path j)) /\
  NoDup (map job_out_path main_jobs) /\
  List.length (stdout picture w') = (List.length (stdout picture w) + 24)%nat.
Proof.
  intros Hrun.
  assert (forallb (fun j => forallb (fun j' => negb (String.eqb (job_src_path j) (job_out_path j')))
                                    main_jobs) main_jobs = true) as Hdisj
    by (vm_compute; reflexivity).
  split; [|split].
  - intros j Hj.
    apply (run_batch_frame picture compose main_jobs w w' (job_src_path j) Hrun).
    intros j' Hj' Heq.
    rewrite forallb_forall in Hdisj. specialize (Hdisj j Hj).
    rewrite forallb_forall in Hdisj. specialize (Hdisj j' Hj').
    rewrite Heq, String.eqb_refl in Hdisj. discriminate.
  - assert (forall xs : list string,
              (fix nodup (l : list string) : bool :=
                 match l with
                 | [] => true
                 | x :: r => negb (existsb (String.eqb x) r) && nodup r
                 end) xs = true -> NoDup xs) as Hnd.
    { induction xs as [|x xs IH]; intros Hx; [constructor|].
      apply andb_prop in Hx. destruct Hx as [Hx1 Hx2]. constructor; [|apply IH, Hx2].
      intros Hin. apply negb_true_iff in Hx1.
      assert (existsb (String.eqb x) xs = true); [|congruence].
      apply existsb_exists. exists x. split; [exact Hin|apply String.eqb_refl]. }
    apply Hnd. vm_compute. reflexivity.
  - apply (run_batch_frame picture compose main_jobs w w' ""%string Hrun).
    intros j Hj Heq.
    assert (forallb (fun j => negb (String.eqb "" (job_out_path j))) main_jobs = true) as Hne
      by (vm_compute; reflexivity).
    rewrite forallb_forall in Hne. specialize (Hne j Hj).
    rewrite <- Heq in Hne. discriminate.
Qed.

Lemma main_keeps_its_sources_witness :
  let w := World nat (fun _ => None) [] in
  let w' := World nat (fun _ => None)
              (map (fun j => Missing (job_src_path j)) main_jobs) in
  (forall j, In j main_jobs ->
     files nat w' (job_src_path j) = files nat w (job_src_path j)) /\
  NoDup (map job_out_path main_jobs) /\
  List.length (stdout nat w') = (List.length (stdout nat w) + 24)%nat.
Proof.
  intros w w'.
  apply (main_keeps_its_sources nat (fun _ p _ _ => Ok p) w w').
  vm_compute. reflexivity.
Defined.

(** ** The scale helper and the chart of [shot3] *)

(** X11. [S(val, scale)] grows with [val] on a non-negative scale, keeps the
    sign of a non-negative [val], and is the identity at scale 1, the scale
    of the 1290 pixel canvas. *)
Theorem S_monotone_identity_at_1 (v1 v2 : Z) (s : float) :
  v1 <= v2 -> Z.abs v1 <= 2 ^ 53 -> Z.abs v2 <= 2 ^ 53 ->
  finite s -> (0 <= B2Q s <= bpow 900)%Q ->
  exists a b,
    S v1 s = Ok a /\ S v2 s = Ok b /\ a <= b /\
    (0 <= v1 -> 0 <= a) /\
    ((B2Q s == 1)%Q -> a = v1 /\ b = v2).
Proof.
  intros Hv H1 H2 Fs Rs.
  assert (fbounded 900 s) as Bs.
  { split; [exact Fs|]. apply Qabs_Qle_condition. pose proof (bpow_pos 900).
    split; [|apply Rs]. destruct Rs as [R0 _]. 
    apply Qle_trans with 0%Q; [|exact R0].
    apply (Qopp_le_compat 0 (bpow 900)), Qlt_le_weak, bpow_pos. }
  rewrite (S_value v1 s 900 H1 Bs ltac:(lia)), (S_value v2 s 900 H2 Bs ltac:(lia)).
  eexists. eexists. split; [reflexivity|]. split; [reflexivity|].
  split; [apply scaled_mono_size; [exact Hv|apply Rs]|].
  split; [intros H0; apply scaled_nonneg; [exact H0|apply Rs]|].
  intros E. rewrite !(scaled_compat _ _ _ E). split; apply scaled_1; assumption.
Qed.

Lemma S_monotone_identity_at_1_witness :
  exists a b,
    S 60 1 = Ok a /\ S 80 1 = Ok b /\ a <= b /\
    (0 <= 60 -> 0 <= a) /\
    ((B2Q 1 == 1)%Q -> a = 60 /\ b = 80).
Proof.
  apply (S_monotone_identity_at_1 60 80 1%float).
  - lia.
  - vm_compute. discriminate.
  - vm_compute. discriminate.
  - reflexivity.
  - split; vm_compute; discriminate.
Defined.

(** X12. For every canvas width the chart of [shot3] is laid out between
    the page margins: the margin is not negative, the chart starts right of
    the left margin, ends left of the right margin, and has a positive width
    and a non-negative height and top row. *)
Theorem shot3_chart_between_margins (w : Z) :
  1 <= w <= 2 ^ 53 ->
  exists s c,
    shot3_layout w = Ok (s, c) /\
    0 <= margin c /\ margin c <= chart_x c /\
    chart_x c + chart_w c <= w - margin c /\
    0 < chart_w c /\ 0 <= chart_h c /\ 0 <= chart_y c.
Proof.
  intros Hw. unfold shot3_layout.
  destruct (canvas_scale w Hw) as (s & -> & Bs & Hs0 & Hs). cbn [bind].
  assert (forall v, 0 <= v <= 1000 ->
            S v s = Ok (scaled v (B2Q s)) /\ 0 <= scaled v (B2Q s)) as HS.
  { intros v Hv. split.
    - apply (S_value v s 53); [|exact Bs|lia].
      change (2 ^ 53) with 9007199254740992. lia.
    - apply scaled_nonneg; [lia|]. apply Qlt_le_weak, Hs0. }
  repeat match goal with
         | |- context [S ?v s] =>
             let H := fresh "P" in
             destruct (HS v ltac:(lia)) as [-> H]; cbn [bind]
         end.
  eexists. eexists. split; [reflexivity|].
  cbn [margin chart_x chart_y chart_w chart_h].
  pose proof (three_margins_fit w (B2Q s) ltac:(lia) Hs0 Hs) as H3.
  assert (scaled 60 (B2Q s) <= scaled 80 (B2Q s)) as H68
    by (apply scaled_mono_size; [lia|apply Qlt_le_weak, Hs0]).
  repeat split; lia.
Qed.

Lemma shot3_chart_between_margins_witness :
  exists s c,
    shot3_layout 1290 = Ok (s, c) /\
    0 <= margin c /\ margin c <= chart_x c /\
    chart_x c + chart_w c <= 1290 - margin c /\
    0 < chart_w c /\ 0 <= chart_h c /\ 0 <= chart_y c.
Proof.
  apply (shot3_chart_between_margins 1290).
  split; [lia|]. apply Z.leb_le. reflexivity.
Defined.

(** X13. The growth curve of [shot3] spans the chart from edge to edge:
    for a chart whose width is at most [2 ^ 53], the first of the 30 points
    has the x coordinate [chart_x], the last one [chart_x + chart_w], and
    every point lies between the two. *)
Theorem growth_curve_spans_chart (math_exp : float -> float) (c : chart) :
  exp_in_unit math_exp ->
  0 <= chart_w c <= 2 ^ 53 -> 0 <= chart_h c <= 2 ^ 1023 ->
  exists pts,
    growth_points math_exp c = Ok pts /\
    (exists p, nth_error pts 0 = Some p /\ fst p = chart_x c) /\
    (exists p, nth_error pts 29 = Some p /\ fst p = chart_x c + chart_w c) /\
    Forall (fun p => chart_x c <= fst p <= chart_x c + chart_w c) pts.
Proof.
  intros Hexp HW HH. unfold growth_points.
  assert (0 <= chart_w c <= 2 ^ 1023) as HW'.
  { split; [lia|]. apply Z.le_trans with (2 ^ 53); [lia|].
    apply Z.pow_le_mono_r; lia. }
  set (P := fun (i : Z) (p : Z * Z) => fst p = chart_x c + x_offset (chart_w c) i).
  destruct (for_each_collect (growth_point math_exp c) P (map Z.of_nat (seq 0 30)))
    with (acc := @nil (Z * Z)) as (pts & Hrun & Hall).
  { intros i Hi. apply in_map_iff in Hi. destruct Hi as (n & <- & Hn).
    apply in_seq in Hn.
    destruct (growth_point_spec math_exp Hexp c (Z.of_nat n) ltac:(lia) HW' HH)
      as (dy & Hpt & Hdy).
    eexists. split; [exact Hpt|]. reflexivity. }
  exists pts. split; [exact Hrun|].
  assert (List.length pts = 30%nat) as Hlen
    by (rewrite <- (Forall2_length Hall), length_map, length_seq; reflexivity).
  assert (forall i p, nth_error pts i = Some p ->
            (i < 30)%nat /\ fst p = chart_x c + x_offset (chart_w c) (Z.of_nat i)) as Hnth.
  { intros i p Hp.
    destruct (Forall2_nth_error_r _ _ _ Hall i p Hp) as (x & Hx & Ex).
    apply nth_error_range in Hx. destruct Hx as [-> Hi]. split; [exact Hi|exact Ex]. }
  split; [|split].
  - destruct (nth_error pts 0) as [p|] eqn:Ep.
    + exists p. split; [reflexivity|]. destruct (Hnth _ _ Ep) as [_ ->].
      change (Z.of_nat 0) with 0. rewrite x_offset_first. lia.
    + apply nth_error_None in Ep. lia.
  - destruct (nth_error pts 29) as [p|] eqn:Ep.
    + exists p. split; [reflexivity|]. destruct (Hnth _ _ Ep) as [_ ->].
      change (Z.of_nat 29) with 29. rewrite (x_offset_last _ HW). reflexivity.
    + apply nth_error_None in Ep. lia.
  - apply Forall_forall. intros p Hp. apply In_nth_error in Hp. destruct Hp as [i Hi].
    destruct (Hnth _ _ Hi) as [Hi30 ->].
    pose proof (x_offset_mono (chart_w c) 0 (Z.of_nat i) ltac:(lia) ltac:(lia)) as Hlo.
    pose proof (x_offset_mono (chart_w c) (Z.of_nat i) 29 ltac:(lia) ltac:(lia)) as Hhi.
    rewrite x_offset_first in Hlo. rewrite (x_offset_last _ HW) in Hhi. lia.
Qed.

Lemma growth_curve_spans_chart_witness :
  exists pts,
    growth_points exp_series (Chart 80 140 642 1050 650) = Ok pts /\
    (exists p, nth_error pts 0 = Some p /\ fst p = 140) /\
    (exists p, nth_error pts 29 = Some p /\ fst p = 140 + 1050) /\
    Forall (fun p => 140 <= fst p <= 140 + 1050) pts.
Proof.
  apply (growth_curve_spans_chart exp_series (Chart 80 140 642 1050 650)).
  - exact exp_series_in_unit.
  - cbn [chart_w]. split; [lia|]. apply Z.leb_le. vm_compute. reflexivity.
  - cbn [chart_h]. split; [lia|]. apply Z.leb_le. vm_compute. reflexivity.
Defined.

(** ** The banded backdrops of [generate_screenshots.py] *)

(** X14. [gradient] draws [steps] rectangles that tile the rectangle it is
    given: all span its columns, the first starts on its top row with the
    colour [c1], each one starts on the row where the one before ends, the
    last ends on its bottom row, every colour lies between the two stops,
    and from band to band the colour only moves away from [c1]. *)
Theorem gradient_bands_tile (rect : box) (c1 c2 : color) (steps : Z) :
  bx0 rect <= bx1 rect -> 0 <= by1 rect - by0 rect <= 2 ^ 53 -> 1 <= steps ->
  color_ok c1 -> color_ok c2 ->
  exists bands,
    gradient rect c1 c2 steps = Ok bands /\
    Z.of_nat (List.length bands) = steps /\
    (exists b, nth_error bands 0 = Some b /\
               by0 (band_box b) = by0 rect /\ band_fill b = c1) /\
    (exists b, nth_error bands (Z.to_nat (steps - 1)) = Some b /\
               by1 (band_box b) = by1 rect) /\
    (forall i b b', nth_error bands i = Some b -> nth_error bands (i + 1) = Some b' ->
       by1 (band_box b) = by0 (band_box b')) /\
    Forall (fun b => bx0 (band_box b) = bx0 rect /\ bx1 (band_box b) = bx1 rect /\
                     by0 (band_box b) <= by1 (band_box b) /\
                     color_between c1 c2 (band_fill b)) bands /\
    (forall i j b b', (i <= j)%nat ->
       nth_error bands i = Some b -> nth_error bands j = Some b' ->
       color_between c1 (band_fill b') (band_fill b)).
Proof.
  intros Hx Hh Hs H1 H2. unfold gradient.
  set (h := by1 rect - by0 rect) in *.
  set (F := fun i => Band (Box (bx0 rect) (by0 rect + edge_value h i steps)
                               (bx1 rect) (by0 rect + edge_value h (i + 1) steps))
                          (lerp_color c1 c2 (RN (inject_Z i / inject_Z steps)))).
  rewrite (for_each_map (gradient_step rect c1 c2 steps) F)
    by (intros i Hi; apply range_In in Hi; apply gradient_step_spec; assumption).
  cbn [app]. eexists. split; [reflexivity|].
  split; [rewrite length_map; apply range_length; lia|].
  split; [|split; [|split; [|split]]].
  - exists (F 0). split; [apply (nth_error_map_range_at F steps 0); lia|].
    unfold F. cbn [band_box band_fill by0]. rewrite edge_value_first. split; [lia|].
    rewrite (lerp_color_compat c1 c2 _ 0); [apply lerp_color_0; exact H1|].
    assert (inject_Z 0 / inject_Z steps == 0)%Q as ->
      by (unfold Qdiv; change (inject_Z 0) with 0%Q; ring).
    apply RN_0.
  - exists (F (steps - 1)). split; [apply nth_error_map_range_at; lia|].
    unfold F. cbn [band_box by1]. replace (steps - 1 + 1) with steps by lia.
    rewrite edge_value_last by lia. unfold h. lia.
  - intros i b b' Hb Hb'.
    apply nth_error_map_range in Hb, Hb'. destruct Hb as [-> _], Hb' as [-> _].
    unfold F. cbn [band_box by0 by1]. do 2 f_equal. lia.
  - apply Forall_forall. intros b Hb. apply In_nth_error in Hb. destruct Hb as [i Hi].
    apply nth_error_map_range in Hi. destruct Hi as [-> Hi].
    unfold F. cbn [band_box band_fill bx0 bx1 by0 by1].
    split; [reflexivity|]. split; [reflexivity|]. split.
    + pose proof (edge_value_mono h (Z.of_nat i) (Z.of_nat i + 1) steps
                    ltac:(lia) ltac:(lia) ltac:(lia)). lia.
    + apply lerp_color_between; [exact H1|exact H2|].
      apply RN_unit, unit_quotient; lia.
  - intros i j b b' Hij Hb Hb'.
    apply nth_error_map_range in Hb, Hb'. destruct Hb as [-> Hi], Hb' as [-> Hj].
    unfold F. cbn [band_fill].
    destruct (fraction_mono (Z.of_nat i) (Z.of_nat j) steps ltac:(lia) ltac:(lia) ltac:(lia))
      as [Hp Hpq].
    apply lerp_color_toward; assumption.
Qed.

Lemma gradient_bands_tile_witness :
  exists bands,
    gradient (Box 0 0 1290 2796) (12, 12, 35) (25, 20, 55) 300 = Ok bands /\
    Z.of_nat (List.length bands) = 300 /\
    (exists b, nth_error bands 0 = Some b /\
               by0 (band_box b) = 0 /\ band_fill b = (12, 12, 35)) /\
    (exists b, nth_error bands (Z.to_nat (300 - 1)) = Some b /\
               by1 (band_box b) = 2796) /\
    (forall i b b', nth_error bands i = Some b -> nth_error bands (i + 1) = Some b' ->
       by1 (band_box b) = by0 (band_box b')) /\
    Forall (fun b => bx0 (band_box b) = 0 /\ bx1 (band_box b) = 1290 /\
                     by0 (band_box b) <= by1 (band_box b) /\
                     color_between (12, 12, 35) (25, 20, 55) (band_fill b)) bands /\
    (forall i j b b', (i <= j)%nat ->
       nth_error bands i = Some b -> nth_error bands j = Some b' ->
       color_between (12, 12, 35) (band_fill b') (band_fill b)).
Proof.
  apply (gradient_bands_tile (Box 0 0 1290 2796) (12, 12, 35) (25, 20, 55) 300).
  - cbn [bx0 bx1]. lia.
  - cbn [by0 by1]. split; [lia|]. apply Z.leb_le. reflexivity.
  - lia.
  - unfold color_ok, channel_ok. lia.
  - unfold color_ok, channel_ok. lia.
Defined.

(** X15. [gradient3] draws the same rectangles as [gradient] does for the
    same rectangle and number of steps. Its first band has the colour [c1];
    a band of the upper half ([2 * i < steps]) has a colour between [c1]
    and [c2], a band of the lower half one between [c2] and [c3]; with an
    even number of steps the band in the middle has exactly the colour
    [c2]. *)
Theorem gradient3_bands_blend (rect : box) (c1 c2 c3 : color) (steps : Z) :
  bx0 rect <= bx1 rect -> 0 <= by1 rect - by0 rect <= 2 ^ 53 -> 1 <= steps <= 2 ^ 53 ->
  color_ok c1 -> color_ok c2 -> color_ok c3 ->
  exists bands bands2,
    gradient3 rect c1 c2 c3 steps = Ok bands /\
    gradient rect c1 c3 steps = Ok bands2 /\
    map band_box bands = map band_box bands2 /\
    (exists b, nth_error bands 0 = Some b /\ band_fill b = c1) /\
    (forall i b, nth_error bands i = Some b ->
       if 2 * Z.of_nat i <? steps then color_between c1 c2 (band_fill b)
       else color_between c2 c3 (band_fill b)) /\
    (Z.even steps = true ->
     exists b, nth_error bands (Z.to_nat (steps / 2)) = Some b /\ band_fill b = c2).
Proof.
  intros Hx Hh Hs H1 H2 H3. unfold gradient3, gradient.
  set (h := by1 rect - by0 rect) in *.
  set (R := fun i => Box (bx0 rect) (by0 rect + edge_value h i steps)
                         (bx1 rect) (by0 rect + edge_value h (i + 1) steps)).
  set (F3 := fun i => Band (R i) (gradient3_value c1 c2 c3 (RN (inject_Z i / inject_Z steps)))).
  set (F2 := fun i => Band (R i) (lerp_color c1 c3 (RN (inject_Z i / inject_Z steps)))).
  rewrite (for_each_map (gradient3_step rect c1 c2 c3 steps) F3)
    by (intros i Hi; apply range_In in Hi; apply gradient3_step_spec; assumption).
  rewrite (for_each_map (gradient_step rect c1 c3 steps) F2)
    by (intros i Hi; apply range_In in Hi; apply gradient_step_spec; assumption).
  cbn [app]. eexists. eexists. split; [reflexivity|]. split; [reflexivity|].
  split; [|split; [|split]].
  - rewrite !map_map. reflexivity.
  - exists (F3 0). split; [apply (nth_error_map_range_at F3 steps 0); lia|].
    unfold F3. cbn [band_fill].
    rewrite (gradient3_value_compat c1 c2 c3 _ 0); [apply gradient3_value_0; exact H1|].
    assert (inject_Z 0 / inject_Z steps == 0)%Q as ->
      by (unfold Qdiv; change (inject_Z 0) with 0%Q; ring).
    apply RN_0.
  - intros i b Hb. apply nth_error_map_range in Hb. destruct Hb as [-> Hi].
    unfold F3. cbn [band_fill].
    destruct (Z.ltb_spec (2 * Z.of_nat i) steps) as [Hlo|Hhi].
    + destruct (fraction_below_half (Z.of_nat i) steps ltac:(lia) Hlo ltac:(lia)) as [P0 P1].
      apply gradient3_value_low; assumption.
    + destruct (fraction_above_half (Z.of_nat i) steps ltac:(lia) Hhi ltac:(lia)) as [P0 P1].
      apply gradient3_value_high; assumption.
  - intros Hev. apply Z.even_spec in Hev. destruct Hev as [k Hk].
    assert (steps / 2 = k) as -> by (subst steps; rewrite Z.mul_comm; apply Z.div_mul; lia).
    exists (F3 k). split; [apply nth_error_map_range_at; lia|].
    unfold F3. cbn [band_fill].
    rewrite (gradient3_value_compat c1 c2 c3 _ (1 # 2));
      [apply gradient3_value_half; exact H2|].
    assert (inject_Z k / inject_Z steps == 1 # 2)%Q as ->.
    { subst steps. rewrite inject_Z_mult. change (inject_Z 2) with 2%Q. field.
      change 0%Q with (inject_Z 0). rewrite inject_Z_injective. lia. }
    assert (1 # 2 == B2Q 0.5%float)%Q as -> by float_const. apply RN_B2Q.
Qed.

Lemma gradient3_bands_blend_witness :
  exists bands bands2,
    gradient3 (Box 0 0 1290 2796) (252, 235, 243) (240, 235, 252) (248, 238, 248) 300
    = Ok bands /\
    gradient (Box 0 0 1290 2796) (252, 235, 243) (248, 238, 248) 300 = Ok bands2 /\
    map band_box bands = map band_box bands2 /\
    (exists b, nth_error bands 0 = Some b /\ band_fill b = (252, 235, 243)) /\
    (forall i b, nth_error bands i = Some b ->
       if 2 * Z.of_nat i <? 300
       then color_between (252, 235, 243) (240, 235, 252) (band_fill b)
       else color_between (240, 235, 252) (248, 238, 248) (band_fill b)) /\
    (Z.even 300 = true ->
     exists b, nth_error bands (Z.to_nat (300 / 2)) = Some b /\ band_fill b = (240, 235, 252)).
Proof.
  apply (gradient3_bands_blend (Box 0 0 1290 2796)
           (252, 235, 243) (240, 235, 252) (248, 238, 248) 300).
  - cbn [bx0 bx1]. lia.
  - cbn [by0 by1]. split; [lia|]. apply Z.leb_le. reflexivity.
  - split; [lia|]. apply Z.leb_le. reflexivity.
  - unfold color_ok, channel_ok. lia.
  - unfold color_ok, channel_ok. lia.
  - unfold color_ok, channel_ok. lia.
Defined.

(** ** The activity list of [shot1] and [shot2] *)

Import Activity.

(** X16. The activity loop draws the longest run of rows that fits above
    the bottom margin. At a scale of at least 1/95 the row height
    [S(95, s)] is positive; row [i] is the card
    [(margin, y + i * S(95, s), w - margin, y + (i + 1) * S(95, s) - S(8, s))],
    its slot ends at or above [h - S(20, s)], and when the loop stops before
    the end of the list the next row would have ended below that line. *)
Theorem activity_rows_fit (A : Type) (margin w h y : Z) (s : float) (acts : list A) :
  finite s -> (1 # 95 <= B2Q s <= bpow 900)%Q -> 2 * margin <= w ->
  exists d95 d20 d8 rows,
    S 95 s = Ok d95 /\ S 20 s = Ok d20 /\ S 8 s = Ok d8 /\ 1 <= d95 /\
    activity_list margin w h s acts y [] = Ok (rows, y + Z.of_nat (List.length rows) * d95) /\
    (List.length rows <= List.length acts)%nat /\
    (forall i r, nth_error rows i = Some r ->
       row_card r = Box margin (y + Z.of_nat i * d95) (w - margin)
                        (y + (Z.of_nat i + 1) * d95 - d8) /\
       nonempty (row_card r) /\
       y + (Z.of_nat i + 1) * d95 <= h - d20) /\
    ((List.length rows < List.length acts)%nat ->
     h - d20 < y + (Z.of_nat (List.length rows) + 1) * d95).
Proof.
  intros Fs Rs Hm.
  assert (fbounded 900 s) as Bs.
  { split; [exact Fs|]. apply Qabs_Qle_condition. destruct Rs as [R1 R2]. split; [|exact R2].
    apply Qle_trans with (1 # 95)%Q; [|exact R1].
    apply Qle_trans with 0%Q; [|discriminate].
    apply (Qopp_le_compat 0), Qlt_le_weak, bpow_pos. }
  assert (forall v, 0 <= v <= 1000 -> S v s = Ok (scaled v (B2Q s))) as HS.
  { intros v Hv. apply (S_value v s 900); [|exact Bs|lia].
    change (2 ^ 53) with 9007199254740992. lia. }
  destruct (draw_activity_row_spec margin w s y Fs Rs Hm) as [H95 _].
  destruct (activity_list_spec margin w h s acts Fs Rs Hm y []) as (rows & Hrun & Hrest).
  exists (scaled 95 (B2Q s)), (scaled 20 (B2Q s)), (scaled 8 (B2Q s)), rows.
  rewrite !HS by lia. repeat (split; [reflexivity|]). split; [exact H95|].
  split; [exact Hrun|]. exact Hrest.
Qed.

Lemma activity_rows_fit_witness :
  exists d95 d20 d8 rows,
    S 95 1 = Ok d95 /\ S 20 1 = Ok d20 /\ S 8 1 = Ok d8 /\ 1 <= d95 /\
    activity_list 80 1290 2796 1 [tt; tt; tt; tt; tt; tt; tt] 2300 []
    = Ok (rows, 2300 + Z.of_nat (List.length rows) * d95) /\
    (List.length rows <= List.length [tt; tt; tt; tt; tt; tt; tt])%nat /\
    (forall i r, nth_error rows i = Some r ->
       row_card r = Box 80 (2300 + Z.of_nat i * d95) (1290 - 80)
                        (2300 + (Z.of_nat i + 1) * d95 - d8) /\
       nonempty (row_card r) /\
       2300 + (Z.of_nat i + 1) * d95 <= 2796 - d20) /\
    ((List.length rows < List.length [tt; tt; tt; tt; tt; tt; tt])%nat ->
     2796 - d20 < 2300 + (Z.of_nat (List.length rows) + 1) * d95).
Proof.
  apply (activity_rows_fit unit 80 1290 2796 2300 1%float [tt; tt; tt; tt; tt; tt; tt]).
  - reflexivity.
  - split; vm_compute; discriminate.
  - lia.
Defined.

(** Below that scale the bound can fail: on a canvas 13 pixels wide
    [S(95, s)] is 0, the test passes at [y = h], and the row drawn there has
    the default height [S(100, s) = 1]. *)
Lemma activity_row_of_height_0_overruns :
  exists s row,
    truediv 13 1290 = Ok s /\ S 95 s = Ok 0 /\ S 20 s = Ok 0 /\
    activity_list 0 13 28 s [tt] 28 [] = Ok ([row], 29).
Proof.
  eexists. eexists. split; [reflexivity|]. split; [reflexivity|]. split; [reflexivity|].
  vm_compute. reflexivity.
Qed.

(** ** The summary cards of [shot1] and [shot2] *)

Import Summary.

(** X17. [draw_summary_cards] lays up to three cards of equal width side by
    side between the page margins: card [j] starts at
    [margin + j * (cw + S(20, s))] with [cw = (w - 2 * margin - S(40, s)) // 3],
    no card starts before [margin] or ends after [w - margin], and a card
    ends before the next one starts. The height it returns is [card_h], or
    [S(210, s)] when [card_h] is [None] or 0. *)
Theorem summary_cards_between_margins (A : Type) (margin w y d40 : Z) (s : float)
    (items : list A) (card_h : option Z) :
  finite s -> (0 <= B2Q s <= bpow 900)%Q ->
  S 40 s = Ok d40 -> 2 * margin + d40 <= w ->
  (forall v, card_h = Some v -> 0 <= v) ->
  (List.length items <= 3)%nat ->
  exists d20 cards ch,
    S 20 s = Ok d20 /\ 0 <= d20 /\
    draw_summary_cards margin w s y items card_h = Ok (cards, ch) /\
    List.length cards = List.length items /\
    (forall v, card_h = Some v -> v <> 0 -> ch = v) /\
    (card_h = None \/ card_h = Some 0 -> S 210 s = Ok ch) /\
    let cw := (w - margin * 2 - d40) / 3 in
    forall j c, nth_error cards j = Some c ->
      card_box c = Box (margin + Z.of_nat j * (cw + d20)) y
                       (margin + Z.of_nat j * (cw + d20) + cw) (y + ch) /\
      margin <= bx0 (card_box c) /\ bx0 (card_box c) <= bx1 (card_box c) /\
      bx1 (card_box c) <= w - margin.
Proof.
  intros Fs Rs H40 Hw Hcard Hlen.
  assert (fbounded 900 s) as Bs.
  { split; [exact Fs|]. apply Qabs_Qle_condition. destruct Rs as [R1 R2]. split; [|exact R2].
    apply Qle_trans with 0%Q; [|exact R1].
    apply (Qopp_le_compat 0), Qlt_le_weak, bpow_pos. }
  assert (forall v, 0 <= v <= 1000 ->
            S v s = Ok (scaled v (B2Q s)) /\ 0 <= scaled v (B2Q s)) as HS.
  { intros v Hv. split.
    - apply (S_value v s 900); [|exact Bs|lia].
      change (2 ^ 53) with 9007199254740992. lia.
    - apply scaled_nonneg; [lia|apply Rs]. }
  destruct (HS 40 ltac:(lia)) as [E40 P40]. rewrite E40 in H40. injection H40 as <-.
  destruct (HS 20 ltac:(lia)) as [E20 P20].
  destruct (HS 210 ltac:(lia)) as [E210 P210].
  pose proof (scaled_double_le 20 (B2Q s) ltac:(lia) (proj1 Rs)) as Hdbl.
  change (2 * 20) with 40 in Hdbl.
  set (d40 := scaled 40 (B2Q s)) in *. set (d20 := scaled 20 (B2Q s)) in *.
  set (cw := (w - margin * 2 - d40) / 3).
  assert (0 <= cw) as Hcw by (apply Z.div_pos; lia).
  assert (3 * cw <= w - margin * 2 - d40) as H3 by (apply Z.mul_div_le; lia).
  set (ch := match card_h with
             | Some v => if v =? 0 then scaled 210 (B2Q s) else v
             | None => scaled 210 (B2Q s)
             end).
  assert (0 <= ch) as Hch.
  { unfold ch. destruct card_h as [v|]; [|exact P210].
    destruct (Z.eqb_spec v 0); [exact P210|apply Hcard; reflexivity]. }
  assert (match card_h with
          | Some v => if v =? 0 then S 210 s else Ok v
          | None => S 210 s
          end = Ok ch) as Ech.
  { unfold ch. destruct card_h as [v|]; [|exact E210].
    destruct (Z.eqb_spec v 0); [exact E210|reflexivity]. }
  set (F := fun j => match draw_summary_card margin s y ch cw j with
                     | Ok c => c
                     | Raise _ => SummaryCard (Box 0 0 0 0) (Box 0 0 0 0) (Box 0 0 0 0) 0 0
                     end).
  assert (forall j, draw_summary_card margin s y ch cw j = Ok (F j) /\
                    card_box (F j) = Box (margin + j * (cw + d20)) y
                                         (margin + j * (cw + d20) + cw) (y + ch)) as HF.
  { intros j. destruct (draw_summary_card_spec margin s y ch cw j Fs Rs Hch Hcw)
      as (c & Hc & Hbox).
    unfold F. rewrite Hc. split; [reflexivity|exact Hbox]. }
  exists d20, (map F (map Z.of_nat (seq 0 (List.length items)))), ch.
  split; [exact E20|]. split; [exact P20|]. split.
  { unfold draw_summary_cards. rewrite Ech. cbn [bind]. rewrite E40. cbn [bind].
    fold d40 cw.
    rewrite (for_each_enumerate (draw_summary_card margin s y ch cw) F)
      by (intros j _; apply HF).
    reflexivity. }
  split; [rewrite !length_map, length_seq; reflexivity|].
  split; [intros v -> Hv; unfold ch; destruct (Z.eqb_spec v 0); [contradiction|reflexivity]|].
  split; [intros [->| ->]; unfold ch; cbn; exact E210|].
  cbv zeta. fold cw. intros j c Hj. rewrite nth_error_map in Hj.
  destruct (nth_error (map Z.of_nat (seq 0 (List.length items))) j) as [i|] eqn:Ei;
    [|discriminate].
  apply nth_error_range in Ei. destruct Ei as [-> Hi]. injection Hj as <-.
  destruct (HF (Z.of_nat j)) as [_ ->]. cbn [bx0 bx1].
  split; [reflexivity|]. nia.
Qed.

Lemma summary_cards_between_margins_witness :
  exists d20 cards ch,
    S 20 1 = Ok d20 /\ 0 <= d20 /\
    draw_summary_cards 80 1290 1 1375 [tt; tt; tt] (Some 190) = Ok (cards, ch) /\
    List.length cards = List.length [tt; tt; tt] /\
    (forall v, Some 190 = Some v -> v <> 0 -> ch = v) /\
    (Some 190 = None \/ Some 190 = Some 0 -> S 210 1 = Ok ch) /\
    let cw := (1290 - 80 * 2 - 40) / 3 in
    forall j c, nth_error cards j = Some c ->
      card_box c = Box (80 + Z.of_nat j * (cw + d20)) 1375
                       (80 + Z.of_nat j * (cw + d20) + cw) (1375 + ch) /\
      80 <= bx0 (card_box c) /\ bx0 (card_box c) <= bx1 (card_box c) /\
      bx1 (card_box c) <= 1290 - 80.
Proof.
  apply (summary_cards_between_margins unit 80 1290 1375 40 1%float [tt; tt; tt] (Some 190)).
  - reflexivity.
  - split; vm_compute; discriminate.
  - reflexivity.
  - lia.
  - intros v E. injection E as <-. lia.
  - cbn [List.length]. lia.
Defined.
